(** * YAMLetMeSee: indentation guides for YAML documents

    A shallow embedding of the structural core of [src/extension.ts]: the
    indentation model ([getEffectiveIndentColumn], [getIndentationLevel],
    [getIndentationColumn]), the hierarchy walker ([hasNestedContent],
    [getParentColumn], [getParentIndentationLevel]) and the three phases of
    [updateDecorations] that compute the structural columns, the guide
    ranges per column and the active block under the cursor.

    Conventions.
    - A JavaScript string is the list of its UTF-16 code units, each an [N].
    - Line numbers and columns are [Z]: the source uses [-1] as a sentinel
      and the cursor line is an arbitrary integer.
    - [document.lineAt] raises outside the document; the embedding returns
      [None] there and threads the failure through the option monad, so
      that "never fails" is a statement to prove and not a convention.
    - A [for] loop that counts up to a bound is a [Fixpoint] on the number
      of iterations that are left, carrying the loop index alongside. *)

From Stdlib Require Import ZArith NArith Lia String Ascii List.
From stdpp Require Import base option list gmap sorting pretty.

Local Open Scope Z_scope.

(** ** JavaScript strings *)

Module JsString.

Definition of_string (s : string) : list N :=
  List.map N_of_ascii (list_ascii_of_string s).

Definition SPACE : N := 32.
Definition TAB : N := 9.
Definition DASH : N := 45.

(** [s[i]]: [undefined] (here [None]) outside the string. *)
Definition charAt (s : list N) (i : Z) : option N :=
  if 0 <=? i then s !! Z.to_nat i else None.

(** [s[i] === c] *)
Definition charIs (s : list N) (i : Z) (c : N) : bool :=
  match charAt s i with
  | Some d => N.eqb d c
  | None => false
  end.

(** The code units removed by [String.prototype.trim]: ECMAScript's
    WhiteSpace and LineTerminator productions. *)
Definition isWhiteSpace (c : N) : bool :=
  ((9 <=? c) && (c <=? 13) || (c =? 32) || (c =? 160) || (c =? 5760)
   || (8192 <=? c) && (c <=? 8202) || (c =? 8232) || (c =? 8233)
   || (c =? 8239) || (c =? 8287) || (c =? 12288) || (c =? 65279))%N.

Fixpoint trimStart (s : list N) : list N :=
  match s with
  | c :: s' => if isWhiteSpace c then trimStart s' else s
  | [] => []
  end.

Definition trimEnd (s : list N) : list N := rev (trimStart (rev s)).

Definition trim (s : list N) : list N := trimEnd (trimStart s).

End JsString.

Import JsString.

Abbreviation js := JsString.of_string.

(** [text.trim().length === 0] *)
Definition isBlank (text : list N) : bool :=
  Z.of_nat (length (trim text)) =? 0.

(** ** Indentation model *)

(** The loop of [getEffectiveIndentColumn]; [n] iterations are left, [i] is
    the loop index and [indent] the accumulator.  Both [break]s leave the
    loop with the accumulator as it is. *)
Fixpoint effectiveIndentLoop (line : list N) (n : nat) (i indent : Z) : Z :=
  match n with
  | O => indent
  | S n' =>
      if charIs line i SPACE then
        effectiveIndentLoop line n' (i + 1) (indent + 1)
      else if charIs line i TAB then
        effectiveIndentLoop line n' (i + 1) (indent + 4)
      else if charIs line i DASH
              && (i + 1 <? Z.of_nat (length line))
              && charIs line (i + 1) SPACE then
        indent
      else
        indent
  end.

Definition getEffectiveIndentColumn (line : list N) : Z :=
  effectiveIndentLoop line (length line) 0 0.

(** [Math.floor(effectiveIndent / 2)]; the column is a non-negative
    integer, on which the floor of the quotient is [Z.div]. *)
Definition getIndentationLevel (line : list N) : Z :=
  getEffectiveIndentColumn line / 2.

Definition getIndentationColumn (level : Z) : Z := level * 2.

(** The indentation model as the specification words it: scan the leading
    characters, a space counts 1, a tab counts 4, a dash followed by a space
    stops the scan and is not counted, any other character stops the scan. *)
Fixpoint effectiveColumnSpec (line : list N) : Z :=
  match line with
  | [] => 0
  | c :: rest =>
      if N.eqb c SPACE then 1 + effectiveColumnSpec rest
      else if N.eqb c TAB then 4 + effectiveColumnSpec rest
      else match rest with
           | d :: _ => if N.eqb c DASH && N.eqb d SPACE then 0 else 0
           | [] => 0
           end
  end.

(** ** Documents *)

Definition lineCount (doc : list (list N)) : Z := Z.of_nat (length doc).

(** [document.lineAt(i).text]; the host raises outside [0 .. lineCount-1]. *)
Definition lineAt (doc : list (list N)) (i : Z) : option (list N) :=
  if (0 <=? i) && (i <? lineCount doc) then doc !! Z.to_nat i else None.

(** ** Hierarchy walker *)

(** The forward scan of [hasNestedContent], from line [i] on. *)
Fixpoint hasNestedLoop (doc : list (list N)) (currentIndent : Z)
    (n : nat) (i : Z) : option bool :=
  match n with
  | O => Some false
  | S n' =>
      nextLine ← lineAt doc i;
      if isBlank nextLine then hasNestedLoop doc currentIndent n' (i + 1)
      else
        let nextIndent := getEffectiveIndentColumn nextLine in
        if currentIndent <? nextIndent then Some true
        else if nextIndent <=? currentIndent then Some false
        else hasNestedLoop doc currentIndent n' (i + 1)
  end.

Definition hasNestedContent (doc : list (list N)) (lineNumber : Z)
    : option bool :=
  if lineCount doc - 1 <=? lineNumber then Some false
  else
    currentLine ← lineAt doc lineNumber;
    if isBlank currentLine then Some false
    else
      let currentIndent := getEffectiveIndentColumn currentLine in
      hasNestedLoop doc currentIndent
        (Z.to_nat (lineCount doc - (lineNumber + 1))) (lineNumber + 1).

(** The backward scan of [getParentColumn], from line [i] down to 0. *)
Fixpoint parentColumnLoop (doc : list (list N)) (currentIndent : Z)
    (n : nat) (i : Z) : option Z :=
  match n with
  | O => Some (-1)
  | S n' =>
      prevLine ← lineAt doc i;
      if isBlank prevLine then parentColumnLoop doc currentIndent n' (i - 1)
      else
        let prevIndent := getEffectiveIndentColumn prevLine in
        if prevIndent <? currentIndent then Some prevIndent
        else parentColumnLoop doc currentIndent n' (i - 1)
  end.

Definition getParentColumn (doc : list (list N)) (lineNumber : Z)
    : option Z :=
  if lineNumber <=? 0 then Some (-1)
  else
    currentLine ← lineAt doc lineNumber;
    let currentIndent := getEffectiveIndentColumn currentLine in
    if currentIndent =? 0 then Some (-1)
    else
      parentColumnLoop doc currentIndent (Z.to_nat lineNumber)
        (lineNumber - 1).

Definition getParentIndentationLevel (doc : list (list N)) (lineNumber : Z)
    : option Z :=
  parentCol ← getParentColumn doc lineNumber;
  if parentCol <? 0 then Some (-1) else Some (parentCol / 2).

(** ** Column collector *)

(** The two sets [addAncestorColumns] closes over and mutates. *)
Record CollectorState := mkCollectorState {
  indentColumns : gset Z;
  processedLines : gset Z
}.

(** The inner loop of [addAncestorColumns]: the nearest non-blank line at
    or before [j] whose column is [parentCol], if there is one. *)
Fixpoint findLineAtColumn (doc : list (list N)) (parentCol : Z)
    (n : nat) (j : Z) : option (option Z) :=
  match n with
  | O => Some None
  | S n' =>
      checkLine ← lineAt doc j;
      if isBlank checkLine then findLineAtColumn doc parentCol n' (j - 1)
      else
        let checkIndent := getEffectiveIndentColumn checkLine in
        if checkIndent =? parentCol then Some (Some j)
        else findLineAtColumn doc parentCol n' (j - 1)
  end.

(** [addAncestorColumns]; [depth] bounds the nesting of the recursive
    calls, and running out of it is a failure ([None]). *)
Fixpoint addAncestorColumns (doc : list (list N)) (depth : nat)
    (lineNum : Z) (st : CollectorState) : option CollectorState :=
  match depth with
  | O => None
  | S depth' =>
      if decide (lineNum ∈ processedLines st) then Some st
      else
        let st1 :=
          mkCollectorState (indentColumns st)
            ({[lineNum]} ∪ processedLines st) in
        parentCol ← getParentColumn doc lineNum;
        if 0 <=? parentCol then
          let st2 :=
            mkCollectorState ({[parentCol]} ∪ indentColumns st1)
              (processedLines st1) in
          found ← findLineAtColumn doc parentCol (Z.to_nat lineNum)
                    (lineNum - 1);
          match found with
          | Some j => addAncestorColumns doc depth' j st2
          | None => Some st2
          end
        else Some st1
  end.

Fixpoint collectLoop (doc : list (list N)) (n : nat) (i : Z)
    (st : CollectorState) : option CollectorState :=
  match n with
  | O => Some st
  | S n' =>
      line ← lineAt doc i;
      if isBlank line then collectLoop doc n' (i + 1) st
      else
        st' ← addAncestorColumns doc (S (Z.to_nat i)) i st;
        collectLoop doc n' (i + 1) st'
  end.

(** The structural columns: the collector's set with column 0 added. *)
Definition collectIndentColumns (doc : list (list N)) : option (gset Z) :=
  st ← collectLoop doc (length doc) 0 (mkCollectorState ∅ ∅);
  Some ({[0]} ∪ indentColumns st).

(** ** Range builder *)

(** The host's [Range(startLine, startCharacter, endLine, endCharacter)]. *)
Record Range := mkRange {
  startLine : Z;
  startCharacter : Z;
  endLine : Z;
  endCharacter : Z
}.

(** The scan for the end of the block headed by the line before [j]. *)
Fixpoint blockEndLoop (doc : list (list N)) (col : Z)
    (n : nat) (j blockEnd : Z) : option Z :=
  match n with
  | O => Some blockEnd
  | S n' =>
      childLine ← lineAt doc j;
      if isBlank childLine then blockEndLoop doc col n' (j + 1) j
      else
        let childIndent := getEffectiveIndentColumn childLine in
        if childIndent <=? col then Some blockEnd
        else blockEndLoop doc col n' (j + 1) j
  end.

(** The scan as [updateDecorations] starts it for the block head [i]. *)
Definition blockEndOf (doc : list (list N)) (col i : Z) : option Z :=
  blockEndLoop doc col (Z.to_nat (lineCount doc - (i + 1))) (i + 1) i.

(** [for (k = ...; k <= blockEnd; k++) ranges.push(...)] *)
Fixpoint pushRanges (col spacesPerIndent : Z) (n : nat) (k : Z)
    (ranges : list Range) : list Range :=
  match n with
  | O => ranges
  | S n' =>
      pushRanges col spacesPerIndent n' (k + 1)
        (ranges ++ [mkRange k col k (col + spacesPerIndent)])
  end.

(** The scan over all lines for one column [col]. *)
Fixpoint columnRangesLoop (doc : list (list N)) (col spacesPerIndent : Z)
    (n : nat) (i : Z) (ranges : list Range) : option (list Range) :=
  match n with
  | O => Some ranges
  | S n' =>
      line ← lineAt doc i;
      if isBlank line then
        columnRangesLoop doc col spacesPerIndent n' (i + 1) ranges
      else
        let effectiveIndent := getEffectiveIndentColumn line in
        if effectiveIndent =? col then
          blockEnd ← blockEndOf doc col i;
          columnRangesLoop doc col spacesPerIndent n' (i + 1)
            (pushRanges col spacesPerIndent (Z.to_nat (blockEnd + 1 - (i + 1)))
               (i + 1) ranges)
        else columnRangesLoop doc col spacesPerIndent n' (i + 1) ranges
  end.

Definition rangesForColumn (doc : list (list N)) (col spacesPerIndent : Z)
    : option (list Range) :=
  columnRangesLoop doc col spacesPerIndent (length doc) 0 [].

(** The loop over the sorted columns, filling the [columnRanges] map. *)
Fixpoint buildColumnRanges (doc : list (list N)) (spacesPerIndent : Z)
    (sortedCols : list Z) (columnRanges : gmap Z (list Range))
    : option (gmap Z (list Range)) :=
  match sortedCols with
  | [] => Some columnRanges
  | col :: rest =>
      ranges ← rangesForColumn doc col spacesPerIndent;
      if 0 <? Z.of_nat (length ranges) then
        buildColumnRanges doc spacesPerIndent rest
          (<[col := ranges]> columnRanges)
      else buildColumnRanges doc spacesPerIndent rest columnRanges
  end.

(** ** Active block resolver *)

Fixpoint activeForwardLoop (doc : list (list N)) (activeIndentColumn : Z)
    (n : nat) (i activeBlockEnd : Z) : option Z :=
  match n with
  | O => Some activeBlockEnd
  | S n' =>
      line ← lineAt doc i;
      if isBlank line then
        activeForwardLoop doc activeIndentColumn n' (i + 1) activeBlockEnd
      else if activeIndentColumn <? getEffectiveIndentColumn line then
        activeForwardLoop doc activeIndentColumn n' (i + 1) i
      else Some activeBlockEnd
  end.

Fixpoint activeBackwardLoop (doc : list (list N)) (activeIndentColumn : Z)
    (n : nat) (i activeBlockStart : Z) : option Z :=
  match n with
  | O => Some activeBlockStart
  | S n' =>
      line ← lineAt doc i;
      if isBlank line then
        activeBackwardLoop doc activeIndentColumn n' (i - 1) activeBlockStart
      else if activeIndentColumn <? getEffectiveIndentColumn line then
        activeBackwardLoop doc activeIndentColumn n' (i - 1) i
      else Some activeBlockStart
  end.

Record ActiveBlock := mkActiveBlock {
  activeIndentColumn : Z;
  activeBlockStart : Z;
  activeBlockEnd : Z
}.

Definition noActiveBlock : ActiveBlock := mkActiveBlock (-1) (-1) (-1).

(** The column the cursor selects: the cursor line's own level when it is
    a parent line, its parent's level otherwise, [-1] at the root. *)
Definition chooseActiveColumn (doc : list (list N)) (currentCursorLine : Z)
    (cursorText : list N) (isParentLine : bool) : option Z :=
  let currentLineLevel := getIndentationLevel cursorText in
  if isParentLine then Some (getIndentationColumn currentLineLevel)
  else
    parentLevel ← getParentIndentationLevel doc currentCursorLine;
    if 0 <=? parentLevel then Some (getIndentationColumn parentLevel)
    else Some (-1).

Definition resolveActiveBlock (doc : list (list N)) (currentCursorLine : Z)
    : option ActiveBlock :=
  if (0 <=? currentCursorLine) && (currentCursorLine <? lineCount doc) then
    cursorText ← lineAt doc currentCursorLine;
    if 0 <? Z.of_nat (length (trim cursorText)) then
      isParentLine ← hasNestedContent doc currentCursorLine;
      col ← chooseActiveColumn doc currentCursorLine cursorText isParentLine;
      if 0 <=? col then
        if (isParentLine : bool) then
          blockEnd ← activeForwardLoop doc col
                       (Z.to_nat (lineCount doc - (currentCursorLine + 1)))
                       (currentCursorLine + 1) currentCursorLine;
          Some (mkActiveBlock col (currentCursorLine + 1) blockEnd)
        else
          blockStart ← activeBackwardLoop doc col
                         (Z.to_nat currentCursorLine)
                         (currentCursorLine - 1) currentCursorLine;
          blockEnd ← activeForwardLoop doc col
                       (Z.to_nat (lineCount doc - (currentCursorLine + 1)))
                       (currentCursorLine + 1) currentCursorLine;
          Some (mkActiveBlock col blockStart blockEnd)
      else Some (mkActiveBlock col (-1) (-1))
    else Some noActiveBlock
  else Some noActiveBlock.

(** ** The structural result of [updateDecorations] *)

Record Guides := mkGuides {
  columnRanges : gmap Z (list Range);
  activeBlock : ActiveBlock
}.

(** [updateDecorations] up to the point where it hands the ranges to the
    editor: the column collector, the range builder over the columns in
    ascending order, and the active block resolver. *)
Definition updateDecorations (doc : list (list N))
    (currentCursorLine spacesPerIndent : Z) : option Guides :=
  cols ← collectIndentColumns doc;
  let sortedCols := merge_sort Z.le (elements cols) in
  ranges ← buildColumnRanges doc spacesPerIndent sortedCols ∅;
  active ← resolveActiveBlock doc currentCursorLine;
  Some (mkGuides ranges active).

Definition rangeLines (ranges : list Range) : list Z :=
  List.map startLine ranges.

(** ** Vocabulary for the statements *)

(** Line [k] exists and is blank. *)
Definition blankLine (doc : list (list N)) (k : Z) : Prop :=
  ∃ t, lineAt doc k = Some t ∧ isBlank t = true.

(** Line [k] exists, is not blank, and its effective column is [c]. *)
Definition contentLine (doc : list (list N)) (k c : Z) : Prop :=
  ∃ t, lineAt doc k = Some t ∧ isBlank t = false
       ∧ getEffectiveIndentColumn t = c.

(** Line [k] continues a block at column [c]: it exists and is blank or
    strictly deeper than [c]. *)
Definition absorbed (doc : list (list N)) (c k : Z) : Prop :=
  ∃ t, lineAt doc k = Some t
       ∧ (isBlank t = true ∨ c < getEffectiveIndentColumn t).

(** Line [k] ends a block at column [c]: it exists, is not blank, and is
    at column [c] or shallower. *)
Definition stopper (doc : list (list N)) (c k : Z) : Prop :=
  ∃ t, lineAt doc k = Some t ∧ isBlank t = false
       ∧ getEffectiveIndentColumn t ≤ c.

(** [j] is the first non-blank line after line [i]. *)
Definition nextContentLine (doc : list (list N)) (i j : Z) : Prop :=
  i < j ∧ (∃ c, contentLine doc j c) ∧ ∀ k, i < k < j → blankLine doc k.

(** Line [i] has a child: the first non-blank line after it is strictly
    deeper. *)
Definition hasChild (doc : list (list N)) (i : Z) : Prop :=
  ∃ c j d, contentLine doc i c ∧ nextContentLine doc i j
           ∧ contentLine doc j d ∧ c < d.

(** Line [j] precedes line [i], is not blank and is strictly shallower. *)
Definition shallowerBefore (doc : list (list N)) (i j : Z) : Prop :=
  j < i ∧ ∃ t tj, lineAt doc i = Some t ∧ lineAt doc j = Some tj
                  ∧ isBlank tj = false
                  ∧ getEffectiveIndentColumn tj < getEffectiveIndentColumn t.

(** [j] is the nearest such line. *)
Definition nearestShallower (doc : list (list N)) (i j : Z) : Prop :=
  shallowerBefore doc i j ∧ ∀ k, shallowerBefore doc i k → k ≤ j.

(** The column the active column is derived from, before the round trip
    through the indentation level: the cursor line's own column when it is
    a parent line, its parent column otherwise. *)
Definition unroundedActiveColumn (doc : list (list N)) (cursor : Z)
    : option Z :=
  cursorText ← lineAt doc cursor;
  isParentLine ← hasNestedContent doc cursor;
  if (isParentLine : bool) then Some (getEffectiveIndentColumn cursorText)
  else getParentColumn doc cursor.

(** The block headed by the non-blank line [h] at column [col] reaches
    line [l]: every line after [h] up to [l] continues the block. *)
Definition blockCovers (doc : list (list N)) (col h l : Z) : Prop :=
  contentLine doc h col ∧ h < l ∧ ∀ k, h < k ≤ l → absorbed doc col k.

(** The guide range the builder emits for line [k] at column [col]. *)
Definition guideRange (col spacesPerIndent k : Z) : Range :=
  mkRange k col k (col + spacesPerIndent).

(** Line [k] carries a guide range in [ranges]. *)
Definition coversLine (ranges : list Range) (k : Z) : Prop :=
  k ∈ rangeLines ranges.

(** The active span of [g] lies within the guide ranges of its column. *)
Definition activeSpanCovered (g : Guides) : Prop :=
  ∃ ranges,
    columnRanges g !! activeIndentColumn (activeBlock g) = Some ranges
    ∧ ∀ k, activeBlockStart (activeBlock g) ≤ k
           ≤ activeBlockEnd (activeBlock g) →
           coversLine ranges k.

(** What the collector maintains: the parent column of every processed
    line is among the collected columns. *)
Definition collected (doc : list (list N)) (st : CollectorState) : Prop :=
  ∀ l p, l ∈ processedLines st → getParentColumn doc l = Some p → 0 ≤ p →
         p ∈ indentColumns st.

(** The collector only ever adds to its two sets. *)
Definition extends (st st' : CollectorState) : Prop :=
  indentColumns st ⊆ indentColumns st'
  ∧ processedLines st ⊆ processedLines st'.

(** [p] is the parent column of some non-blank line of the document. *)
Definition isParentColumn (doc : list (list N)) (p : Z) : Prop :=
  0 ≤ p ∧ ∃ l c, contentLine doc l c ∧ getParentColumn doc l = Some p.

(** Every collected column is the parent column of a non-blank line. *)
Definition onlyParentColumns (doc : list (list N)) (st : CollectorState)
    : Prop :=
  ∀ p, p ∈ indentColumns st → isParentColumn doc p.

(** [j] is the first non-blank line after line [e], and it ends a block at
    column [c]; or only blank lines follow line [e]. *)
Definition closedBelow (doc : list (list N)) (c e : Z) : Prop :=
  (∃ j, e < j ∧ stopper doc c j ∧ ∀ k, e < k < j → blankLine doc k)
  ∨ (∀ k, e < k < lineCount doc → blankLine doc k).

(** [j] is the last non-blank line before line [s], and it ends a block at
    column [c]; or only blank lines precede line [s]. *)
Definition closedAbove (doc : list (list N)) (c s : Z) : Prop :=
  (∃ j, j < s ∧ stopper doc c j ∧ ∀ k, j < k < s → blankLine doc k)
  ∨ (∀ k, 0 ≤ k < s → blankLine doc k).

(** ** Colours *)

Module JsNumber.

(** The value of a radix-16 digit: [0-9], [a-f], [A-F]. *)
Definition hexDigit (c : N) : option Z :=
  if ((48 <=? c) && (c <=? 57))%N then Some (Z.of_N c - 48)
  else if ((97 <=? c) && (c <=? 102))%N then Some (Z.of_N c - 87)
  else if ((65 <=? c) && (c <=? 70))%N then Some (Z.of_N c - 55)
  else None.

(** The longest prefix of radix-16 digits read as a number, on top of the
    digits read so far; [None] while no digit has been read. *)
Fixpoint hexPrefix (s : list N) (acc : option Z) : option Z :=
  match s with
  | c :: s' =>
      match hexDigit c with
      | Some d => hexPrefix s' (Some (16 * default 0 acc + d))
      | None => acc
      end
  | [] => acc
  end.

(** [parseInt(s, 16)]; [None] is [NaN].  Leading white space is dropped,
    then an optional sign, then an optional [0x] or [0X]; the digits that
    follow are read up to the first character that is not one.  The
    result is exact as long as it stays below 2^53, which it does on the
    two-character slices [hexToRgba] passes. *)
Definition parseInt16 (s : list N) : option Z :=
  let s1 := trimStart s in
  let sign :=
    match s1 with
    | c :: _ => if N.eqb c 45 then -1 else 1
    | [] => 1
    end in
  let s2 :=
    match s1 with
    | c :: rest => if N.eqb c 45 || N.eqb c 43 then rest else s1
    | [] => s1
    end in
  let s3 :=
    match s2 with
    | c :: d :: rest =>
        if N.eqb c 48 && (N.eqb d 120 || N.eqb d 88) then rest else s2
    | _ => s2
    end in
  Z.mul sign <$> hexPrefix s3 None.

(** A number as a template literal prints it. *)
Definition toString (x : option Z) : list N :=
  match x with
  | Some z => js (pretty z)
  | None => js "NaN"
  end.

End JsNumber.

Import JsNumber.

(** [s.slice(a, b)] for [0 <= a <= b]. *)
Definition slice (s : list N) (a b : nat) : list N := take (b - a) (drop a s).

(** The three numbers [hexToRgba] parses out of [hex]. *)
Definition hexComponents (hex : list N)
    : option Z * option Z * option Z :=
  (parseInt16 (slice hex 1 3), parseInt16 (slice hex 3 5),
   parseInt16 (slice hex 5 7)).

(** [hexToRgba]; [alpha] is the opacity as the template literal prints
    it. *)
Definition hexToRgba (hex alpha : list N) : list N :=
  let '(r, g, b) := hexComponents hex in
  js "rgba(" ++ toString r ++ js ", " ++ toString g ++ js ", "
  ++ toString b ++ js ", " ++ alpha ++ js ")".

(** [color.startsWith('#')] *)
Definition startsWithHash (color : list N) : bool :=
  match color with
  | c :: _ => N.eqb c 35
  | [] => false
  end.

(** [colors[(col / 2) % colors.length]]: the division is exact only for an
    even [col], the remainder takes the sign of the dividend and is [NaN]
    for an empty array, and an index that is not an integer inside the
    array reads [undefined], here [None]. *)
Definition colorFor (colors : list (list N)) (col : Z)
    : option (list N) :=
  let len := Z.of_nat (length colors) in
  if Z.even col && (0 <? len) then
    let colorIndex := Z.rem (col / 2) len in
    if 0 <=? colorIndex then colors !! Z.to_nat colorIndex else None
  else None.

(** ** The host editor, as far as the extension observes it *)

(** A decoration type: the host's handle, and the background it was
    created with. *)
Record Decoration := mkDecoration {
  decorationKey : nat;
  backgroundColor : list N
}.

(** The host: the key of the next decoration type, and the ranges set on
    the active editor per decoration type. *)
Record Host := mkHost {
  nextKey : nat;
  shown : gmap nat (list Range)
}.

Definition createTextEditorDecorationType (background : list N) (h : Host)
    : Decoration * Host :=
  (mkDecoration (nextKey h) background, mkHost (S (nextKey h)) (shown h)).

(** [setDecorations] replaces the ranges of the decoration type. *)
Definition setDecorations (d : Decoration) (ranges : list Range) (h : Host)
    : Host :=
  mkHost (nextKey h) (<[decorationKey d := ranges]> (shown h)).

(** [dispose] removes the decoration type from the editor. *)
Definition dispose (d : Decoration) (h : Host) : Host :=
  mkHost (nextKey h) (delete (decorationKey d) (shown h)).

(** The ranges the editor shows for a decoration type. *)
Definition shownFor (h : Host) (d : Decoration) : list Range :=
  default [] (shown h !! decorationKey d).

(** [createDecorationType]; an [undefined] colour raises at
    [color.startsWith], here [None]. *)
Definition createDecorationType (color : option (list N)) (isActive : bool)
    (activeOpacity inactiveOpacity : list N) (h : Host)
    : option (Decoration * Host) :=
  let alpha := if isActive then activeOpacity else inactiveOpacity in
  match color with
  | None => None
  | Some color =>
      let rgbaColor :=
        if startsWithHash color then hexToRgba color alpha else color in
      Some (createTextEditorDecorationType rgbaColor h)
  end.

(** ** The extension's state *)

(** A JavaScript [Map] with numeric keys: the entries in insertion
    order. *)
Definition mapHas {V : Type} (m : list (Z * V)) (k : Z) : bool :=
  existsb (λ kv, fst kv =? k) m.

Fixpoint mapGet {V : Type} (m : list (Z * V)) (k : Z) : option V :=
  match m with
  | [] => None
  | (k', v) :: rest => if k' =? k then Some v else mapGet rest k
  end.

Fixpoint mapSet {V : Type} (m : list (Z * V)) (k : Z) (v : V)
    : list (Z * V) :=
  match m with
  | [] => [(k, v)]
  | (k', v') :: rest =>
      if k' =? k then (k', v) :: rest else (k', v') :: mapSet rest k v
  end.

(** The settings [updateDecorations] reads; an opacity is only ever
    printed, and is carried in its printed form. *)
Record Config := mkConfig {
  cfgEnabled : bool;
  cfgColors : list (list N);
  cfgInactiveOpacity : list N;
  cfgActiveOpacity : list N;
  cfgSpacesPerIndent : Z
}.

(** What [JSON.stringify] is applied to for [configHash]; two
    configurations with finite opacities have the same hash exactly when
    these four settings agree. *)
Definition configHash (cfg : Config)
    : list (list N) * list N * list N * Z :=
  (cfgColors cfg, cfgInactiveOpacity cfg, cfgActiveOpacity cfg,
   cfgSpacesPerIndent cfg).

(** The variables [activate] closes over; [lastColorsHash] is [None] for
    the initial empty string. *)
Record Extension := mkExtension {
  inactiveDecorationsByCol : list (Z * Decoration);
  activeDecorationsByCol : list (Z * Decoration);
  lastColorsHash : option (list (list N) * list N * list N * Z);
  host : Host
}.

(** What the extension sees of the active editor. *)
Record TextEditor := mkTextEditor {
  document : list (list N);
  languageId : list N;
  selectionActiveLine : Z
}.

(** A call either completes or raises; the state is kept in both cases. *)
Inductive Outcome :=
  | Done (ext : Extension)
  | Threw (ext : Extension).

Definition finalState (o : Outcome) : Extension :=
  match o with
  | Done ext => ext
  | Threw ext => ext
  end.

Fixpoint setAll (ranges : list Range) (cache : list (Z * Decoration))
    (h : Host) : Host :=
  match cache with
  | [] => h
  | (_, d) :: rest => setAll ranges rest (setDecorations d ranges h)
  end.

Fixpoint disposeAll (cache : list (Z * Decoration)) (h : Host) : Host :=
  match cache with
  | [] => h
  | (_, d) :: rest => disposeAll rest (dispose d h)
  end.

Definition disposeAllDecorations (ext : Extension) : Extension :=
  mkExtension [] []
    (lastColorsHash ext)
    (disposeAll (activeDecorationsByCol ext)
       (disposeAll (inactiveDecorationsByCol ext) (host ext))).

Definition clearAllDecorations (hasEditor : bool) (ext : Extension)
    : Extension :=
  if hasEditor then
    mkExtension (inactiveDecorationsByCol ext) (activeDecorationsByCol ext)
      (lastColorsHash ext)
      (setAll [] (activeDecorationsByCol ext)
         (setAll [] (inactiveDecorationsByCol ext) (host ext)))
  else ext.

(** ** The decoration stage of [updateDecorations] *)

(** The test that sends a range to the active decoration. *)
Definition isActiveRange (ab : ActiveBlock) (col : Z) (range : Range)
    : bool :=
  (col =? activeIndentColumn ab)
  && (activeBlockStart ab <=? startLine range)
  && (startLine range <=? activeBlockEnd ab).

(** [ranges.forEach] with its two [push]es. *)
Fixpoint splitRanges (ab : ActiveBlock) (col : Z) (ranges : list Range)
    (inactiveRanges activeRanges : list Range)
    : list Range * list Range :=
  match ranges with
  | [] => (inactiveRanges, activeRanges)
  | range :: rest =>
      if isActiveRange ab col range then
        splitRanges ab col rest inactiveRanges (activeRanges ++ [range])
      else
        splitRanges ab col rest (inactiveRanges ++ [range]) activeRanges
  end.

(** "Get or create inactive decoration for this column". *)
Definition ensureInactive (cfg : Config) (col : Z)
    (color : option (list N)) (ext : Extension) : Outcome :=
  if mapHas (inactiveDecorationsByCol ext) col then Done ext
  else
    match createDecorationType color false (cfgActiveOpacity cfg)
            (cfgInactiveOpacity cfg) (host ext) with
    | None => Threw ext
    | Some (d, h) =>
        Done (mkExtension (mapSet (inactiveDecorationsByCol ext) col d)
                (activeDecorationsByCol ext) (lastColorsHash ext) h)
    end.

(** "Get or create active decoration for this column". *)
Definition ensureActive (cfg : Config) (col : Z)
    (color : option (list N)) (ext : Extension) : Outcome :=
  if mapHas (activeDecorationsByCol ext) col then Done ext
  else
    match createDecorationType color true (cfgActiveOpacity cfg)
            (cfgInactiveOpacity cfg) (host ext) with
    | None => Threw ext
    | Some (d, h) =>
        Done (mkExtension (inactiveDecorationsByCol ext)
                (mapSet (activeDecorationsByCol ext) col d)
                (lastColorsHash ext) h)
    end.

(** The body of [sortedColumns.forEach].  The three [!] assertions are
    on entries that are present at that point; a missing one is modelled
    as raising. *)
Definition decorateColumn (cfg : Config) (g : Guides) (col : Z)
    (ext : Extension) : Outcome :=
  let color := colorFor (cfgColors cfg) col in
  match ensureInactive cfg col color ext with
  | Threw e => Threw e
  | Done ext1 =>
      match ensureActive cfg col color ext1 with
      | Threw e => Threw e
      | Done ext2 =>
          match mapGet (inactiveDecorationsByCol ext2) col,
                mapGet (activeDecorationsByCol ext2) col,
                columnRanges g !! col with
          | Some inactiveDecoration, Some activeDecoration, Some ranges =>
              let '(inactiveRanges, activeRanges) :=
                splitRanges (activeBlock g) col ranges [] [] in
              Done (mkExtension (inactiveDecorationsByCol ext2)
                      (activeDecorationsByCol ext2) (lastColorsHash ext2)
                      (setDecorations activeDecoration activeRanges
                         (setDecorations inactiveDecoration inactiveRanges
                            (host ext2))))
          | _, _, _ => Threw ext2
          end
      end
  end.

Fixpoint forEachColumn (cfg : Config) (g : Guides) (cols : list Z)
    (ext : Extension) : Outcome :=
  match cols with
  | [] => Done ext
  | col :: rest =>
      match decorateColumn cfg g col ext with
      | Threw e => Threw e
      | Done ext' => forEachColumn cfg g rest ext'
      end
  end.

(** "Clear decorations for columns that no longer have ranges". *)
Fixpoint clearStale (g : Guides) (cache : list (Z * Decoration))
    (h : Host) : Host :=
  match cache with
  | [] => h
  | (col, d) :: rest =>
      match columnRanges g !! col with
      | Some _ => clearStale g rest h
      | None => clearStale g rest (setDecorations d [] h)
      end
  end.

Definition sortedColumns (g : Guides) : list Z :=
  merge_sort Z.le (elements (dom (columnRanges g))).

Definition applyDecorations (cfg : Config) (g : Guides) (ext : Extension)
    : Outcome :=
  match forEachColumn cfg g (sortedColumns g) ext with
  | Threw e => Threw e
  | Done ext1 =>
      Done (mkExtension (inactiveDecorationsByCol ext1)
              (activeDecorationsByCol ext1) (lastColorsHash ext1)
              (clearStale g (activeDecorationsByCol ext1)
                 (clearStale g (inactiveDecorationsByCol ext1)
                    (host ext1))))
  end.

(** "Only recreate decoration types if colors or opacity changed". *)
Definition checkConfig (cfg : Config) (ext : Extension) : Extension :=
  if bool_decide (lastColorsHash ext = Some (configHash cfg)) then ext
  else
    let ext0 := disposeAllDecorations ext in
    mkExtension (inactiveDecorationsByCol ext0) (activeDecorationsByCol ext0)
      (Some (configHash cfg)) (host ext0).

(** [updateDecorations] in full: the gates, the disposal on a changed
    configuration, the structural computation and the decoration stage. *)
Definition runUpdateDecorations (cfg : Config)
    (activeEditor : option TextEditor) (ext : Extension) : Outcome :=
  match activeEditor with
  | None => Done ext
  | Some ed =>
      if negb (cfgEnabled cfg) then Done (clearAllDecorations true ext)
      else if negb (bool_decide (languageId ed = js "yaml")) then
        Done (clearAllDecorations true ext)
      else
        let ext1 := checkConfig cfg ext in
        match updateDecorations (document ed) (selectionActiveLine ed)
                (cfgSpacesPerIndent cfg) with
        | None => Threw ext1
        | Some g => applyDecorations cfg g ext1
        end
  end.

(** The [onDidChangeConfiguration] listener, before it schedules the
    update: "Force recreation of decorations". *)
Definition onDidChangeConfiguration (ext : Extension) : Extension :=
  mkExtension (inactiveDecorationsByCol ext) (activeDecorationsByCol ext)
    None (host ext).

(** The state [activate] starts from. *)
Definition initialExtension : Extension :=
  mkExtension [] [] None (mkHost 0 ∅).

Definition defaultConfig : Config :=
  mkConfig true
    [js "#ff0000"; js "#ff8000"; js "#ffff00"; js "#00ff00"; js "#0080ff";
     js "#8000ff"]
    (js "0.08") (js "0.4") 1.

(** ** Vocabulary for the decoration stage *)

(** The decoration cached for column [col]: the active one when [isActive],
    the inactive one otherwise. *)
Definition cached (ext : Extension) (isActive : bool) (col : Z)
    : option Decoration :=
  mapGet (if isActive then activeDecorationsByCol ext
          else inactiveDecorationsByCol ext) col.

(** The two caches are maps (no key twice), hold pairwise distinct
    decoration types, and every one of them was created by the host. *)
Definition wellFormed (ext : Extension) : Prop :=
  NoDup (fst <$> inactiveDecorationsByCol ext)
  ∧ NoDup (fst <$> activeDecorationsByCol ext)
  ∧ (∀ b b' col col' d d',
       cached ext b col = Some d → cached ext b' col' = Some d' →
       decorationKey d = decorationKey d' → b = b' ∧ col = col')
  ∧ ∀ b col d, cached ext b col = Some d →
               (decorationKey d < nextKey (host ext))%nat.

(** Every column with a cached inactive decoration is even. *)
Definition evenCache (ext : Extension) : Prop :=
  ∀ col, mapHas (inactiveDecorationsByCol ext) col = true →
         Z.even col = true.

(** The background [createDecorationType] gives a colour. *)
Definition backgroundFor (cfg : Config) (isActive : bool)
    (color : list N) : list N :=
  if startsWithHash color then
    hexToRgba color
      (if isActive then cfgActiveOpacity cfg else cfgInactiveOpacity cfg)
  else color.

(** The state after a cache took a freshly created decoration. *)
Definition withDecoration (ext : Extension) (isActive : bool) (col : Z)
    (d : Decoration) (h : Host) : Extension :=
  if isActive then
    mkExtension (inactiveDecorationsByCol ext)
      (mapSet (activeDecorationsByCol ext) col d) (lastColorsHash ext) h
  else
    mkExtension (mapSet (inactiveDecorationsByCol ext) col d)
      (activeDecorationsByCol ext) (lastColorsHash ext) h.

(** A later state keeps every cached decoration and the configuration
    hash, and disposes of no key of the host. *)
Definition grows (ext ext' : Extension) : Prop :=
  (∀ b col d, cached ext b col = Some d → cached ext' b col = Some d)
  ∧ (nextKey (host ext) ≤ nextKey (host ext'))%nat
  ∧ lastColorsHash ext' = lastColorsHash ext.

(** The ranges of [ranges] that go to the active decoration of [col] and
    those that go to the inactive one. *)
Definition activeRangesOf (ab : ActiveBlock) (col : Z)
    (ranges : list Range) : list Range :=
  filter (λ r, isActiveRange ab col r = true) ranges.

Definition inactiveRangesOf (ab : ActiveBlock) (col : Z)
    (ranges : list Range) : list Range :=
  filter (λ r, isActiveRange ab col r = false) ranges.

(** Column [col] is shown as it should be: both of its decorations are
    cached and the editor shows the split of the column's ranges. *)
Definition columnShown (g : Guides) (ext : Extension) (col : Z) : Prop :=
  ∃ di da ranges,
    cached ext false col = Some di ∧ cached ext true col = Some da
    ∧ columnRanges g !! col = Some ranges
    ∧ shown (host ext) !! decorationKey di
      = Some (inactiveRangesOf (activeBlock g) col ranges)
    ∧ shown (host ext) !! decorationKey da
      = Some (activeRangesOf (activeBlock g) col ranges).

(** What every run of the decoration stage keeps, whether it completes
    or raises: the state stays well formed, cached decorations stay
    cached, a decoration cached afterwards was cached before or was
    created in between, and the editor changes only under decorations
    that are cached afterwards. *)
Definition stepsTo (ext e : Extension) : Prop :=
  wellFormed e ∧ grows ext e
  ∧ (∀ b col d, cached e b col = Some d →
                cached ext b col = Some d
                ∨ (nextKey (host ext) ≤ decorationKey d)%nat)
  ∧ ∀ k, (∀ b col d, cached e b col = Some d → decorationKey d ≠ k) →
         shown (host e) !! k = shown (host ext) !! k.

(** ** Sample documents *)

Definition nestedDoc : list (list N) :=
  [js "a:"; js "  b: 1"; js ""; js "  c: 2"].

Definition listDoc : list (list N) :=
  [js "a:"; js "  - x"; js "  - y"; js "d:"].

Definition oddDoc : list (list N) := [js " a:"; js "   b"].

(** * Properties *)

(** ** Strings *)

Section StringFacts.

Lemma charIs_middle (p s : list N) (c d : N) :
  charIs (p ++ c :: s) (Z.of_nat (length p)) d = N.eqb c d.
Proof.
  unfold charIs, charAt.
  destruct (Z.leb_spec 0 (Z.of_nat (length p))) as [_|]; [|lia].
  rewrite Nat2Z.id, lookup_app_r by lia.
  by rewrite Nat.sub_diag.
Qed.

Lemma trimStart_nil_forallb (s : list N) :
  trimStart s = [] ↔ forallb isWhiteSpace s = true.
Proof.
  induction s as [|c s IH]; simpl; [done|].
  destruct (isWhiteSpace c); simpl; [done|].
  split; intros; discriminate.
Qed.

Lemma trimStart_suffix (s : list N) : ∃ p, s = p ++ trimStart s.
Proof.
  induction s as [|c s [p IH]]; simpl; [by exists []|].
  destruct (isWhiteSpace c); [|by exists []].
  exists (c :: p). simpl. by rewrite <- IH.
Qed.

Lemma isBlank_forallb (s : list N) : isBlank s = forallb isWhiteSpace s.
Proof.
  unfold isBlank, trim, trimEnd.
  destruct (forallb isWhiteSpace s) eqn:Hall.
  - apply trimStart_nil_forallb in Hall. rewrite Hall. done.
  - destruct (trimStart s) as [|c r] eqn:Hs.
    + apply trimStart_nil_forallb in Hs. congruence.
    + assert (isWhiteSpace c = false) as Hc.
      { destruct s as [|d s']; [done|]. revert Hs. clear.
        revert d. induction s' as [|e s' IH]; intros d; simpl.
        - destruct (isWhiteSpace d) eqn:?; [done|]. congruence.
        - destruct (isWhiteSpace d) eqn:?; [|congruence].
          intros H. by apply (IH e). }
      destruct (trimStart (rev (c :: r))) as [|x y] eqn:Hr.
      * apply trimStart_nil_forallb in Hr.
        rewrite forallb_forall in Hr.
        rewrite Hr in Hc; [done|]. apply in_rev. rewrite rev_involutive.
        by left.
      * rewrite length_rev. done.
Qed.

Lemma trim_length_pos (s : list N) :
  (0 <? Z.of_nat (length (trim s))) = negb (isBlank s).
Proof.
  unfold isBlank.
  destruct (Z.eqb_spec (Z.of_nat (length (trim s))) 0) as [->|]; [done|].
  simpl. apply Z.ltb_lt. lia.
Qed.

End StringFacts.

(** ** Indentation model *)

Section IndentationModel.

Lemma effectiveIndentLoop_suffix (s p : list N) (indent : Z) :
  effectiveIndentLoop (p ++ s) (length s) (Z.of_nat (length p)) indent
  = indent + effectiveColumnSpec s.
Proof.
  revert p indent.
  induction s as [|c s IH]; intros p indent; simpl; [lia|].
  rewrite !charIs_middle.
  replace (Z.of_nat (length p) + 1) with (Z.of_nat (length (p ++ [c])))
    by (rewrite length_app; simpl; lia).
  replace (p ++ c :: s) with ((p ++ [c]) ++ s) by by rewrite <- app_assoc.
  destruct (N.eqb c SPACE); [rewrite IH; lia|].
  destruct (N.eqb c TAB); [rewrite IH; lia|].
  destruct s as [|d s'].
  - by destruct (_ && _); lia.
  - destruct (N.eqb c DASH && N.eqb d SPACE); destruct (_ && _); lia.
Qed.

Lemma getEffectiveIndentColumn_spec (line : list N) :
  getEffectiveIndentColumn line = effectiveColumnSpec line.
Proof.
  unfold getEffectiveIndentColumn.
  apply (effectiveIndentLoop_suffix line [] 0).
Qed.

Lemma effectiveColumnSpec_nonneg (line : list N) :
  0 ≤ effectiveColumnSpec line.
Proof.
  induction line as [|c s IH]; simpl; [lia|].
  destruct (N.eqb c SPACE); [lia|].
  destruct (N.eqb c TAB); [lia|].
  destruct s; [lia|]. destruct (_ && _); lia.
Qed.

Lemma getEffectiveIndentColumn_nonneg (line : list N) :
  0 ≤ getEffectiveIndentColumn line.
Proof.
  rewrite getEffectiveIndentColumn_spec. apply effectiveColumnSpec_nonneg.
Qed.

Lemma effectiveColumnSpec_spaces (n : nat) (s : list N) :
  effectiveColumnSpec (replicate n SPACE ++ s)
  = Z.of_nat n + effectiveColumnSpec s.
Proof.
  induction n as [|n IH]; [simpl; lia|].
  change (replicate (S n) SPACE ++ s)
    with (SPACE :: (replicate n SPACE ++ s)).
  cbn [effectiveColumnSpec]. rewrite N.eqb_refl, IH. lia.
Qed.

End IndentationModel.

(** ** Documents and the scans over them *)

Section Scans.

Variable doc : list (list N).

Lemma lineAt_is_Some (i : Z) :
  0 ≤ i < lineCount doc → ∃ t, lineAt doc i = Some t.
Proof.
  intros Hi. unfold lineAt, lineCount in *.
  destruct (Z.leb_spec 0 i); [|lia].
  destruct (Z.ltb_spec i (Z.of_nat (length doc))); [|lia]. simpl.
  apply lookup_lt_is_Some. lia.
Qed.

Lemma lineAt_Some_range (i : Z) (t : list N) :
  lineAt doc i = Some t → 0 ≤ i < lineCount doc.
Proof.
  unfold lineAt.
  destruct (Z.leb_spec 0 i); destruct (Z.ltb_spec i (lineCount doc));
    simpl; intros; simplify_eq; lia.
Qed.

Lemma absorbed_not_stopper (c k : Z) :
  absorbed doc c k → stopper doc c k → False.
Proof.
  intros (t & Ht & Ha) (t' & Ht' & Hb & Hc). simplify_eq.
  destruct Ha; [congruence|lia].
Qed.

Lemma absorbed_or_stopper (c k : Z) :
  0 ≤ k < lineCount doc → absorbed doc c k ∨ stopper doc c k.
Proof.
  intros Hk. destruct (lineAt_is_Some k Hk) as [t Ht].
  destruct (isBlank t) eqn:Hb; [left; exists t; auto|].
  destruct (Z.le_gt_cases (getEffectiveIndentColumn t) c).
  - right. by exists t.
  - left. exists t. split; [done|]. right. lia.
Qed.

Lemma absorbed_mono (c c' k : Z) :
  c' ≤ c → absorbed doc c k → absorbed doc c' k.
Proof.
  intros Hc (t & Ht & Ha). exists t. split; [done|].
  destruct Ha; [by left|right; lia].
Qed.

Lemma contentLine_stopper (c c' k : Z) :
  contentLine doc k c → c ≤ c' → stopper doc c' k.
Proof. intros (t & Ht & Hb & He) Hc. exists t. split_and!; [done..|lia]. Qed.

Lemma contentLine_absorbed (c c' k : Z) :
  contentLine doc k c → c' < c → absorbed doc c' k.
Proof. intros (t & Ht & Hb & He) Hc. exists t. split; [done|right; lia]. Qed.

Lemma blankLine_absorbed (c k : Z) : blankLine doc k → absorbed doc c k.
Proof. intros (t & Ht & Hb). exists t. auto. Qed.

Lemma contentLine_fun (k c c' : Z) :
  contentLine doc k c → contentLine doc k c' → c = c'.
Proof. intros (t & Ht & _ & He) (t' & Ht' & _ & He'). by simplify_eq. Qed.

Lemma contentLine_not_blank (k c : Z) :
  contentLine doc k c → blankLine doc k → False.
Proof. intros (t & Ht & Hb & _) (t' & Ht' & Hb'). simplify_eq. congruence. Qed.

(** *** The block-end scan of the range builder *)

Lemma blockEndLoop_spec (col : Z) (n : nat) :
  ∀ j b, 0 ≤ j → j + Z.of_nat n = lineCount doc → b = j - 1 →
  ∃ e, blockEndLoop doc col n j b = Some e
       ∧ j - 1 ≤ e < lineCount doc
       ∧ (∀ k, j ≤ k ≤ e → absorbed doc col k)
       ∧ (e + 1 = lineCount doc ∨ stopper doc col (e + 1)).
Proof.
  induction n as [|n IH]; intros j b Hj Hn ->; simpl.
  - exists (j - 1). split_and!; [done|lia|lia|intros; lia|left; lia].
  - destruct (lineAt_is_Some j) as [t Ht]; [lia|]. rewrite Ht. simpl.
    assert (absorbed doc col j →
      ∃ e, blockEndLoop doc col n (j + 1) j = Some e
           ∧ j - 1 ≤ e < lineCount doc
           ∧ (∀ k, j ≤ k ≤ e → absorbed doc col k)
           ∧ (e + 1 = lineCount doc ∨ stopper doc col (e + 1))) as Hstep.
    { intros Habs.
      destruct (IH (j + 1) j) as (e & He & Hr & Hall & Hend); [lia..|].
      exists e. split_and!; [done|lia|lia| |done].
      intros k Hk. destruct (decide (k = j)) as [->|]; [done|].
      apply Hall. lia. }
    destruct (isBlank t) eqn:Hb.
    { apply Hstep. exists t. auto. }
    destruct (Z.leb_spec (getEffectiveIndentColumn t) col).
    + exists (j - 1). split_and!; [done|lia|lia|intros; lia|].
      right. replace (j - 1 + 1) with j by lia. by exists t.
    + apply Hstep. exists t. auto.
Qed.

(** *** The forward scan of [hasNestedContent] *)

Lemma hasNestedLoop_spec (ci : Z) (n : nat) :
  ∀ i, 0 ≤ i → i + Z.of_nat n = lineCount doc →
  (∃ j t, i ≤ j ∧ lineAt doc j = Some t ∧ isBlank t = false
          ∧ (∀ k, i ≤ k < j → blankLine doc k)
          ∧ hasNestedLoop doc ci n i
            = Some (ci <? getEffectiveIndentColumn t))
  ∨ ((∀ k, i ≤ k < lineCount doc → blankLine doc k)
     ∧ hasNestedLoop doc ci n i = Some false).
Proof.
  induction n as [|n IH]; intros i Hi Hn; simpl.
  - right. split; [intros; lia|done].
  - destruct (lineAt_is_Some i) as [t Ht]; [lia|]. rewrite Ht. simpl.
    destruct (isBlank t) eqn:Hb.
    + destruct (IH (i + 1)) as [(j & t' & Hj & Ht' & Hb' & Hall & Hres)
                               |[Hall Hres]]; [lia..| |].
      * left. exists j, t'. split_and!; [lia|done..| |done].
        intros k Hk. destruct (decide (k = i)) as [->|]; [by exists t|].
        apply Hall. lia.
      * right. split; [|done].
        intros k Hk. destruct (decide (k = i)) as [->|]; [by exists t|].
        apply Hall. lia.
    + left. exists i, t. split_and!; [lia|done..|intros; lia|].
      destruct (Z.ltb_spec ci (getEffectiveIndentColumn t)); [done|].
      destruct (Z.leb_spec (getEffectiveIndentColumn t) ci); [done|lia].
Qed.

(** *** The backward scan of [getParentColumn] *)

Lemma parentColumnLoop_spec (ci : Z) (n : nat) :
  ∀ i, Z.of_nat n = i + 1 → i < lineCount doc →
  (∃ j t, 0 ≤ j ≤ i ∧ lineAt doc j = Some t ∧ isBlank t = false
          ∧ getEffectiveIndentColumn t < ci
          ∧ (∀ k, j < k ≤ i → absorbed doc (ci - 1) k)
          ∧ parentColumnLoop doc ci n i
            = Some (getEffectiveIndentColumn t))
  ∨ ((∀ k, 0 ≤ k ≤ i → absorbed doc (ci - 1) k)
     ∧ parentColumnLoop doc ci n i = Some (-1)).
Proof.
  induction n as [|n IH]; intros i Hn Hi; simpl.
  - right. split; [intros; lia|done].
  - destruct (lineAt_is_Some i) as [t Ht]; [lia|]. rewrite Ht. simpl.
    assert (absorbed doc (ci - 1) i →
      (∃ j t, 0 ≤ j ≤ i ∧ lineAt doc j = Some t ∧ isBlank t = false
          ∧ getEffectiveIndentColumn t < ci
          ∧ (∀ k, j < k ≤ i → absorbed doc (ci - 1) k)
          ∧ parentColumnLoop doc ci n (i - 1)
            = Some (getEffectiveIndentColumn t))
      ∨ ((∀ k, 0 ≤ k ≤ i → absorbed doc (ci - 1) k)
         ∧ parentColumnLoop doc ci n (i - 1) = Some (-1))) as Hstep.
    { intros Habs.
      destruct (IH (i - 1)) as [(j & t' & Hj & Ht' & Hb' & Hlt & Hall & Hres)
                               |[Hall Hres]]; [lia..| |].
      - left. exists j, t'. split_and!; [lia|lia|done..| |done].
        intros k Hk. destruct (decide (k = i)) as [->|]; [done|].
        apply Hall. lia.
      - right. split; [|done].
        intros k Hk. destruct (decide (k = i)) as [->|]; [done|].
        apply Hall. lia. }
    destruct (isBlank t) eqn:Hb.
    { apply Hstep. exists t. auto. }
    destruct (Z.ltb_spec (getEffectiveIndentColumn t) ci).
    + left. exists i, t. split_and!; [lia|lia|done..|intros; lia|done].
    + apply Hstep. exists t. split; [done|]. right. lia.
Qed.

End Scans.

(** ** Hierarchy walker *)

Section Walker.

Variable doc : list (list N).

Lemma nextContentLine_fun (i j j' : Z) :
  nextContentLine doc i j → nextContentLine doc i j' → j = j'.
Proof.
  intros (Hij & [c Hc] & Hbl) (Hij' & [c' Hc'] & Hbl').
  destruct (Z.lt_trichotomy j j') as [Hlt|[->|Hlt]]; [|done|].
  - exfalso. eapply contentLine_not_blank; [exact Hc|]. apply Hbl'. lia.
  - exfalso. eapply contentLine_not_blank; [exact Hc'|]. apply Hbl. lia.
Qed.

Lemma hasNestedContent_last (i : Z) :
  lineCount doc - 1 ≤ i → hasNestedContent doc i = Some false.
Proof.
  intros Hi. unfold hasNestedContent.
  by destruct (Z.leb_spec (lineCount doc - 1) i); [|lia].
Qed.

Lemma hasNestedContent_blank (i : Z) :
  blankLine doc i → hasNestedContent doc i = Some false.
Proof.
  intros (t & Ht & Hb). unfold hasNestedContent.
  destruct (Z.leb_spec (lineCount doc - 1) i); [done|].
  rewrite Ht. simpl. by rewrite Hb.
Qed.

Lemma hasNestedContent_unfold (i : Z) (t : list N) :
  i < lineCount doc - 1 → lineAt doc i = Some t → isBlank t = false →
  hasNestedContent doc i
  = hasNestedLoop doc (getEffectiveIndentColumn t)
      (Z.to_nat (lineCount doc - (i + 1))) (i + 1).
Proof.
  intros Hi Ht Hb. unfold hasNestedContent.
  destruct (Z.leb_spec (lineCount doc - 1) i); [lia|].
  rewrite Ht. simpl. by rewrite Hb.
Qed.

Lemma hasNestedContent_next (i j c d : Z) :
  contentLine doc i c → nextContentLine doc i j → contentLine doc j d →
  hasNestedContent doc i = Some (c <? d).
Proof.
  intros (t & Ht & Hb & Hc) Hnext Hd.
  pose proof Hnext as (Hij & _ & Hbl).
  pose proof Hd as (tj & Htj & Hbj & Hdj).
  apply lineAt_Some_range in Ht as Hri. apply lineAt_Some_range in Htj as Hrj.
  rewrite (hasNestedContent_unfold i t) by (done || lia).
  destruct (hasNestedLoop_spec doc (getEffectiveIndentColumn t)
              (Z.to_nat (lineCount doc - (i + 1))) (i + 1))
    as [(j' & t' & Hj' & Ht' & Hb' & Hall & Hres)|[Hall Hres]]; [lia..| |].
  - assert (j' = j) as ->.
    { apply (nextContentLine_fun i); [|done].
      split_and!; [lia|by exists (getEffectiveIndentColumn t'), t'|].
      intros k Hk. apply Hall. lia. }
    simplify_eq. by rewrite Hres.
  - exfalso. eapply contentLine_not_blank; [exact Hd|]. apply Hall. lia.
Qed.

Lemma hasNestedContent_no_next (i : Z) :
  (∀ k, i < k < lineCount doc → blankLine doc k) →
  0 ≤ i < lineCount doc → hasNestedContent doc i = Some false.
Proof.
  intros Hall Hi.
  destruct (lineAt_is_Some doc i Hi) as [t Ht].
  destruct (isBlank t) eqn:Hb; [apply hasNestedContent_blank; by exists t|].
  destruct (Z.le_gt_cases (lineCount doc - 1) i);
    [by apply hasNestedContent_last|].
  rewrite (hasNestedContent_unfold i t) by (done || lia).
  destruct (hasNestedLoop_spec doc (getEffectiveIndentColumn t)
              (Z.to_nat (lineCount doc - (i + 1))) (i + 1))
    as [(j' & t' & Hj' & Ht' & Hb' & _ & _)|[_ Hres]]; [lia..| |done].
  apply lineAt_Some_range in Ht' as Hr.
  destruct (Hall j') as (t'' & Ht'' & Hb''); [lia|]. simplify_eq. congruence.
Qed.

Lemma hasNestedContent_total (i : Z) :
  0 ≤ i < lineCount doc → ∃ b, hasNestedContent doc i = Some b.
Proof.
  intros Hi.
  destruct (lineAt_is_Some doc i Hi) as [t Ht].
  destruct (isBlank t) eqn:Hb;
    [exists false; apply hasNestedContent_blank; by exists t|].
  destruct (Z.le_gt_cases (lineCount doc - 1) i);
    [exists false; by apply hasNestedContent_last|].
  rewrite (hasNestedContent_unfold i t) by (done || lia).
  destruct (hasNestedLoop_spec doc (getEffectiveIndentColumn t)
              (Z.to_nat (lineCount doc - (i + 1))) (i + 1))
    as [(j' & t' & _ & _ & _ & _ & Hres)|[_ Hres]]; [lia..| |];
    rewrite Hres; eauto.
Qed.

Lemma hasNestedContent_true_inv (i : Z) :
  hasNestedContent doc i = Some true → hasChild doc i.
Proof.
  intros Htrue.
  destruct (Z.le_gt_cases (lineCount doc - 1) i) as [Hlast|Hlast].
  { rewrite hasNestedContent_last in Htrue by done. congruence. }
  unfold hasNestedContent in Htrue.
  destruct (Z.leb_spec (lineCount doc - 1) i); [lia|].
  destruct (lineAt doc i) as [t|] eqn:Ht; [|done]. simpl in Htrue.
  destruct (isBlank t) eqn:Hb; [congruence|].
  apply lineAt_Some_range in Ht as Hri.
  destruct (hasNestedLoop_spec doc (getEffectiveIndentColumn t)
              (Z.to_nat (lineCount doc - (i + 1))) (i + 1))
    as [(j & t' & Hj & Ht' & Hb' & Hall & Hres)|[_ Hres]]; [lia..| |];
    rewrite Hres in Htrue; [|congruence].
  exists (getEffectiveIndentColumn t), j, (getEffectiveIndentColumn t').
  split_and!; [by exists t| |by exists t'|].
  - split_and!; [lia|by exists (getEffectiveIndentColumn t'), t'|].
    intros k Hk. apply Hall. lia.
  - apply Z.ltb_lt. congruence.
Qed.

Lemma getParentColumn_first (i : Z) :
  i ≤ 0 → getParentColumn doc i = Some (-1).
Proof.
  intros Hi. unfold getParentColumn.
  by destruct (Z.leb_spec i 0); [|lia].
Qed.

Lemma getParentColumn_column0 (i : Z) (t : list N) :
  lineAt doc i = Some t → getEffectiveIndentColumn t = 0 →
  getParentColumn doc i = Some (-1).
Proof.
  intros Ht Hc. unfold getParentColumn.
  destruct (Z.leb_spec i 0); [done|].
  rewrite Ht. simpl. by rewrite Hc.
Qed.

Lemma getParentColumn_spec (i : Z) (t : list N) :
  0 < i → lineAt doc i = Some t → getEffectiveIndentColumn t ≠ 0 →
  (∃ j t', 0 ≤ j < i ∧ lineAt doc j = Some t' ∧ isBlank t' = false
      ∧ getEffectiveIndentColumn t' < getEffectiveIndentColumn t
      ∧ (∀ k, j < k < i → absorbed doc (getEffectiveIndentColumn t - 1) k)
      ∧ getParentColumn doc i = Some (getEffectiveIndentColumn t'))
  ∨ ((∀ k, 0 ≤ k < i → absorbed doc (getEffectiveIndentColumn t - 1) k)
     ∧ getParentColumn doc i = Some (-1)).
Proof.
  intros Hi Ht Hc. unfold getParentColumn.
  destruct (Z.leb_spec i 0); [lia|].
  rewrite Ht. simpl.
  destruct (Z.eqb_spec (getEffectiveIndentColumn t) 0); [done|].
  apply lineAt_Some_range in Ht as Hri.
  destruct (parentColumnLoop_spec doc (getEffectiveIndentColumn t)
              (Z.to_nat i) (i - 1))
    as [(j & t' & Hj & Ht' & Hb' & Hlt & Hall & Hres)|[Hall Hres]];
    [lia..| |].
  - left. exists j, t'. split_and!; [lia|lia|done..| |done].
    intros k Hk. apply Hall. lia.
  - right. split; [|done]. intros k Hk. apply Hall. lia.
Qed.

Lemma getParentColumn_total (i : Z) :
  i < lineCount doc → ∃ p, getParentColumn doc i = Some p ∧ -1 ≤ p.
Proof.
  intros Hi.
  destruct (Z.le_gt_cases i 0);
    [exists (-1); split; [by apply getParentColumn_first|lia]|].
  destruct (lineAt_is_Some doc i) as [t Ht]; [lia|].
  destruct (decide (getEffectiveIndentColumn t = 0)) as [Hc|Hc];
    [exists (-1); split; [by eapply getParentColumn_column0|lia]|].
  destruct (getParentColumn_spec i t)
    as [(j & t' & _ & _ & _ & _ & _ & Hres)|[_ Hres]]; [lia|done..| |];
    rewrite Hres; eexists; split; [done| |done|lia].
  pose proof (getEffectiveIndentColumn_nonneg t'). lia.
Qed.

(** The parent column of the first non-blank line after a shallower
    non-blank line is that line's column. *)
Lemma getParentColumn_of_child (i j c d : Z) :
  contentLine doc i c → nextContentLine doc i j → contentLine doc j d →
  c < d → getParentColumn doc j = Some c.
Proof.
  intros Hci (Hij & _ & Hbl) (tj & Htj & Hbj & Hdj) Hcd.
  pose proof Hci as (ti & Hti & Hbi & Hcc).
  apply lineAt_Some_range in Hti as Hri.
  pose proof (getEffectiveIndentColumn_nonneg ti).
  destruct (getParentColumn_spec j tj)
    as [(p & tp & Hp & Htp & Hbp & Hlt & Hall & Hres)|[Hall _]];
    [lia|done|lia| |].
  - destruct (Z.lt_trichotomy p i) as [Hlt'|[->|Hlt']].
    + exfalso. apply (absorbed_not_stopper doc (d - 1) i).
      * rewrite <- Hdj. apply Hall. lia.
      * eapply contentLine_stopper; [done|lia].
    + simplify_eq. by rewrite Hres.
    + exfalso. eapply (contentLine_not_blank doc p);
        [by exists tp|apply Hbl; lia].
  - exfalso. apply (absorbed_not_stopper doc (d - 1) i).
    + rewrite <- Hdj. apply Hall. lia.
    + eapply contentLine_stopper; [done|lia].
Qed.

End Walker.

(** ** Column collector *)

Section Collector.

Variable doc : list (list N).

Lemma findLineAtColumn_spec (parentCol : Z) (n : nat) :
  ∀ j, Z.of_nat n = j + 1 → j < lineCount doc →
  ∃ r, findLineAtColumn doc parentCol n j = Some r
       ∧ ∀ j', r = Some j' → 0 ≤ j' ≤ j.
Proof.
  induction n as [|n IH]; intros j Hn Hj; simpl.
  - exists None. by split.
  - destruct (lineAt_is_Some doc j) as [t Ht]; [lia|]. rewrite Ht. simpl.
    assert (∃ r, findLineAtColumn doc parentCol n (j - 1) = Some r
                 ∧ ∀ j', r = Some j' → 0 ≤ j' ≤ j) as Hstep.
    { destruct (IH (j - 1)) as (r & Hr & Hb); [lia..|].
      exists r. split; [done|]. intros j' ->.
      specialize (Hb j' eq_refl). lia. }
    destruct (isBlank t); [done|].
    destruct (Z.eqb_spec (getEffectiveIndentColumn t) parentCol); [|done].
    exists (Some j). split; [done|]. intros j' [= <-]. lia.
Qed.

Lemma extends_refl (st : CollectorState) : extends st st.
Proof. by split. Qed.

Lemma extends_trans (st1 st2 st3 : CollectorState) :
  extends st1 st2 → extends st2 st3 → extends st1 st3.
Proof. intros [? ?] [? ?]. split; set_solver. Qed.

Lemma addAncestorColumns_spec (depth : nat) :
  ∀ lineNum st,
    0 ≤ lineNum < lineCount doc → lineNum < Z.of_nat depth →
    collected doc st →
    ∃ st', addAncestorColumns doc depth lineNum st = Some st'
           ∧ collected doc st' ∧ extends st st'
           ∧ lineNum ∈ processedLines st'.
Proof.
  induction depth as [|depth IH]; intros lineNum st Hl Hd Hinv; [lia|].
  simpl. destruct (decide (lineNum ∈ processedLines st)) as [Hin|Hin].
  { exists st. split_and!; [done..|apply extends_refl|done]. }
  destruct (getParentColumn_total doc lineNum) as (p & Hp & Hpge); [lia|].
  rewrite Hp. simpl.
  destruct (Z.leb_spec 0 p) as [Hp0|Hp0].
  - set (st2 := mkCollectorState ({[p]} ∪ indentColumns st)
                  ({[lineNum]} ∪ processedLines st)).
    assert (collected doc st2) as Hinv2.
    { intros l q Hlq Hq Hq0. simpl in *.
      apply elem_of_union in Hlq as [Hlq|Hlq].
      - apply elem_of_singleton in Hlq as ->. simplify_eq.
        apply elem_of_union_l. by apply elem_of_singleton.
      - apply elem_of_union_r. by eapply Hinv. }
    assert (extends st st2) as Hext2
      by (split; simpl; apply union_subseteq_r).
    destruct (findLineAtColumn_spec p (Z.to_nat lineNum) (lineNum - 1))
      as (r & Hr & Hb); [lia..|].
    rewrite Hr. simpl. destruct r as [j|].
    + specialize (Hb j eq_refl).
      destruct (IH j st2) as (st' & Hres & Hinv' & Hext' & Hj);
        [lia|lia|done|].
      exists st'. split_and!; [done|done| |].
      * by eapply extends_trans.
      * destruct Hext' as [_ Hsub]. apply Hsub. simpl.
        apply elem_of_union_l. by apply elem_of_singleton.
    + exists st2. split_and!; [done..|]. simpl.
      apply elem_of_union_l. by apply elem_of_singleton.
  - set (st1 := mkCollectorState (indentColumns st)
                  ({[lineNum]} ∪ processedLines st)).
    exists st1. split_and!; [done| | |].
    + intros l q Hlq Hq Hq0. simpl in *.
      apply elem_of_union in Hlq as [Hlq|Hlq].
      * apply elem_of_singleton in Hlq as ->. simplify_eq. lia.
      * by eapply Hinv.
    + split; simpl; [done|apply union_subseteq_r].
    + simpl. apply elem_of_union_l. by apply elem_of_singleton.
Qed.

Lemma collectLoop_spec (n : nat) :
  ∀ i st, 0 ≤ i → i + Z.of_nat n = lineCount doc → collected doc st →
  ∃ st', collectLoop doc n i st = Some st' ∧ collected doc st'
         ∧ extends st st'
         ∧ ∀ k c, i ≤ k → contentLine doc k c → k ∈ processedLines st'.
Proof.
  induction n as [|n IH]; intros i st Hi Hn Hinv; cbn [collectLoop].
  - exists st. split_and!; [done..|apply extends_refl|].
    intros k c Hk (t & Ht & _). apply lineAt_Some_range in Ht. lia.
  - destruct (lineAt_is_Some doc i) as [t Ht]; [lia|]. rewrite Ht.
    cbn [mbind option_bind].
    destruct (isBlank t) eqn:Hb.
    + destruct (IH (i + 1) st) as (st' & Hres & Hinv' & Hext & Hall);
        [lia..|done|].
      exists st'. split_and!; [done..|].
      intros k c Hk Hc. destruct (decide (k = i)) as [->|].
      * destruct Hc as (t' & Ht' & Hb' & _). simplify_eq. congruence.
      * eapply Hall; [|done]. lia.
    + destruct (addAncestorColumns_spec (S (Z.to_nat i)) i st)
        as (st1 & Hres1 & Hinv1 & Hext1 & Hin1); [lia..|done|].
      rewrite Hres1. cbn [mbind option_bind].
      destruct (IH (i + 1) st1) as (st' & Hres & Hinv' & Hext & Hall);
        [lia..|done|].
      exists st'. split_and!; [done..|by eapply extends_trans|].
      intros k c Hk Hc. destruct (decide (k = i)) as [->|].
      * destruct Hext as [_ Hsub]. by apply Hsub.
      * eapply Hall; [|done]. lia.
Qed.

Lemma collectIndentColumns_spec :
  ∃ cols, collectIndentColumns doc = Some cols
          ∧ 0 ∈ cols
          ∧ ∀ k c p, contentLine doc k c →
                     getParentColumn doc k = Some p → 0 ≤ p → p ∈ cols.
Proof.
  unfold collectIndentColumns.
  destruct (collectLoop_spec (length doc) 0 (mkCollectorState ∅ ∅))
    as (st & Hres & Hinv & _ & Hall);
    [lia|unfold lineCount; lia|by intros l p Hl; simpl in Hl|].
  rewrite Hres. simpl. eexists. split_and!; [done|set_solver|].
  intros k c p Hc Hp Hp0. apply elem_of_union_r.
  eapply Hinv; [|done..]. eapply Hall; [|done].
  destruct Hc as (t & Ht & _). apply lineAt_Some_range in Ht. lia.
Qed.

End Collector.

(** ** Range builder *)

Section Builder.

Variable doc : list (list N).
Variable spacesPerIndent : Z.

Lemma seqZ_StronglySorted (n : nat) :
  ∀ m, StronglySorted Z.lt (seqZ m (Z.of_nat n)).
Proof.
  induction n as [|n IH]; intros m; [constructor|].
  rewrite seqZ_cons by lia. constructor.
  - replace (Z.pred (Z.of_nat (S n))) with (Z.of_nat n) by lia. apply IH.
  - apply Forall_seqZ. lia.
Qed.

Lemma rangeLines_guideRange (col : Z) (ls : list Z) :
  rangeLines (guideRange col spacesPerIndent <$> ls) = ls.
Proof.
  unfold rangeLines. induction ls as [|l ls IH]; [done|].
  simpl. f_equal. exact IH.
Qed.

Lemma pushRanges_spec (col : Z) (n : nat) :
  ∀ k ranges,
    pushRanges col spacesPerIndent n k ranges
    = ranges ++ (guideRange col spacesPerIndent <$> seqZ k (Z.of_nat n)).
Proof.
  induction n as [|n IH]; intros k ranges; simpl.
  - by rewrite app_nil_r.
  - rewrite IH, <- app_assoc. f_equal.
    rewrite (seqZ_cons k) by lia. simpl. do 3 f_equal. lia.
Qed.

Lemma blockEndOf_spec (col i : Z) :
  0 ≤ i < lineCount doc →
  ∃ e, blockEndOf doc col i = Some e
       ∧ i ≤ e < lineCount doc
       ∧ (∀ k, i < k ≤ e → absorbed doc col k)
       ∧ (e + 1 = lineCount doc ∨ stopper doc col (e + 1)).
Proof.
  intros Hi. unfold blockEndOf.
  destruct (blockEndLoop_spec doc col
              (Z.to_nat (lineCount doc - (i + 1))) (i + 1) i)
    as (e & He & Hr & Hall & Hend); [lia..|].
  exists e. split_and!; [done|lia|lia| |done].
  intros k Hk. apply Hall. lia.
Qed.

(** The block of head [h] reaches [l] exactly when [l] is within the
    scan's result. *)
Lemma blockCovers_blockEndOf (col h l e : Z) :
  contentLine doc h col → blockEndOf doc col h = Some e →
  blockCovers doc col h l ↔ h < l ≤ e.
Proof.
  intros Hc He.
  destruct (blockEndOf_spec col h) as (e' & He' & Hr & Hall & Hend).
  { destruct Hc as (t & Ht & _). by apply lineAt_Some_range in Ht. }
  simplify_eq. split.
  - intros (_ & Hlt & Habs). split; [done|].
    destruct (Z.le_gt_cases l e) as [|Hgt]; [done|exfalso].
    destruct (Habs (e + 1)) as (t & Ht & Ha); [lia|].
    destruct Hend as [Hend|Hend].
    + apply lineAt_Some_range in Ht. lia.
    + apply (absorbed_not_stopper doc col (e + 1)); [by exists t|done].
  - intros Hl. split_and!; [done|lia|]. intros k Hk. apply Hall. lia.
Qed.

Lemma columnRangesLoop_spec (col : Z) (n : nat) :
  ∀ i acc, 0 ≤ i → i + Z.of_nat n = lineCount doc →
  ∃ ls, columnRangesLoop doc col spacesPerIndent n i acc
        = Some (acc ++ (guideRange col spacesPerIndent <$> ls))
        ∧ StronglySorted Z.lt ls
        ∧ ∀ l, l ∈ ls ↔ ∃ h, i ≤ h ∧ blockCovers doc col h l.
Proof.
  induction n as [|n IH]; intros i acc Hi Hn; cbn [columnRangesLoop].
  - exists []. split_and!; [by rewrite app_nil_r|constructor|].
    intros l. split; [by intros ?%elem_of_nil|].
    intros (h & Hh & (t & Ht & _) & _).
    apply lineAt_Some_range in Ht. lia.
  - destruct (lineAt_is_Some doc i) as [t Ht]; [lia|]. rewrite Ht.
    cbn [mbind option_bind].
    assert (¬ contentLine doc i col →
      ∃ ls, columnRangesLoop doc col spacesPerIndent n (i + 1) acc
            = Some (acc ++ (guideRange col spacesPerIndent <$> ls))
            ∧ StronglySorted Z.lt ls
            ∧ ∀ l, l ∈ ls ↔ ∃ h, i ≤ h ∧ blockCovers doc col h l) as Hskip.
    { intros Hnot.
      destruct (IH (i + 1) acc) as (ls & Hres & Hsort & Hiff); [lia..|].
      exists ls. split_and!; [done..|].
      intros l. rewrite Hiff. split; intros (h & Hh & Hcov).
      - exists h. split; [lia|done].
      - exists h. split; [|done].
        destruct (decide (h = i)) as [->|]; [|lia].
        by destruct Hcov as [? _]. }
    destruct (isBlank t) eqn:Hb.
    { apply Hskip. intros (t' & Ht' & Hb' & _). simplify_eq. congruence. }
    destruct (Z.eqb_spec (getEffectiveIndentColumn t) col) as [Hcol|Hcol].
    2:{ apply Hskip. intros (t' & Ht' & _ & Hc'). by simplify_eq. }
    assert (contentLine doc i col) as Hhead by by exists t.
    destruct (blockEndOf_spec col i) as (e & He & Hr & Hall & Hend); [lia|].
    rewrite He. cbn [mbind option_bind].
    rewrite pushRanges_spec.
    replace (Z.of_nat (Z.to_nat (e + 1 - (i + 1)))) with (e - i) by lia.
    destruct (IH (i + 1)
                (acc ++ (guideRange col spacesPerIndent
                           <$> seqZ (i + 1) (e - i))))
      as (ls & Hres & Hsort & Hiff); [lia..|].
    assert (∀ l, l ∈ ls → e < l) as Hbeyond.
    { intros l (h & Hh & Hc & Hlt & Habs)%Hiff.
      destruct (Z.le_gt_cases l e) as [Hle|]; [exfalso|done].
      apply (absorbed_not_stopper doc col h).
      - apply Hall. lia.
      - by eapply contentLine_stopper. }
    exists (seqZ (i + 1) (e - i) ++ ls). split_and!.
    + rewrite Hres. by rewrite fmap_app, app_assoc.
    + apply StronglySorted_app_2; [|
        replace (e - i) with (Z.of_nat (Z.to_nat (e - i))) by lia;
        apply seqZ_StronglySorted|done].
      intros x1 x2 Hx1%elem_of_seqZ Hx2%Hbeyond. lia.
    + intros l. rewrite elem_of_app, elem_of_seqZ, Hiff. split.
      * intros [Hl|(h & Hh & Hcov)].
        -- exists i. split; [lia|].
           apply (blockCovers_blockEndOf col i l e); [done..|lia].
        -- exists h. split; [lia|done].
      * intros (h & Hh & Hcov). destruct (decide (h = i)) as [->|].
        -- left. apply (blockCovers_blockEndOf col i l e) in Hcov; [|done..].
           lia.
        -- right. exists h. split; [lia|done].
Qed.

Lemma rangesForColumn_spec (col : Z) :
  ∃ ls, rangesForColumn doc col spacesPerIndent
        = Some (guideRange col spacesPerIndent <$> ls)
        ∧ StronglySorted Z.lt ls
        ∧ ∀ l, l ∈ ls ↔ ∃ h, blockCovers doc col h l.
Proof.
  unfold rangesForColumn.
  destruct (columnRangesLoop_spec col (length doc) 0 [])
    as (ls & Hres & Hsort & Hiff); [lia|unfold lineCount; lia|].
  exists ls. split_and!; [done..|].
  intros l. rewrite Hiff. split.
  - intros (h & _ & Hh). by exists h.
  - intros (h & Hh). exists h. split; [|done].
    destruct Hh as ((t & Ht & _) & _). apply lineAt_Some_range in Ht. lia.
Qed.

End Builder.

Section ColumnMap.

Variable doc : list (list N).
Variable spacesPerIndent : Z.

Lemma buildColumnRanges_spec (cols : list Z) :
  ∀ m0 : gmap Z (list Range),
  ∃ m, buildColumnRanges doc spacesPerIndent cols m0 = Some m
       ∧ (∀ c rs, c ∈ cols →
                  rangesForColumn doc c spacesPerIndent = Some rs →
                  rs ≠ [] → m !! c = Some rs)
       ∧ (∀ c, c ∉ cols → m !! c = m0 !! c)
       ∧ (∀ c rs, m !! c = Some rs →
                  m0 !! c = Some rs
                  ∨ (c ∈ cols
                     ∧ rangesForColumn doc c spacesPerIndent = Some rs
                     ∧ rs ≠ [])).
Proof.
  induction cols as [|c0 rest IH]; intros m0; cbn [buildColumnRanges].
  - exists m0. split_and!; [done| |done|by left].
    by intros c rs ?%elem_of_nil.
  - destruct (rangesForColumn_spec doc spacesPerIndent c0)
      as (ls & Hrs & _ & _).
    rewrite Hrs. cbn [mbind option_bind].
    set (rs0 := guideRange c0 spacesPerIndent <$> ls) in *.
    set (m1 := if 0 <? Z.of_nat (length rs0)
               then <[c0:=rs0]> m0 else m0).
    assert ((if 0 <? Z.of_nat (length rs0)
             then buildColumnRanges doc spacesPerIndent rest
                    (<[c0:=rs0]> m0)
             else buildColumnRanges doc spacesPerIndent rest m0)
            = buildColumnRanges doc spacesPerIndent rest m1) as ->.
    { unfold m1. by destruct (0 <? Z.of_nat (length rs0)). }
    assert (rs0 ≠ [] → m1 !! c0 = Some rs0) as Hm1.
    { intros Hne. unfold m1.
      destruct (Z.ltb_spec 0 (Z.of_nat (length rs0))) as [|Hlen].
      - apply lookup_insert_eq.
      - destruct rs0; [done|]. simpl in Hlen. lia. }
    assert (∀ c, c ≠ c0 → m1 !! c = m0 !! c) as Hm1'.
    { intros c Hc. unfold m1.
      destruct (0 <? Z.of_nat (length rs0)); [|done].
      by apply lookup_insert_ne. }
    assert (∀ rs, m1 !! c0 = Some rs →
                  m0 !! c0 = Some rs ∨ (rs = rs0 ∧ rs ≠ [])) as Hm1''.
    { intros rs. unfold m1.
      destruct (Z.ltb_spec 0 (Z.of_nat (length rs0))) as [Hlen|];
        [|by left].
      rewrite lookup_insert_eq. intros [= <-]. right. split; [done|].
      intros Heq. rewrite Heq in Hlen. simpl in Hlen. lia. }
    destruct (IH m1) as (m & Hres & Hin & Hout & Hsound).
    exists m. split_and!; [done| | |].
    + intros c rs Hc Hc' Hne.
      destruct (decide (c ∈ rest)) as [|Hnot]; [by apply Hin|].
      apply elem_of_cons in Hc as [->|]; [|done].
      rewrite Hout by done. simplify_eq. by apply Hm1.
    + intros c Hc. apply not_elem_of_cons in Hc as [Hne Hnot].
      rewrite Hout by done. by apply Hm1'.
    + intros c rs Hc. destruct (Hsound c rs Hc) as [Hc1|(Hc1 & Hc2 & Hc3)].
      * destruct (decide (c = c0)) as [->|Hne].
        -- destruct (Hm1'' rs Hc1) as [|[-> Hne]]; [by left|].
           right. split_and!; [by left|done..].
        -- left. by rewrite <- Hm1'.
      * right. split_and!; [by right|done..].
Qed.

End ColumnMap.

(** ** Active block resolver *)

Section Resolver.

Variable doc : list (list N).

Lemma level_nonneg (c : Z) : 0 ≤ c → 0 ≤ c / 2.
Proof. intros. apply Z.div_pos; lia. Qed.

Lemma getIndentationColumn_level_nonneg (c : Z) :
  0 ≤ c → 0 ≤ getIndentationColumn (c / 2).
Proof. intros Hc%level_nonneg. unfold getIndentationColumn. lia. Qed.

Lemma getIndentationColumn_level_even (c : Z) :
  Z.even (getIndentationColumn (c / 2)) = true.
Proof.
  unfold getIndentationColumn. rewrite Z.even_mul. apply orb_true_r.
Qed.

Lemma getIndentationColumn_level_exact (c : Z) :
  Z.even c = true → getIndentationColumn (c / 2) = c.
Proof.
  intros He. unfold getIndentationColumn.
  pose proof (Z.div_mod c 2) as Hdm.
  rewrite Zmod_even, He in Hdm. lia.
Qed.

Lemma activeForwardLoop_spec (c : Z) (n : nat) :
  ∀ i e0, 0 ≤ i → i + Z.of_nat n = lineCount doc → e0 < i →
  ∃ e, activeForwardLoop doc c n i e0 = Some e
       ∧ e0 ≤ e < lineCount doc
       ∧ ∀ k, i ≤ k ≤ e → absorbed doc c k.
Proof.
  induction n as [|n IH]; intros i e0 Hi Hn He0; simpl.
  - exists e0. split_and!; [done|lia|lia|intros; lia].
  - destruct (lineAt_is_Some doc i) as [t Ht]; [lia|]. rewrite Ht. simpl.
    destruct (isBlank t) eqn:Hb.
    + destruct (IH (i + 1) e0) as (e & He & Hr & Hall); [lia..|].
      exists e. split_and!; [done|lia|lia|].
      intros k Hk. destruct (decide (k = i)) as [->|]; [|apply Hall; lia].
      exists t. auto.
    + destruct (Z.ltb_spec c (getEffectiveIndentColumn t)).
      * destruct (IH (i + 1) i) as (e & He & Hr & Hall); [lia..|].
        exists e. split_and!; [done|lia|lia|].
        intros k Hk. destruct (decide (k = i)) as [->|]; [|apply Hall; lia].
        exists t. auto.
      * exists e0. split_and!; [done|lia|lia|intros; lia].
Qed.

Lemma activeBackwardLoop_spec (c : Z) (n : nat) :
  ∀ i s0, Z.of_nat n = i + 1 → i < lineCount doc → i < s0 →
  ∃ s, activeBackwardLoop doc c n i s0 = Some s
       ∧ 0 ≤ s ≤ s0
       ∧ ∀ k, s ≤ k ≤ i → absorbed doc c k.
Proof.
  induction n as [|n IH]; intros i s0 Hn Hi Hs0; simpl.
  - exists s0. split_and!; [done|lia|lia|intros; lia].
  - destruct (lineAt_is_Some doc i) as [t Ht]; [lia|]. rewrite Ht. simpl.
    destruct (isBlank t) eqn:Hb.
    + destruct (IH (i - 1) s0) as (s & Hs & Hr & Hall); [lia..|].
      exists s. split_and!; [done|lia|lia|].
      intros k Hk. destruct (decide (k = i)) as [->|]; [|apply Hall; lia].
      exists t. auto.
    + destruct (Z.ltb_spec c (getEffectiveIndentColumn t)).
      * destruct (IH (i - 1) i) as (s & Hs & Hr & Hall); [lia..|].
        exists s. split_and!; [done|lia|lia|].
        intros k Hk. destruct (decide (k = i)) as [->|]; [|apply Hall; lia].
        exists t. auto.
      * exists s0. split_and!; [done|lia|lia|intros; lia].
Qed.

Lemma resolveActiveBlock_outside (cursor : Z) :
  ¬ (0 ≤ cursor < lineCount doc) →
  resolveActiveBlock doc cursor = Some noActiveBlock.
Proof.
  intros Hout. unfold resolveActiveBlock.
  destruct (Z.leb_spec 0 cursor); destruct (Z.ltb_spec cursor (lineCount doc));
    simpl; (done || lia).
Qed.

Lemma resolveActiveBlock_blank (cursor : Z) :
  blankLine doc cursor →
  resolveActiveBlock doc cursor = Some noActiveBlock.
Proof.
  intros (t & Ht & Hb). unfold resolveActiveBlock.
  destruct (_ && _); [|done]. rewrite Ht. simpl.
  by rewrite trim_length_pos, Hb.
Qed.

Lemma resolveActiveBlock_content (cursor : Z) (t : list N) :
  lineAt doc cursor = Some t → isBlank t = false →
  resolveActiveBlock doc cursor
  = (isParentLine ← hasNestedContent doc cursor;
     col ← chooseActiveColumn doc cursor t isParentLine;
     if 0 <=? col then
       if (isParentLine : bool) then
         blockEnd ← activeForwardLoop doc col
                      (Z.to_nat (lineCount doc - (cursor + 1)))
                      (cursor + 1) cursor;
         Some (mkActiveBlock col (cursor + 1) blockEnd)
       else
         blockStart ← activeBackwardLoop doc col (Z.to_nat cursor)
                        (cursor - 1) cursor;
         blockEnd ← activeForwardLoop doc col
                      (Z.to_nat (lineCount doc - (cursor + 1)))
                      (cursor + 1) cursor;
         Some (mkActiveBlock col blockStart blockEnd)
     else Some (mkActiveBlock col (-1) (-1))).
Proof.
  intros Ht Hb. unfold resolveActiveBlock.
  apply lineAt_Some_range in Ht as Hr.
  destruct (Z.leb_spec 0 cursor); [|lia].
  destruct (Z.ltb_spec cursor (lineCount doc)); [|lia].
  cbn [andb]. rewrite Ht. cbn [mbind option_bind].
  by rewrite trim_length_pos, Hb.
Qed.

(** The cursor line is a parent line. *)
Lemma resolveActiveBlock_parent (cursor c : Z) :
  contentLine doc cursor c → hasNestedContent doc cursor = Some true →
  ∃ e, resolveActiveBlock doc cursor
       = Some (mkActiveBlock (c / 2 * 2) (cursor + 1) e)
       ∧ cursor ≤ e < lineCount doc
       ∧ ∀ k, cursor < k ≤ e → absorbed doc (c / 2 * 2) k.
Proof.
  intros (t & Ht & Hb & Hc) Hnested.
  rewrite (resolveActiveBlock_content cursor t) by done.
  rewrite Hnested. cbn [mbind option_bind chooseActiveColumn].
  unfold getIndentationColumn, getIndentationLevel. rewrite Hc.
  apply lineAt_Some_range in Ht as Hr.
  pose proof (getEffectiveIndentColumn_nonneg t) as Hnn. rewrite Hc in Hnn.
  apply getIndentationColumn_level_nonneg in Hnn.
  unfold getIndentationColumn in Hnn.
  destruct (Z.leb_spec 0 (c / 2 * 2)); [|lia].
  destruct (activeForwardLoop_spec (c / 2 * 2)
              (Z.to_nat (lineCount doc - (cursor + 1)))
              (cursor + 1) cursor) as (e & He & Hre & Hall); [lia..|].
  rewrite He. cbn [mbind option_bind].
  exists e. split_and!; [done|lia|lia|]. intros k Hk. apply Hall. lia.
Qed.

(** The cursor line is not a parent line and has a parent. *)
Lemma resolveActiveBlock_child (cursor c p : Z) :
  contentLine doc cursor c → hasNestedContent doc cursor = Some false →
  getParentColumn doc cursor = Some p → 0 ≤ p →
  ∃ s e, resolveActiveBlock doc cursor
         = Some (mkActiveBlock (p / 2 * 2) s e)
         ∧ 0 ≤ s ≤ cursor ∧ cursor ≤ e < lineCount doc
         ∧ (∀ k, s ≤ k < cursor → absorbed doc (p / 2 * 2) k)
         ∧ (∀ k, cursor < k ≤ e → absorbed doc (p / 2 * 2) k).
Proof.
  intros (t & Ht & Hb & Hc) Hnested Hp Hp0.
  rewrite (resolveActiveBlock_content cursor t) by done.
  rewrite Hnested.
  cbn [mbind option_bind chooseActiveColumn].
  unfold getParentIndentationLevel. rewrite Hp.
  cbn [mbind option_bind].
  destruct (Z.ltb_spec p 0); [lia|].
  pose proof (level_nonneg p Hp0).
  cbn [mbind option_bind].
  destruct (Z.leb_spec 0 (p / 2)); [|lia].
  cbn [mbind option_bind]. unfold getIndentationColumn.
  destruct (Z.leb_spec 0 (p / 2 * 2)); [|lia].
  apply lineAt_Some_range in Ht as Hr.
  destruct (activeBackwardLoop_spec (p / 2 * 2) (Z.to_nat cursor)
              (cursor - 1) cursor) as (s & Hs & Hrs & Halls); [lia..|].
  destruct (activeForwardLoop_spec (p / 2 * 2)
              (Z.to_nat (lineCount doc - (cursor + 1)))
              (cursor + 1) cursor) as (e & He & Hre & Halle); [lia..|].
  rewrite Hs. cbn [mbind option_bind]. rewrite He. cbn [mbind option_bind].
  exists s, e. split_and!; [done|lia|lia|lia|lia| |].
  - intros k Hk. apply Halls. lia.
  - intros k Hk. apply Halle. lia.
Qed.

(** The cursor line is not a parent line and is at the root. *)
Lemma resolveActiveBlock_root (cursor c p : Z) :
  contentLine doc cursor c → hasNestedContent doc cursor = Some false →
  getParentColumn doc cursor = Some p → p < 0 →
  resolveActiveBlock doc cursor = Some noActiveBlock.
Proof.
  intros (t & Ht & Hb & Hc) Hnested Hp Hp0.
  rewrite (resolveActiveBlock_content cursor t) by done.
  rewrite Hnested.
  cbn [mbind option_bind chooseActiveColumn].
  unfold getParentIndentationLevel. rewrite Hp.
  cbn [mbind option_bind].
  by destruct (Z.ltb_spec p 0); [|lia].
Qed.

(** Every cursor position falls in one of the four cases. *)
Lemma resolveActiveBlock_cases (cursor : Z) :
  resolveActiveBlock doc cursor = Some noActiveBlock
  ∨ (∃ c, contentLine doc cursor c
          ∧ hasNestedContent doc cursor = Some true)
  ∨ (∃ c p, contentLine doc cursor c
            ∧ hasNestedContent doc cursor = Some false
            ∧ getParentColumn doc cursor = Some p ∧ 0 ≤ p).
Proof.
  destruct (decide (0 ≤ cursor < lineCount doc)) as [Hr|Hr];
    [|left; by apply resolveActiveBlock_outside].
  destruct (lineAt_is_Some doc cursor Hr) as [t Ht].
  destruct (isBlank t) eqn:Hb;
    [left; apply resolveActiveBlock_blank; by exists t|].
  assert (contentLine doc cursor (getEffectiveIndentColumn t)) as Hc
    by by exists t.
  destruct (hasNestedContent_total doc cursor Hr) as [[|] Hn].
  { right. left. eauto. }
  destruct (getParentColumn_total doc cursor) as (p & Hp & Hp1); [lia|].
  destruct (Z.lt_ge_cases p 0).
  - left. by eapply resolveActiveBlock_root.
  - right. right. eauto 10.
Qed.

End Resolver.

(** ** The result of [updateDecorations] *)

Section Decorations.

Variable doc : list (list N).
Variable spacesPerIndent : Z.

Lemma resolveActiveBlock_total (cursor : Z) :
  ∃ ab, resolveActiveBlock doc cursor = Some ab.
Proof.
  destruct (resolveActiveBlock_cases doc cursor)
    as [H|[(c & Hc & Hn)|(c & p & Hc & Hn & Hp & Hp0)]]; [eauto| |].
  - destruct (resolveActiveBlock_parent doc cursor c) as (e & He & _);
      eauto.
  - destruct (resolveActiveBlock_child doc cursor c p)
      as (s & e & He & _); eauto.
Qed.

Lemma updateDecorations_spec (cursor : Z) :
  ∃ cols m ab,
    collectIndentColumns doc = Some cols
    ∧ resolveActiveBlock doc cursor = Some ab
    ∧ updateDecorations doc cursor spacesPerIndent = Some (mkGuides m ab)
    ∧ ∀ c rs, m !! c = Some rs
              ↔ c ∈ cols
                ∧ rangesForColumn doc c spacesPerIndent = Some rs
                ∧ rs ≠ [].
Proof.
  destruct (collectIndentColumns_spec doc) as (cols & Hcols & _).
  destruct (resolveActiveBlock_total cursor) as [ab Hab].
  destruct (buildColumnRanges_spec doc spacesPerIndent
              (merge_sort Z.le (elements cols)) ∅)
    as (m & Hm & Hin & _ & Hsound).
  exists cols, m, ab. split_and!; [done..| |].
  - unfold updateDecorations. rewrite Hcols. cbn [mbind option_bind].
    rewrite Hm. cbn [mbind option_bind]. by rewrite Hab.
  - assert (∀ c, c ∈ merge_sort Z.le (elements cols) ↔ c ∈ cols) as Hel.
    { intros c. by rewrite merge_sort_Permutation, elem_of_elements. }
    intros c rs. split.
    + intros [Hc|(Hc1 & Hc2 & Hc3)]%Hsound; [by rewrite lookup_empty in Hc|].
      by rewrite <- Hel.
    + intros (Hc1 & Hc2 & Hc3). apply Hin; [by apply Hel|done..].
Qed.

(** A structural column with a non-empty block is a key of the map, and
    its ranges cover exactly the lines its blocks reach. *)
Lemma columnRanges_covers (cursor c h l : Z) (cols : gset Z) :
  collectIndentColumns doc = Some cols → c ∈ cols →
  blockCovers doc c h l →
  ∃ g ranges,
    updateDecorations doc cursor spacesPerIndent = Some g
    ∧ columnRanges g !! c = Some ranges
    ∧ ∀ k, coversLine ranges k ↔ ∃ h', blockCovers doc c h' k.
Proof.
  intros Hcols Hc Hcov.
  destruct (updateDecorations_spec cursor)
    as (cols' & m & ab & Hcols' & _ & Hres & Hiff).
  assert (cols' = cols) as Hsame by congruence. subst cols'.
  destruct (rangesForColumn_spec doc spacesPerIndent c)
    as (ls & Hrs & _ & Hls).
  exists (mkGuides m ab), (guideRange c spacesPerIndent <$> ls).
  split_and!; [done| |].
  - apply Hiff. split_and!; [done..|].
    assert (l ∈ ls) as Hl by (apply Hls; eauto).
    intros Hnil. apply fmap_nil_inv in Hnil. rewrite Hnil in Hl.
    by apply elem_of_nil in Hl.
  - intros k. unfold coversLine. by rewrite rangeLines_guideRange.
Qed.

(** The keys of the map are structural columns whose ranges are sorted
    by line. *)
Lemma columnRanges_sorted (cursor c : Z) (g : Guides) (ranges : list Range) :
  updateDecorations doc cursor spacesPerIndent = Some g →
  columnRanges g !! c = Some ranges →
  StronglySorted Z.lt (rangeLines ranges)
  ∧ ∀ k, coversLine ranges k ↔ ∃ h, blockCovers doc c h k.
Proof.
  intros Hg Hc.
  destruct (updateDecorations_spec cursor)
    as (cols & m & ab & _ & _ & Hres & Hiff).
  assert (g = mkGuides m ab) as Hgm by congruence.
  rewrite Hgm in Hc. simpl in Hc.
  destruct (proj1 (Hiff c ranges) Hc) as (_ & Hrs & _).
  destruct (rangesForColumn_spec doc spacesPerIndent c)
    as (ls & Hrs' & Hsort & Hls).
  simplify_eq. unfold coversLine. by rewrite rangeLines_guideRange.
Qed.

Lemma getParentColumn_nonneg_inv (i p : Z) (t : list N) :
  lineAt doc i = Some t → getParentColumn doc i = Some p → 0 ≤ p →
  ∃ j, j < i ∧ contentLine doc j p ∧ p < getEffectiveIndentColumn t
       ∧ ∀ k, j < k < i →
              absorbed doc (getEffectiveIndentColumn t - 1) k.
Proof.
  intros Ht Hp Hp0.
  destruct (Z.le_gt_cases i 0) as [Hi|Hi].
  { rewrite getParentColumn_first in Hp by done. simplify_eq. lia. }
  destruct (decide (getEffectiveIndentColumn t = 0)) as [Hc|Hc].
  { rewrite (getParentColumn_column0 doc i t) in Hp by done.
    simplify_eq. lia. }
  destruct (getParentColumn_spec doc i t)
    as [(j & t' & Hj & Ht' & Hb' & Hlt & Hall & Hres)|[_ Hres]];
    [lia|done|done| |].
  - assert (p = getEffectiveIndentColumn t') as -> by congruence.
    exists j. split_and!; [lia|by exists t'|done..].
  - assert (p = -1) by congruence. lia.
Qed.

(** When the level round trip is exact, the active span lies inside one
    block of the active column, and that column is structural. *)
Lemma active_block_head (cursor c0 : Z) (ab : ActiveBlock) (cols : gset Z) :
  collectIndentColumns doc = Some cols →
  resolveActiveBlock doc cursor = Some ab →
  0 ≤ activeIndentColumn ab →
  unroundedActiveColumn doc cursor = Some c0 → Z.even c0 = true →
  activeIndentColumn ab = c0 ∧ c0 ∈ cols
  ∧ ∃ h l0, blockCovers doc c0 h l0
            ∧ ∀ k, activeBlockStart ab ≤ k ≤ activeBlockEnd ab →
                   blockCovers doc c0 h k.
Proof.
  intros Hcols Hab Hcol Hc0 Heven.
  destruct (collectIndentColumns_spec doc) as (cols' & Hcols' & _ & Hpar).
  assert (cols' = cols) as Hsame by congruence. subst cols'.
  destruct (resolveActiveBlock_cases doc cursor)
    as [Hnone|[(c & Hc & Hn)|(c & p & Hc & Hn & Hp & Hp0)]].
  { rewrite Hnone in Hab. simplify_eq. simpl in Hcol. lia. }
  - (* the cursor line is a parent line *)
    pose proof Hc as (t & Ht & Hb & Hct).
    unfold unroundedActiveColumn in Hc0. rewrite Ht, Hn in Hc0.
    cbn [mbind option_bind] in Hc0. simplify_eq.
    destruct (resolveActiveBlock_parent doc cursor _ Hc Hn)
      as (e & He & Hre & Hall).
    rewrite He in Hab. simplify_eq. cbn [activeIndentColumn
      activeBlockStart activeBlockEnd].
    change (getEffectiveIndentColumn t / 2 * 2)
      with (getIndentationColumn (getEffectiveIndentColumn t / 2)) in *.
    rewrite getIndentationColumn_level_exact in * by done.
    apply hasNestedContent_true_inv in Hn
      as (c' & j & d & Hc' & Hnext & Hd & Hlt).
    rewrite <- (contentLine_fun doc cursor _ _ Hc Hc') in Hlt.
    pose proof Hnext as (Hj & _ & Hbl).
    split_and!; [done| |].
    + eapply (Hpar j d); [done| |apply getEffectiveIndentColumn_nonneg].
      by eapply getParentColumn_of_child.
    + exists cursor, j. split.
      * split_and!; [done..|]. intros k Hk.
        destruct (decide (k = j)) as [->|];
          [by eapply contentLine_absorbed|].
        apply blankLine_absorbed, Hbl. lia.
      * intros k Hk. split_and!; [done|lia|].
        intros k' Hk'. apply Hall. lia.
  - (* the cursor line is a leaf with a parent *)
    pose proof Hc as (t & Ht & Hb & Hct).
    unfold unroundedActiveColumn in Hc0. rewrite Ht, Hn in Hc0.
    cbn [mbind option_bind] in Hc0. simplify_eq.
    destruct (resolveActiveBlock_child doc cursor _ c0 Hc Hn Hc0 Hp0)
      as (s & e & He & Hrs & Hre & Halls & Halle).
    rewrite He in Hab. simplify_eq. cbn [activeIndentColumn
      activeBlockStart activeBlockEnd].
    change (c0 / 2 * 2) with (getIndentationColumn (c0 / 2)) in *.
    rewrite getIndentationColumn_level_exact in * by done.
    destruct (getParentColumn_nonneg_inv cursor c0 t Ht Hc0 Hp0)
      as (j & Hj & Hcj & Hlt & Hbetween).
    assert (j < s) as Hjs.
    { destruct (Z.lt_ge_cases j s) as [|Hge]; [done|exfalso].
      apply (absorbed_not_stopper doc c0 j); [apply Halls; lia|].
      by eapply contentLine_stopper. }
    assert (∀ k, j < k ≤ e → absorbed doc c0 k) as Hrun.
    { intros k Hk.
      destruct (Z.lt_trichotomy k cursor) as [Hlt'|[->|Hgt]].
      - apply (absorbed_mono doc (getEffectiveIndentColumn t - 1));
          [lia|]. apply Hbetween. lia.
      - by eapply contentLine_absorbed.
      - apply Halle. lia. }
    split_and!; [done|by eapply (Hpar cursor)|].
    exists j, cursor. split.
    + split_and!; [done..|]. intros k Hk. apply Hrun. lia.
    + intros k Hk. split_and!; [done|lia|].
      intros k' Hk'. apply Hrun. lia.
Qed.

End Decorations.

Section ActiveColumn.

Variable doc : list (list N).

Lemma resolveActiveBlock_column (cursor : Z) (ab : ActiveBlock) :
  resolveActiveBlock doc cursor = Some ab →
  ab = noActiveBlock
  ∨ ∃ c0, 0 ≤ c0 ∧ unroundedActiveColumn doc cursor = Some c0
          ∧ activeIndentColumn ab = getIndentationColumn (c0 / 2).
Proof.
  intros Hab.
  destruct (resolveActiveBlock_cases doc cursor)
    as [Hnone|[(c & Hc & Hn)|(c & p & Hc & Hn & Hp & Hp0)]].
  - left. congruence.
  - right. exists c. pose proof Hc as (t & Ht & Hb & Hct).
    destruct (resolveActiveBlock_parent doc cursor c Hc Hn) as (e & He & _).
    split_and!.
    + rewrite <- Hct. apply getEffectiveIndentColumn_nonneg.
    + unfold unroundedActiveColumn. rewrite Ht, Hn. simpl. by rewrite Hct.
    + rewrite He in Hab. by simplify_eq.
  - right. exists p. pose proof Hc as (t & Ht & Hb & Hct).
    destruct (resolveActiveBlock_child doc cursor c p Hc Hn Hp Hp0)
      as (s & e & He & _).
    split_and!; [done| |].
    + unfold unroundedActiveColumn. by rewrite Ht, Hn.
    + rewrite He in Hab. by simplify_eq.
Qed.

Lemma getIndentationColumn_level_le (c : Z) :
  0 ≤ c → getIndentationColumn (c / 2) ≤ c.
Proof.
  intros Hc. unfold getIndentationColumn.
  pose proof (Z.mul_div_le c 2). lia.
Qed.

End ActiveColumn.

(** * The claims *)

(** C3. [getEffectiveIndentColumn] is a function on every string, given by
    the scan of the leading characters: a space adds 1, a tab adds 4, any
    other character ends the scan without being counted, a dash followed by
    a space among them; on ["  - a"] the result is 2. *)
Theorem getEffectiveIndentColumn_scan (line : list N) (c : N) (s : list N) :
  getEffectiveIndentColumn line = effectiveColumnSpec line
  ∧ getEffectiveIndentColumn [] = 0
  ∧ getEffectiveIndentColumn (c :: s)
    = (if N.eqb c SPACE then 1 + getEffectiveIndentColumn s
       else if N.eqb c TAB then 4 + getEffectiveIndentColumn s
       else 0)
  ∧ getEffectiveIndentColumn (DASH :: SPACE :: s) = 0
  ∧ getEffectiveIndentColumn (js "  - a") = 2.
Proof.
  split_and!; [apply getEffectiveIndentColumn_spec|done|
               |by rewrite getEffectiveIndentColumn_spec|done].
  rewrite !getEffectiveIndentColumn_spec. simpl.
  destruct (N.eqb c SPACE); [done|]. destruct (N.eqb c TAB); [done|].
  destruct s; [done|]. by destruct (_ && _).
Qed.

(** C4. Prepending more spaces never lowers the effective column: for
    [n <= m], the column of [n] spaces followed by [s] is at most that of
    [m] spaces followed by [s]. *)
Theorem getEffectiveIndentColumn_spaces_mono (s : list N) (n m : nat) :
  (n ≤ m)%nat →
  getEffectiveIndentColumn (replicate n SPACE ++ s)
  ≤ getEffectiveIndentColumn (replicate m SPACE ++ s).
Proof.
  intros Hnm. rewrite !getEffectiveIndentColumn_spec.
  rewrite !effectiveColumnSpec_spaces. lia.
Qed.

Lemma getEffectiveIndentColumn_spaces_mono_witness :
  getEffectiveIndentColumn (replicate 1 SPACE ++ js "- a")
  ≤ getEffectiveIndentColumn (replicate 3 SPACE ++ js "- a").
Proof. apply (getEffectiveIndentColumn_spaces_mono (js "- a") 1 3). lia. Defined.

(** C8. On the document ["a:"; "  b: 1"; ""; "  c: 2"] with the cursor on
    line 0 the active block is column 0 with span (1,3); line 2, which is
    blank, lies inside the span. *)
Theorem blank_line_inside_active_span (spacesPerIndent : Z) :
  activeBlock <$> updateDecorations nestedDoc 0 spacesPerIndent
  = Some (mkActiveBlock 0 1 3)
  ∧ blankLine nestedDoc 2.
Proof.
  split; [done|]. by exists [].
Qed.

(** C5. For a line [i] of the document, [hasNestedContent] answers false
    when [i] is the last line and when line [i] is blank; when line [i] is
    not blank and [j] is the first non-blank line after it, the answer is
    whether line [j] is strictly deeper than line [i], whatever follows
    [j]; and when only blank lines follow, the answer is false. *)
Theorem hasNestedContent_first_content_line (doc : list (list N)) (i : Z) :
  0 ≤ i < lineCount doc →
  (i = lineCount doc - 1 → hasNestedContent doc i = Some false)
  ∧ (blankLine doc i → hasNestedContent doc i = Some false)
  ∧ (∀ c j d, contentLine doc i c → nextContentLine doc i j →
              contentLine doc j d →
              hasNestedContent doc i = Some (c <? d))
  ∧ ((∀ k, i < k < lineCount doc → blankLine doc k) →
     hasNestedContent doc i = Some false).
Proof.
  intros Hi. split_and!.
  - intros ->. by apply hasNestedContent_last.
  - apply hasNestedContent_blank.
  - intros c j d. apply hasNestedContent_next.
  - intros Hall. by apply hasNestedContent_no_next.
Qed.

Lemma hasNestedContent_first_content_line_witness :
  hasNestedContent nestedDoc 1 = Some (2 <? 2)
  ∧ hasNestedContent nestedDoc 3 = Some false.
Proof.
  split.
  - refine (proj1 (proj2 (proj2
      (hasNestedContent_first_content_line nestedDoc 1 _))) 2 3 2 _ _ _).
    + unfold lineCount. simpl. lia.
    + by exists (js "  b: 1").
    + split_and!; [lia|exists 2; by exists (js "  c: 2")|].
      intros k Hk. assert (k = 2) as -> by lia. by exists [].
    + by exists (js "  c: 2").
  - refine (proj1 (hasNestedContent_first_content_line nestedDoc 3 _) _).
    + unfold lineCount. simpl. lia.
    + reflexivity.
Defined.

(** C6. For a line [i] of the document, [getParentColumn] answers -1 when
    [i] is 0 and when the effective column of line [i] is 0; otherwise it
    answers the effective column of the nearest preceding non-blank line
    that is strictly shallower than line [i], and -1 when no preceding
    non-blank line is strictly shallower. *)
Theorem getParentColumn_nearest_shallower (doc : list (list N)) (i : Z)
    (t : list N) :
  lineAt doc i = Some t →
  (i = 0 ∨ getEffectiveIndentColumn t = 0 →
   getParentColumn doc i = Some (-1))
  ∧ (0 < i → getEffectiveIndentColumn t ≠ 0 →
     (∀ j p, nearestShallower doc i j → contentLine doc j p →
             getParentColumn doc i = Some p)
     ∧ ((∀ j, ¬ shallowerBefore doc i j) →
        getParentColumn doc i = Some (-1))).
Proof.
  intros Ht. split.
  - intros [->|Hc]; [by apply getParentColumn_first|].
    by eapply getParentColumn_column0.
  - intros Hi Hc.
    destruct (getParentColumn_spec doc i t Hi Ht Hc)
      as [(j & t' & Hj & Ht' & Hb' & Hlt & Hall & Hres)|[Hall Hres]].
    + assert (shallowerBefore doc i j) as Hsh.
      { split; [lia|]. by exists t, t'. }
      split.
      * intros j' p [Hsh' Hmax'] Hp.
        assert (j' = j) as ->.
        { pose proof (Hmax' j Hsh).
          destruct (Z.lt_ge_cases j j') as [Hlt'|]; [exfalso|lia].
          destruct Hsh' as (Hji & t1 & t2 & Ht1 & Ht2 & Hb2 & Hlt2).
          assert (t1 = t) as -> by congruence.
          apply (absorbed_not_stopper doc (getEffectiveIndentColumn t - 1) j').
          - apply Hall. lia.
          - exists t2. split_and!; [done..|lia]. }
        destruct Hp as (t2 & Ht2 & _ & <-). by simplify_eq.
      * intros Hnone. by destruct (Hnone j).
    + split; [|done].
      intros j p [(Hji & t1 & t2 & Ht1 & Ht2 & Hb2 & Hlt2) _] _. exfalso.
      assert (t1 = t) as -> by congruence.
      apply (absorbed_not_stopper doc (getEffectiveIndentColumn t - 1) j).
      * apply Hall. apply lineAt_Some_range in Ht2. lia.
      * exists t2. split_and!; [done..|lia].
Qed.

Lemma getParentColumn_nearest_shallower_witness :
  getParentColumn listDoc 2 = Some 0.
Proof.
  refine (proj1 (proj2 (getParentColumn_nearest_shallower listDoc 2
            (js "  - y") _) _ _) 0 0 _ _).
  - reflexivity.
  - lia.
  - vm_compute. discriminate.
  - split.
    + split; [lia|]. exists (js "  - y"), (js "a:").
      split_and!; [reflexivity..|]. vm_compute. reflexivity.
    + intros k (Hk & t1 & t2 & Ht1 & Ht2 & Hb2 & Hlt2).
      apply lineAt_Some_range in Ht2 as Hr.
      destruct (decide (k = 0)) as [->|]; [lia|].
      assert (k = 1) as -> by lia. exfalso. revert Hlt2.
      change (lineAt listDoc 2) with (Some (js "  - y")) in Ht1.
      change (lineAt listDoc 1) with (Some (js "  - x")) in Ht2.
      assert (t1 = js "  - y") as -> by congruence.
      assert (t2 = js "  - x") as -> by congruence.
      vm_compute. discriminate.
  - by exists (js "a:").
Defined.

(** C1, as stated, fails: on [" a:"; "   b"] with the cursor on line 0
    the active block is column 0 with span (1,1), and column 0 is not a key
    of the map. *)
Lemma active_span_not_covered_odd_column :
  ¬ (∀ g, updateDecorations oddDoc 0 1 = Some g →
          0 ≤ activeIndentColumn (activeBlock g) →
          activeBlockStart (activeBlock g) ≤ activeBlockEnd (activeBlock g) →
          activeSpanCovered g).
Proof.
  intros Hclaim.
  destruct (updateDecorations oddDoc 0 1) as [g|] eqn:Hg; [|by vm_compute in Hg].
  destruct (Hclaim g eq_refl) as (ranges & Hkey & _).
  - vm_compute in Hg. injection Hg as <-. simpl. lia.
  - vm_compute in Hg. injection Hg as <-. simpl. lia.
  - vm_compute in Hg. injection Hg as <-. vm_compute in Hkey. discriminate.
Qed.

(** C1, amended. Whenever the computation yields an active block and the
    column it is derived from (the cursor line's own effective column when
    the cursor line has nested content, its parent column otherwise) is
    even, the active column is a key of the map and every line of the
    active span carries a guide range of that column. *)
Theorem active_span_covered_even_column (doc : list (list N))
    (cursor spacesPerIndent : Z) (g : Guides) (c0 : Z) :
  updateDecorations doc cursor spacesPerIndent = Some g →
  0 ≤ activeIndentColumn (activeBlock g) →
  unroundedActiveColumn doc cursor = Some c0 → Z.even c0 = true →
  activeSpanCovered g.
Proof.
  intros Hg Hcol Hc0 Heven.
  destruct (updateDecorations_spec doc spacesPerIndent cursor)
    as (cols & m & ab & Hcols & Hab & Hres & _).
  assert (g = mkGuides m ab) as Hgm by congruence.
  rewrite Hgm in Hcol. simpl in Hcol.
  destruct (active_block_head doc cursor c0 ab cols Hcols Hab Hcol Hc0 Heven)
    as (Hsame & Hin & h & l0 & Hcov0 & Hspan).
  destruct (columnRanges_covers doc spacesPerIndent cursor c0 h l0 cols
              Hcols Hin Hcov0) as (g' & ranges & Hg' & Hkey & Hiff).
  assert (g' = g) as -> by congruence.
  exists ranges. rewrite Hgm in *. simpl in *. rewrite Hsame.
  split; [done|]. intros k Hk. apply Hiff. exists h. by apply Hspan.
Qed.

Lemma active_span_covered_even_column_witness :
  ∃ g, updateDecorations listDoc 1 1 = Some g ∧ activeSpanCovered g.
Proof.
  eexists. split; [vm_compute; reflexivity|].
  apply (active_span_covered_even_column listDoc 1 1 _ 0).
  - vm_compute. reflexivity.
  - simpl. lia.
  - vm_compute. reflexivity.
  - reflexivity.
Defined.

(** C2, as stated, fails: in [" a:"; "   b"] line 0 has a child, and the
    only key of the map is column 1. *)
Lemma column0_not_key_without_root_line :
  ¬ ((∃ i, hasChild oddDoc i) →
     ∀ g, updateDecorations oddDoc 0 1 = Some g →
          is_Some (columnRanges g !! 0)).
Proof.
  intros Hclaim.
  assert (∃ i, hasChild oddDoc i) as Hchild.
  { exists 0. by apply hasNestedContent_true_inv. }
  destruct (updateDecorations oddDoc 0 1) as [g|] eqn:Hg; [|by vm_compute in Hg].
  destruct (Hclaim Hchild g eq_refl) as [ranges Hkey].
  vm_compute in Hg. injection Hg as <-. vm_compute in Hkey. discriminate.
Qed.

(** C2, amended. For every document in which some non-blank line of
    effective column 0 has a child, column 0 is a key of the map. *)
Theorem column0_key_when_root_line_has_child (doc : list (list N))
    (cursor spacesPerIndent i : Z) :
  contentLine doc i 0 → hasChild doc i →
  ∃ g ranges,
    updateDecorations doc cursor spacesPerIndent = Some g
    ∧ columnRanges g !! 0 = Some ranges.
Proof.
  intros Hroot (c & j & d & Hc & Hnext & Hd & Hlt).
  rewrite <- (contentLine_fun doc i _ _ Hroot Hc) in Hlt.
  destruct (collectIndentColumns_spec doc) as (cols & Hcols & Hzero & _).
  pose proof Hnext as (Hij & _ & Hbl).
  destruct (columnRanges_covers doc spacesPerIndent cursor 0 i j cols
              Hcols Hzero) as (g & ranges & Hg & Hkey & _).
  - split_and!; [done..|]. intros k Hk.
    destruct (decide (k = j)) as [->|]; [by eapply contentLine_absorbed|].
    apply blankLine_absorbed, Hbl. lia.
  - by exists g, ranges.
Qed.

Lemma column0_key_when_root_line_has_child_witness :
  ∃ g ranges,
    updateDecorations nestedDoc 3 1 = Some g
    ∧ columnRanges g !! 0 = Some ranges.
Proof.
  apply (column0_key_when_root_line_has_child nestedDoc 3 1 0).
  - by exists (js "a:").
  - by apply hasNestedContent_true_inv.
Defined.

(** C7. In the result, the guide ranges of a column [c] carry pairwise
    distinct, strictly increasing line numbers; a line carries a range of
    column [c] exactly when it lies in the interval [(h, blockEnd h)] that
    the range builder scans for some block head [h] of column [c]; and the
    intervals of two distinct block heads of one column share no line. *)
Theorem guide_ranges_disjoint_per_column (doc : list (list N))
    (cursor spacesPerIndent : Z) (g : Guides) (c : Z) :
  updateDecorations doc cursor spacesPerIndent = Some g →
  (∀ ranges, columnRanges g !! c = Some ranges →
     NoDup (rangeLines ranges)
     ∧ StronglySorted Z.lt (rangeLines ranges)
     ∧ ∀ l, coversLine ranges l
            ↔ ∃ h e, contentLine doc h c ∧ blockEndOf doc c h = Some e
                     ∧ h < l ≤ e)
  ∧ ∀ h h' e e' l,
      contentLine doc h c → contentLine doc h' c →
      blockEndOf doc c h = Some e → blockEndOf doc c h' = Some e' →
      h < l ≤ e → h' < l ≤ e' → h = h'.
Proof.
  intros Hg. split.
  - intros ranges Hkey.
    destruct (columnRanges_sorted doc spacesPerIndent cursor c g ranges
                Hg Hkey) as [Hsort Hiff].
    split_and!; [|done|].
    + clear -Hsort.
      induction Hsort as [|x l _ IH Hall]; constructor; [|done].
      intros Hin. rewrite Forall_forall in Hall.
      specialize (Hall x Hin). lia.
    + intros l. rewrite Hiff. split.
      * intros (h & Hcov). pose proof Hcov as (Hh & _).
        destruct (blockEndOf_spec doc c h) as (e & He & _).
        { destruct Hh as (t & Ht & _). by apply lineAt_Some_range in Ht. }
        exists h, e. split_and!; [done..| |];
          apply (blockCovers_blockEndOf doc c h l e Hh He) in Hcov; lia.
      * intros (h & e & Hh & He & Hl). exists h.
        by apply (blockCovers_blockEndOf doc c h l e Hh He).
  - intros h h' e e' l Hh Hh' He He' Hl Hl'.
    apply (blockCovers_blockEndOf doc c h l e Hh He) in Hl
      as (_ & Hhl & Habs).
    apply (blockCovers_blockEndOf doc c h' l e' Hh' He') in Hl'
      as (_ & Hhl' & Habs').
    destruct (Z.lt_trichotomy h h') as [Hlt|[->|Hlt]]; [exfalso|done|exfalso].
    + apply (absorbed_not_stopper doc c h'); [apply Habs; lia|].
      by eapply contentLine_stopper.
    + apply (absorbed_not_stopper doc c h); [apply Habs'; lia|].
      by eapply contentLine_stopper.
Qed.

Lemma guide_ranges_disjoint_per_column_witness :
  ∃ g ranges,
    updateDecorations listDoc 1 1 = Some g
    ∧ columnRanges g !! 0 = Some ranges
    ∧ NoDup (rangeLines ranges).
Proof.
  eexists _, _. split_and!; [vm_compute; reflexivity|vm_compute; reflexivity|].
  refine (proj1 (proj1 (guide_ranges_disjoint_per_column listDoc 1 1 _ 0 _)
                   _ _)).
  - vm_compute. reflexivity.
  - vm_compute. reflexivity.
Defined.

(** C9. The computation returns a result for every document, every
    integer cursor line and every guide width; a cursor line outside the
    document gives no active block; the empty document gives the empty
    map and no active block. *)
Theorem updateDecorations_total (doc : list (list N))
    (cursor spacesPerIndent : Z) :
  (∃ g, updateDecorations doc cursor spacesPerIndent = Some g
        ∧ (cursor < 0 ∨ lineCount doc ≤ cursor →
           activeBlock g = noActiveBlock
           ∧ activeIndentColumn (activeBlock g) = -1))
  ∧ updateDecorations [] cursor spacesPerIndent
    = Some (mkGuides ∅ noActiveBlock).
Proof.
  split.
  - destruct (updateDecorations_spec doc spacesPerIndent cursor)
      as (cols & m & ab & _ & Hab & Hres & _).
    exists (mkGuides m ab). split; [done|]. intros Hout. simpl.
    rewrite resolveActiveBlock_outside in Hab by lia.
    by assert (ab = noActiveBlock) as -> by congruence.
  - unfold updateDecorations.
    rewrite (resolveActiveBlock_outside [] cursor)
      by (unfold lineCount; simpl; lia).
    reflexivity.
Qed.

Lemma updateDecorations_total_witness :
  ∃ g, updateDecorations nestedDoc 4 1 = Some g
       ∧ activeIndentColumn (activeBlock g) = -1.
Proof.
  destruct (proj1 (updateDecorations_total nestedDoc 4 1)) as (g & Hg & Hout).
  exists g. split; [exact Hg|].
  apply Hout. right. unfold lineCount. simpl. lia.
Defined.

(** C10. The active column of every result is -1 or the round trip
    [getIndentationColumn (c0 / 2)] of a non-negative column [c0], hence
    even, non-negative and at most [c0]; and it can be strictly below the
    effective column of the cursor line, as on [" a:"; "   b"] with the
    cursor on line 0. *)
Theorem activeIndentColumn_even_or_none (doc : list (list N))
    (cursor spacesPerIndent : Z) :
  (∃ g, updateDecorations doc cursor spacesPerIndent = Some g
        ∧ (activeIndentColumn (activeBlock g) = -1
           ∨ ∃ c0, unroundedActiveColumn doc cursor = Some c0
                   ∧ activeIndentColumn (activeBlock g)
                     = getIndentationColumn (c0 / 2)
                   ∧ 0 ≤ activeIndentColumn (activeBlock g) ≤ c0
                   ∧ Z.even (activeIndentColumn (activeBlock g)) = true))
  ∧ (activeIndentColumn <$> (activeBlock <$> updateDecorations oddDoc 0 1)
     = Some 0
     ∧ getEffectiveIndentColumn <$> lineAt oddDoc 0 = Some 1).
Proof.
  split; [|done].
  destruct (updateDecorations_spec doc spacesPerIndent cursor)
    as (cols & m & ab & _ & Hab & Hres & _).
  exists (mkGuides m ab). split; [done|]. simpl.
  destruct (resolveActiveBlock_column doc cursor ab Hab)
    as [->|(c0 & Hc0 & Hun & Hcol)]; [by left|].
  right. exists c0. rewrite Hcol. split_and!; [done..| | |].
  - by apply getIndentationColumn_level_nonneg.
  - by apply getIndentationColumn_level_le.
  - apply getIndentationColumn_level_even.
Qed.


(** * Further properties of the structural computation *)

(** ** The column collector collects exactly the parent columns *)

Section CollectorExact.

Variable doc : list (list N).

Lemma findLineAtColumn_content (parentCol : Z) (n : nat) :
  ∀ j j', findLineAtColumn doc parentCol n j = Some (Some j') →
          contentLine doc j' parentCol.
Proof.
  induction n as [|n IH]; intros j j'; cbn [findLineAtColumn]; [done|].
  destruct (lineAt doc j) as [t|] eqn:Ht; [|done]. cbn [mbind option_bind].
  destruct (isBlank t) eqn:Hb; [apply IH|].
  destruct (Z.eqb_spec (getEffectiveIndentColumn t) parentCol); [|apply IH].
  intros [= <-]. by exists t.
Qed.

Lemma addAncestorColumns_sound (depth : nat) :
  ∀ lineNum c st st',
    contentLine doc lineNum c → onlyParentColumns doc st →
    addAncestorColumns doc depth lineNum st = Some st' →
    onlyParentColumns doc st'.
Proof.
  induction depth as [|depth IH]; intros lineNum c st st' Hc Hsound;
    cbn [addAncestorColumns]; [done|].
  destruct (decide (lineNum ∈ processedLines st)); [by intros [= <-]|].
  destruct (getParentColumn doc lineNum) as [p|] eqn:Hp; [|done].
  cbn [mbind option_bind].
  destruct (Z.leb_spec 0 p) as [Hp0|Hp0].
  - assert (onlyParentColumns doc
              (mkCollectorState
                 ({[p]} ∪ indentColumns
                            (mkCollectorState (indentColumns st)
                               ({[lineNum]} ∪ processedLines st)))
                 (processedLines
                    (mkCollectorState (indentColumns st)
                       ({[lineNum]} ∪ processedLines st))))) as Hsound2.
    { intros q. cbn [indentColumns].
      intros [->%elem_of_singleton|Hq]%elem_of_union; [|by apply Hsound].
      split; [done|]. by exists lineNum, c. }
    destruct (findLineAtColumn doc p (Z.to_nat lineNum) (lineNum - 1))
      as [[j|]|] eqn:Hfind; cbn [mbind option_bind]; [|by intros [= <-]|done].
    apply (IH j p); [|done].
    by eapply findLineAtColumn_content.
  - intros [= <-]. intros q. cbn [indentColumns]. apply Hsound.
Qed.

Lemma collectLoop_sound (n : nat) :
  ∀ i st st', onlyParentColumns doc st →
              collectLoop doc n i st = Some st' →
              onlyParentColumns doc st'.
Proof.
  induction n as [|n IH]; intros i st st' Hsound; cbn [collectLoop];
    [by intros [= <-]|].
  destruct (lineAt doc i) as [t|] eqn:Ht; [|done]. cbn [mbind option_bind].
  destruct (isBlank t) eqn:Hb; [by apply IH|].
  destruct (addAncestorColumns doc (S (Z.to_nat i)) i st) as [st1|] eqn:Hadd;
    [|done].
  cbn [mbind option_bind]. apply IH.
  eapply (addAncestorColumns_sound _ i (getEffectiveIndentColumn t));
    [by exists t|done..].
Qed.

Lemma collectIndentColumns_exact :
  ∃ cols, collectIndentColumns doc = Some cols
          ∧ ∀ c, c ∈ cols ↔ c = 0 ∨ isParentColumn doc c.
Proof.
  destruct (collectIndentColumns_spec doc) as (cols & Hcols & Hzero & Hpar).
  exists cols. split; [done|]. intros c. split.
  - unfold collectIndentColumns in Hcols.
    destruct (collectLoop doc (length doc) 0 (mkCollectorState ∅ ∅))
      as [st|] eqn:Hloop; [|done].
    cbn [mbind option_bind] in Hcols. injection Hcols as <-.
    intros [->%elem_of_singleton|Hc]%elem_of_union; [by left|right].
    assert (onlyParentColumns doc st) as Hsound; [|by apply Hsound].
    eapply collectLoop_sound; [|exact Hloop].
    intros q Hq. cbn [indentColumns] in Hq.
    by apply not_elem_of_empty in Hq.
  - intros [->|(Hc0 & l & d & Hl & Hp)]; [done|]. by eapply Hpar.
Qed.

(** The parent line that [getParentColumn] finds is followed by a deeper
    or blank line, so its block is not empty. *)
Lemma parent_block_not_empty (k c p : Z) :
  contentLine doc k c → getParentColumn doc k = Some p → 0 ≤ p →
  ∃ h, h < k ∧ contentLine doc h p ∧ p < c
       ∧ (∀ j, h < j < k → absorbed doc (c - 1) j)
       ∧ blockCovers doc p h (h + 1).
Proof.
  intros Hk Hp Hp0. pose proof Hk as (t & Ht & Hb & Hc).
  destruct (getParentColumn_nonneg_inv doc k p t Ht Hp Hp0)
    as (h & Hh & Hhp & Hlt & Hbetween).
  rewrite Hc in Hlt, Hbetween.
  exists h. split_and!; [done..|]. split_and!; [done|lia|].
  intros j Hj. assert (j = h + 1) as -> by lia.
  destruct (decide (h + 1 = k)) as [->|].
  - by eapply contentLine_absorbed.
  - apply (absorbed_mono doc (c - 1)); [lia|]. apply Hbetween. lia.
Qed.

End CollectorExact.

(** ** The keys and the ranges of the result *)

Section ResultShape.

Variable doc : list (list N).
Variable spacesPerIndent : Z.

Lemma blockCovers_first (c h l : Z) :
  blockCovers doc c h l → blockCovers doc c h (h + 1).
Proof.
  intros (Hh & Hl & Habs). split_and!; [done|lia|].
  intros k Hk. apply Habs. lia.
Qed.

Lemma blockCovers_inv (c h l : Z) :
  blockCovers doc c h l →
  0 ≤ c ∧ 0 ≤ h ∧ h < l < lineCount doc ∧ absorbed doc c l.
Proof.
  intros ((t & Ht & Hb & Hc) & Hl & Habs).
  apply lineAt_Some_range in Ht as Hr.
  pose proof (getEffectiveIndentColumn_nonneg t).
  destruct (Habs l) as (tl & Htl & Hal); [lia|].
  apply lineAt_Some_range in Htl as Hrl.
  split_and!; [lia..|]. by exists tl.
Qed.

Lemma columnRanges_keys (cursor : Z) (g : Guides) (c : Z) :
  updateDecorations doc cursor spacesPerIndent = Some g →
  is_Some (columnRanges g !! c)
  ↔ (c = 0 ∨ isParentColumn doc c)
    ∧ ∃ h, contentLine doc h c ∧ absorbed doc c (h + 1).
Proof.
  intros Hg.
  destruct (updateDecorations_spec doc spacesPerIndent cursor)
    as (cols & m & ab & Hcols & _ & Hres & Hiff).
  assert (g = mkGuides m ab) as Hgm by congruence. rewrite Hgm. simpl.
  destruct (collectIndentColumns_exact doc) as (cols' & Hcols' & Hexact).
  assert (cols' = cols) as Hsame by congruence. subst cols'.
  destruct (rangesForColumn_spec doc spacesPerIndent c)
    as (ls & Hrs & _ & Hls).
  split.
  - intros [rs Hkey]. destruct (proj1 (Hiff c rs) Hkey) as (Hc & Hrs' & Hne).
    split; [by apply Hexact|].
    assert (rs = guideRange c spacesPerIndent <$> ls) as -> by congruence.
    destruct ls as [|l ls]; [done|].
    destruct (proj1 (Hls l)) as (h & Hcov); [by left|].
    exists h. apply blockCovers_first in Hcov as (Hh & _ & Habs).
    split; [done|]. apply Habs. lia.
  - intros (Hc & h & Hh & Habs).
    exists (guideRange c spacesPerIndent <$> ls).
    apply Hiff. split_and!; [by apply Hexact|done|].
    assert (h + 1 ∈ ls) as Hin.
    { apply Hls. exists h. split_and!; [done|lia|].
      intros k Hk. by assert (k = h + 1) as -> by lia. }
    intros Hnil%fmap_nil_inv. rewrite Hnil in Hin.
    by apply elem_of_nil in Hin.
Qed.

Lemma columnRanges_shape (cursor : Z) (g : Guides) (c : Z)
    (ranges : list Range) (r : Range) :
  updateDecorations doc cursor spacesPerIndent = Some g →
  columnRanges g !! c = Some ranges → r ∈ ranges →
  r = guideRange c spacesPerIndent (startLine r)
  ∧ 0 ≤ c ∧ 0 < startLine r < lineCount doc
  ∧ absorbed doc c (startLine r).
Proof.
  intros Hg Hkey Hr.
  destruct (updateDecorations_spec doc spacesPerIndent cursor)
    as (cols & m & ab & _ & _ & Hres & Hiff).
  assert (g = mkGuides m ab) as Hgm by congruence.
  rewrite Hgm in Hkey. simpl in Hkey.
  destruct (proj1 (Hiff c ranges) Hkey) as (_ & Hrs & _).
  destruct (rangesForColumn_spec doc spacesPerIndent c)
    as (ls & Hrs' & _ & Hls).
  assert (ranges = guideRange c spacesPerIndent <$> ls) as -> by congruence.
  apply list_elem_of_fmap in Hr as (l & -> & Hl).
  apply Hls in Hl as (h & Hcov). apply blockCovers_inv in Hcov.
  simpl. split_and!; [done|lia..|tauto].
Qed.

End ResultShape.

(** ** The extent of the active block *)

Section ActiveExtent.

Variable doc : list (list N).

Lemma activeForwardLoop_closed (c : Z) (n : nat) :
  ∀ i e0, 0 ≤ i → i + Z.of_nat n = lineCount doc → e0 < i →
    (∀ k, e0 < k < i → blankLine doc k) →
    ∃ e, activeForwardLoop doc c n i e0 = Some e
         ∧ (e = e0 ∨ (i ≤ e ∧ ∃ d, contentLine doc e d ∧ c < d))
         ∧ closedBelow doc c e.
Proof.
  induction n as [|n IH]; intros i e0 Hi Hn He0 Hblank;
    cbn [activeForwardLoop].
  - exists e0. split_and!; [done|by left|]. right.
    intros k Hk. apply Hblank. lia.
  - destruct (lineAt_is_Some doc i) as [t Ht]; [lia|]. rewrite Ht.
    cbn [mbind option_bind].
    destruct (isBlank t) eqn:Hb.
    + destruct (IH (i + 1) e0) as (e & He & Hcase & Hclosed); [lia..| |].
      { intros k Hk. destruct (decide (k = i)) as [->|]; [by exists t|].
        apply Hblank. lia. }
      exists e. split_and!; [done| |done].
      destruct Hcase as [->|[Hie Hd]]; [by left|right]. split; [lia|done].
    + destruct (Z.ltb_spec c (getEffectiveIndentColumn t)).
      * destruct (IH (i + 1) i) as (e & He & Hcase & Hclosed);
          [lia..|intros; lia|].
        exists e. split_and!; [done| |done]. right.
        destruct Hcase as [->|[Hie Hd]]; [|split; [lia|done]].
        split; [lia|]. exists (getEffectiveIndentColumn t).
        split; [by exists t|done].
      * exists e0. split_and!; [done|by left|]. left.
        exists i. split_and!; [done|by exists t|]. intros k Hk. by apply Hblank.
Qed.

Lemma activeBackwardLoop_closed (c : Z) (n : nat) :
  ∀ i s0, Z.of_nat n = i + 1 → i < lineCount doc → i < s0 →
    (∀ k, i < k < s0 → blankLine doc k) →
    ∃ s, activeBackwardLoop doc c n i s0 = Some s
         ∧ (s = s0 ∨ (s ≤ i ∧ ∃ d, contentLine doc s d ∧ c < d))
         ∧ closedAbove doc c s.
Proof.
  induction n as [|n IH]; intros i s0 Hn Hi Hs0 Hblank;
    cbn [activeBackwardLoop].
  - exists s0. split_and!; [done|by left|]. right.
    intros k Hk. apply Hblank. lia.
  - destruct (lineAt_is_Some doc i) as [t Ht]; [lia|]. rewrite Ht.
    cbn [mbind option_bind].
    destruct (isBlank t) eqn:Hb.
    + destruct (IH (i - 1) s0) as (s & Hs & Hcase & Hclosed); [lia..| |].
      { intros k Hk. destruct (decide (k = i)) as [->|]; [by exists t|].
        apply Hblank. lia. }
      exists s. split_and!; [done| |done].
      destruct Hcase as [->|[Hie Hd]]; [by left|right]. split; [lia|done].
    + destruct (Z.ltb_spec c (getEffectiveIndentColumn t)).
      * destruct (IH (i - 1) i) as (s & Hs & Hcase & Hclosed);
          [lia..|intros; lia|].
        exists s. split_and!; [done| |done]. right.
        destruct Hcase as [->|[Hie Hd]]; [|split; [lia|done]].
        split; [lia|]. exists (getEffectiveIndentColumn t).
        split; [by exists t|done].
      * exists s0. split_and!; [done|by left|]. left.
        exists i. split_and!; [done|by exists t|]. intros k Hk. by apply Hblank.
Qed.

(** The parent case: the span starts after the cursor line and ends on a
    non-blank line deeper than the active column. *)
Lemma resolveActiveBlock_parent_extent (cursor c : Z) :
  contentLine doc cursor c → hasNestedContent doc cursor = Some true →
  ∃ e, resolveActiveBlock doc cursor
       = Some (mkActiveBlock (c / 2 * 2) (cursor + 1) e)
       ∧ cursor < e
       ∧ (∃ d, contentLine doc e d ∧ c / 2 * 2 < d)
       ∧ (∀ k, cursor < k ≤ e → absorbed doc (c / 2 * 2) k)
       ∧ closedBelow doc (c / 2 * 2) e.
Proof.
  intros Hc Hn.
  destruct (resolveActiveBlock_parent doc cursor c Hc Hn)
    as (e & He & Hre & Hall).
  pose proof Hc as (t & Ht & Hb & Hct).
  apply lineAt_Some_range in Ht as Hr.
  destruct (activeForwardLoop_closed (c / 2 * 2)
              (Z.to_nat (lineCount doc - (cursor + 1))) (cursor + 1) cursor)
    as (e' & He' & Hcase & Hclosed); [lia..|intros; lia|].
  assert (e' = e) as ->.
  { rewrite (resolveActiveBlock_content doc cursor t Ht Hb) in He.
    rewrite Hn in He. cbn [mbind option_bind chooseActiveColumn] in He.
    unfold getIndentationColumn, getIndentationLevel in He.
    rewrite Hct in He.
    pose proof (getEffectiveIndentColumn_nonneg t) as Hnn.
    rewrite Hct in Hnn. apply getIndentationColumn_level_nonneg in Hnn.
    unfold getIndentationColumn in Hnn.
    destruct (Z.leb_spec 0 (c / 2 * 2)); [|lia].
    rewrite He' in He. cbn [mbind option_bind] in He. congruence. }
  exists e. split; [done|].
  apply hasNestedContent_true_inv in Hn as (c' & j & d & Hc' & Hnext & Hd & Hlt).
  rewrite <- (contentLine_fun doc cursor _ _ Hc Hc') in Hlt.
  assert (0 ≤ c) as Hc0.
  { rewrite <- Hct. apply getEffectiveIndentColumn_nonneg. }
  pose proof (getIndentationColumn_level_le c Hc0) as Hle.
  unfold getIndentationColumn in Hle.
  destruct Hcase as [->|[Hie Hdeep]].
  - exfalso. destruct Hnext as (Hj & _ & Hbl).
    destruct Hclosed as [(j' & Hj' & Hstop & Hbl')|Hbl'].
    + destruct (Z.lt_trichotomy j j') as [Hlt'|[->|Hlt']].
      * eapply (contentLine_not_blank doc j); [done|]. apply Hbl'. lia.
      * apply (absorbed_not_stopper doc (c / 2 * 2) j'); [|done].
        eapply contentLine_absorbed; [done|lia].
      * destruct Hstop as (t' & Ht' & Hb' & _).
        eapply (contentLine_not_blank doc j');
          [by exists t'|apply Hbl; lia].
    + eapply (contentLine_not_blank doc j); [done|]. apply Hbl'.
      destruct Hd as (tj & Htj & _). apply lineAt_Some_range in Htj. lia.
  - split_and!; [lia|done..].
Qed.

(** The leaf case: the span contains the cursor line, and both of its ends
    are non-blank lines deeper than the active column. *)
Lemma resolveActiveBlock_child_extent (cursor c p : Z) :
  contentLine doc cursor c → hasNestedContent doc cursor = Some false →
  getParentColumn doc cursor = Some p → 0 ≤ p →
  ∃ s e, resolveActiveBlock doc cursor
         = Some (mkActiveBlock (p / 2 * 2) s e)
         ∧ s ≤ cursor ≤ e
         ∧ (∃ d, contentLine doc s d ∧ p / 2 * 2 < d)
         ∧ (∃ d, contentLine doc e d ∧ p / 2 * 2 < d)
         ∧ (∀ k, s ≤ k ≤ e → absorbed doc (p / 2 * 2) k)
         ∧ closedAbove doc (p / 2 * 2) s
         ∧ closedBelow doc (p / 2 * 2) e.
Proof.
  intros Hc Hn Hp Hp0.
  destruct (resolveActiveBlock_child doc cursor c p Hc Hn Hp Hp0)
    as (s & e & He & Hrs & Hre & Halls & Halle).
  pose proof Hc as (t & Ht & Hb & Hct).
  apply lineAt_Some_range in Ht as Hr.
  destruct (activeBackwardLoop_closed (p / 2 * 2) (Z.to_nat cursor)
              (cursor - 1) cursor)
    as (s' & Hs' & Hcases & Hcloseds); [lia..|intros; lia|].
  destruct (activeForwardLoop_closed (p / 2 * 2)
              (Z.to_nat (lineCount doc - (cursor + 1))) (cursor + 1) cursor)
    as (e' & He' & Hcasee & Hclosede); [lia..|intros; lia|].
  assert (s' = s ∧ e' = e) as [-> ->].
  { rewrite (resolveActiveBlock_content doc cursor t Ht Hb) in He.
    rewrite Hn in He. cbn [mbind option_bind chooseActiveColumn] in He.
    unfold getParentIndentationLevel in He. rewrite Hp in He.
    cbn [mbind option_bind] in He.
    destruct (Z.ltb_spec p 0); [lia|].
    pose proof (level_nonneg p Hp0). cbn [mbind option_bind] in He.
    destruct (Z.leb_spec 0 (p / 2)); [|lia].
    cbn [mbind option_bind] in He. unfold getIndentationColumn in He.
    destruct (Z.leb_spec 0 (p / 2 * 2)); [|lia].
    rewrite Hs' in He. cbn [mbind option_bind] in He.
    rewrite He' in He. cbn [mbind option_bind] in He.
    split; congruence. }
  destruct (getParentColumn_nonneg_inv doc cursor p t Ht Hp Hp0)
    as (_ & _ & _ & Hlt & _).
  pose proof (getIndentationColumn_level_le p Hp0) as Hle.
  unfold getIndentationColumn in Hle.
  assert (∃ d, contentLine doc cursor d ∧ p / 2 * 2 < d) as Hcur.
  { exists c. split; [done|lia]. }
  exists s, e. split_and!; [done|lia|lia| | | |done|done].
  - destruct Hcases as [->|[_ Hd]]; done.
  - destruct Hcasee as [->|[_ Hd]]; done.
  - intros k Hk. destruct (Z.lt_trichotomy k cursor) as [Hlt'|[->|Hgt]].
    + apply Halls. lia.
    + destruct Hcur as (d & Hd & Hdlt). by eapply contentLine_absorbed.
    + apply Halle. lia.
Qed.

End ActiveExtent.

Section WalkerConsistency.

Variable doc : list (list N).

(** A non-blank line with a parent column has a parent line, and that
    line has nested content. *)
Lemma parent_line_has_nested_content (k c p : Z) :
  contentLine doc k c → getParentColumn doc k = Some p → 0 ≤ p →
  ∃ h, h < k ∧ contentLine doc h p
       ∧ hasNestedContent doc h = Some true.
Proof.
  intros Hk Hp Hp0.
  destruct (parent_block_not_empty doc k c p Hk Hp Hp0)
    as (h & Hhk & Hh & Hlt & Hbetween & _).
  exists h. split_and!; [done..|].
  pose proof Hh as (th & Hth & Hbh & Hch).
  pose proof Hk as (tk & Htk & Hbk & Hck).
  apply lineAt_Some_range in Hth as Hrh. apply lineAt_Some_range in Htk as Hrk.
  rewrite (hasNestedContent_unfold doc h th) by (done || lia).
  destruct (hasNestedLoop_spec doc (getEffectiveIndentColumn th)
              (Z.to_nat (lineCount doc - (h + 1))) (h + 1))
    as [(j & t' & Hj & Ht' & Hb' & Hall & Hres)|[Hall _]]; [lia..| |].
  - rewrite Hres. f_equal. apply Z.ltb_lt. rewrite Hch.
    destruct (Z.lt_trichotomy j k) as [Hjk|[->|Hjk]].
    + destruct (Hbetween j) as (t'' & Ht'' & Ha); [lia|].
      assert (t'' = t') as -> by congruence.
      destruct Ha as [Ha|Ha]; [congruence|lia].
    + assert (t' = tk) as -> by congruence. lia.
    + exfalso. eapply (contentLine_not_blank doc k); [done|].
      apply Hall. lia.
  - exfalso. eapply (contentLine_not_blank doc k); [done|]. apply Hall. lia.
Qed.

Lemma getParentColumn_below_own (i : Z) (t : list N) :
  lineAt doc i = Some t →
  ∃ p, getParentColumn doc i = Some p
       ∧ -1 ≤ p < getEffectiveIndentColumn t.
Proof.
  intros Ht. apply lineAt_Some_range in Ht as Hr.
  pose proof (getEffectiveIndentColumn_nonneg t) as Hnn.
  destruct (Z.le_gt_cases i 0) as [Hi|Hi].
  { exists (-1). split; [by apply getParentColumn_first|lia]. }
  destruct (decide (getEffectiveIndentColumn t = 0)) as [Hc|Hc].
  { exists (-1). split; [by eapply getParentColumn_column0|lia]. }
  destruct (getParentColumn_spec doc i t Hi Ht Hc)
    as [(j & t' & _ & _ & _ & Hlt & _ & Hres)|[_ Hres]].
  - exists (getEffectiveIndentColumn t'). split; [done|].
    pose proof (getEffectiveIndentColumn_nonneg t'). lia.
  - exists (-1). split; [done|lia].
Qed.

End WalkerConsistency.

(** * Further properties *)

(** X1. The column collector returns column 0 together with exactly the
    non-negative parent columns of the non-blank lines: the recursive walk
    up the ancestors adds nothing the pass over all lines does not. *)
Theorem structural_columns_exact (doc : list (list N)) :
  ∃ cols, collectIndentColumns doc = Some cols
          ∧ ∀ c, c ∈ cols ↔ c = 0 ∨ isParentColumn doc c.
Proof. apply collectIndentColumns_exact. Qed.

(** X2. A column is a key of the result exactly when it is structural and
    some non-blank line at that column is directly followed by a line that
    is blank or deeper; no key holds an empty list of ranges. *)
Theorem columnRanges_keys_exact (doc : list (list N))
    (cursor spacesPerIndent : Z) :
  ∃ g, updateDecorations doc cursor spacesPerIndent = Some g
       ∧ (∀ c, is_Some (columnRanges g !! c)
               ↔ (c = 0 ∨ isParentColumn doc c)
                 ∧ ∃ h, contentLine doc h c ∧ absorbed doc c (h + 1))
       ∧ ∀ c, columnRanges g !! c ≠ Some [].
Proof.
  destruct (updateDecorations_spec doc spacesPerIndent cursor)
    as (cols & m & ab & _ & _ & Hres & Hiff).
  exists (mkGuides m ab). split_and!; [done| |].
  - intros c. by apply (columnRanges_keys doc spacesPerIndent cursor).
  - intros c Hc. simpl in Hc. by destruct (proj1 (Hiff c []) Hc) as (_ & _ & ?).
Qed.

(** X3. Every non-blank line that has a parent column carries a guide
    range at that column: the parent column is a key of the result and its
    ranges cover the line. *)
Theorem line_guided_at_parent_column (doc : list (list N))
    (cursor spacesPerIndent k c p : Z) :
  contentLine doc k c → getParentColumn doc k = Some p → 0 ≤ p →
  ∃ g ranges,
    updateDecorations doc cursor spacesPerIndent = Some g
    ∧ columnRanges g !! p = Some ranges
    ∧ guideRange p spacesPerIndent k ∈ ranges.
Proof.
  intros Hk Hp Hp0.
  destruct (parent_block_not_empty doc k c p Hk Hp Hp0)
    as (h & Hhk & Hh & Hlt & Hbetween & _).
  assert (blockCovers doc p h k) as Hcov.
  { split_and!; [done..|]. intros j Hj.
    destruct (decide (j = k)) as [->|]; [by eapply contentLine_absorbed|].
    apply (absorbed_mono doc (c - 1)); [lia|]. apply Hbetween. lia. }
  destruct (collectIndentColumns_spec doc) as (cols & Hcols & _ & Hpar).
  destruct (columnRanges_covers doc spacesPerIndent cursor p h k cols Hcols)
    as (g & ranges & Hg & Hkey & Hiff);
    [exact (Hpar k c p Hk Hp Hp0)|done|].
  exists g, ranges. split_and!; [done..|].
  assert (coversLine ranges k) as Hin by (apply Hiff; eauto).
  apply list_elem_of_fmap in Hin as (r & -> & Hr).
  destruct (columnRanges_shape doc spacesPerIndent cursor g p ranges r
              Hg Hkey Hr) as (Hshape & _).
  by rewrite <- Hshape.
Qed.

Lemma line_guided_at_parent_column_witness :
  ∃ g ranges,
    updateDecorations listDoc 0 2 = Some g
    ∧ columnRanges g !! 0 = Some ranges
    ∧ guideRange 0 2 2 ∈ ranges.
Proof.
  apply (line_guided_at_parent_column listDoc 0 2 2 2 0).
  - by exists (js "  - y").
  - reflexivity.
  - lia.
Defined.

(** X4. Every guide range of a key [c] is the one-line range
    [(k, c, k, c + spacesPerIndent)] of a line [k] that is not the first
    line of the document and is blank or strictly deeper than [c]: a guide
    never sits on a line whose content starts at or left of its column. *)
Theorem guide_range_shape (doc : list (list N))
    (cursor spacesPerIndent : Z) (g : Guides) (c : Z)
    (ranges : list Range) (r : Range) :
  updateDecorations doc cursor spacesPerIndent = Some g →
  columnRanges g !! c = Some ranges → r ∈ ranges →
  r = mkRange (startLine r) c (startLine r) (c + spacesPerIndent)
  ∧ 0 ≤ c ∧ 0 < startLine r < lineCount doc
  ∧ absorbed doc c (startLine r).
Proof. apply columnRanges_shape. Qed.

Lemma guide_range_shape_witness :
  0 < 2 < lineCount nestedDoc ∧ absorbed nestedDoc 0 2.
Proof.
  destruct (updateDecorations nestedDoc 0 1) as [g|] eqn:Hg;
    [|by vm_compute in Hg].
  destruct (columnRanges g !! 0) as [ranges|] eqn:Hkey.
  - refine (proj2 (proj2 (guide_range_shape nestedDoc 0 1 g 0 ranges
                            (mkRange 2 0 2 1) Hg Hkey _))).
    vm_compute in Hg. injection Hg as <-. vm_compute in Hkey.
    injection Hkey as <-. apply list_elem_of_In. right. left. reflexivity.
  - vm_compute in Hg. injection Hg as <-. by vm_compute in Hkey.
Defined.

(** X5. When the cursor is on a line with nested content, the active
    column is the cursor line's own column rounded down to an even number,
    the span starts on the line after the cursor and ends strictly below
    it on a non-blank line deeper than the active column (never on a blank
    line); every line of the span is blank or deeper than the active
    column, and the first non-blank line after the span, if any, is at or
    left of the active column. *)
Theorem active_span_of_parent_line (doc : list (list N))
    (cursor spacesPerIndent c : Z) :
  contentLine doc cursor c → hasNestedContent doc cursor = Some true →
  ∃ g e,
    updateDecorations doc cursor spacesPerIndent = Some g
    ∧ activeBlock g
      = mkActiveBlock (getIndentationColumn (c / 2)) (cursor + 1) e
    ∧ cursor < e
    ∧ (∃ d, contentLine doc e d ∧ getIndentationColumn (c / 2) < d)
    ∧ (∀ k, cursor < k ≤ e →
            absorbed doc (getIndentationColumn (c / 2)) k)
    ∧ closedBelow doc (getIndentationColumn (c / 2)) e.
Proof.
  intros Hc Hn.
  destruct (resolveActiveBlock_parent_extent doc cursor c Hc Hn)
    as (e & He & Hlt & Hend & Hall & Hclosed).
  destruct (updateDecorations_spec doc spacesPerIndent cursor)
    as (cols & m & ab & _ & Hab & Hres & _).
  exists (mkGuides m ab), e. split; [done|].
  assert (ab = mkActiveBlock (c / 2 * 2) (cursor + 1) e) as -> by congruence.
  unfold getIndentationColumn. split_and!; (done || lia).
Qed.

Lemma active_span_of_parent_line_witness :
  ∃ g e,
    updateDecorations nestedDoc 0 1 = Some g
    ∧ activeBlock g = mkActiveBlock (getIndentationColumn (0 / 2)) (0 + 1) e
    ∧ 0 < e.
Proof.
  destruct (active_span_of_parent_line nestedDoc 0 1 0)
    as (g & e & Hg & Hab & He & _).
  - by exists (js "a:").
  - reflexivity.
  - by exists g, e.
Defined.

(** X6. When the cursor is on a non-blank line without nested content
    that has a parent column [p], the active column is [p] rounded down to
    an even number, the span contains the cursor line, both ends of the
    span are non-blank lines deeper than the active column, every line of
    the span is blank or deeper, and the nearest non-blank lines above and
    below the span, if any, are at or left of the active column. *)
Theorem active_span_of_leaf_line (doc : list (list N))
    (cursor spacesPerIndent c p : Z) :
  contentLine doc cursor c → hasNestedContent doc cursor = Some false →
  getParentColumn doc cursor = Some p → 0 ≤ p →
  ∃ g s e,
    updateDecorations doc cursor spacesPerIndent = Some g
    ∧ activeBlock g = mkActiveBlock (getIndentationColumn (p / 2)) s e
    ∧ s ≤ cursor ≤ e
    ∧ (∃ d, contentLine doc s d ∧ getIndentationColumn (p / 2) < d)
    ∧ (∃ d, contentLine doc e d ∧ getIndentationColumn (p / 2) < d)
    ∧ (∀ k, s ≤ k ≤ e → absorbed doc (getIndentationColumn (p / 2)) k)
    ∧ closedAbove doc (getIndentationColumn (p / 2)) s
    ∧ closedBelow doc (getIndentationColumn (p / 2)) e.
Proof.
  intros Hc Hn Hp Hp0.
  destruct (resolveActiveBlock_child_extent doc cursor c p Hc Hn Hp Hp0)
    as (s & e & He & Hin & Hstart & Hend & Hall & Habove & Hbelow).
  destruct (updateDecorations_spec doc spacesPerIndent cursor)
    as (cols & m & ab & _ & Hab & Hres & _).
  exists (mkGuides m ab), s, e. split; [done|].
  assert (ab = mkActiveBlock (p / 2 * 2) s e) as -> by congruence.
  unfold getIndentationColumn. split_and!; (done || lia).
Qed.

Lemma active_span_of_leaf_line_witness :
  ∃ g s e,
    updateDecorations listDoc 2 1 = Some g
    ∧ activeBlock g = mkActiveBlock (getIndentationColumn (0 / 2)) s e
    ∧ s ≤ 2 ≤ e.
Proof.
  destruct (active_span_of_leaf_line listDoc 2 1 2 0)
    as (g & s & e & Hg & Hab & Hin & _).
  - by exists (js "  - y").
  - reflexivity.
  - reflexivity.
  - lia.
  - by exists g, s, e.
Defined.

(** X7. There is no active block exactly when the cursor line is outside
    the document, or blank, or has neither nested content nor a parent
    column; the block is then the sentinel (-1, -1, -1), and in every
    other case the active column is not negative. *)
Theorem no_active_block_iff (doc : list (list N))
    (cursor spacesPerIndent : Z) :
  ∃ g, updateDecorations doc cursor spacesPerIndent = Some g
       ∧ (activeIndentColumn (activeBlock g) < 0
          ↔ ¬ (0 ≤ cursor < lineCount doc) ∨ blankLine doc cursor
            ∨ (hasNestedContent doc cursor = Some false
               ∧ getParentColumn doc cursor = Some (-1)))
       ∧ (activeIndentColumn (activeBlock g) < 0 →
          activeBlock g = noActiveBlock).
Proof.
  destruct (updateDecorations_spec doc spacesPerIndent cursor)
    as (cols & m & ab & _ & Hab & Hres & _).
  exists (mkGuides m ab). split; [done|]. simpl.
  destruct (decide (0 ≤ cursor < lineCount doc)) as [Hr|Hr].
  2:{ rewrite resolveActiveBlock_outside in Hab by done.
      assert (ab = noActiveBlock) as -> by congruence.
      split; [|done]. split; [by left|]. simpl. lia. }
  destruct (lineAt_is_Some doc cursor Hr) as [t Ht].
  destruct (isBlank t) eqn:Hb.
  { rewrite resolveActiveBlock_blank in Hab by by exists t.
    assert (ab = noActiveBlock) as -> by congruence.
    split; [|done]. split; [right; left; by exists t|]. simpl. lia. }
  assert (contentLine doc cursor (getEffectiveIndentColumn t)) as Hc
    by by exists t.
  assert (¬ blankLine doc cursor) as Hnb
    by (intros Hbl; by eapply contentLine_not_blank).
  pose proof (getEffectiveIndentColumn_nonneg t) as Hnn.
  destruct (hasNestedContent_total doc cursor Hr) as [[|] Hn].
  - destruct (resolveActiveBlock_parent doc cursor _ Hc Hn) as (e & He & _).
    assert (ab = mkActiveBlock (getEffectiveIndentColumn t / 2 * 2)
                   (cursor + 1) e) as -> by congruence.
    simpl. apply getIndentationColumn_level_nonneg in Hnn.
    unfold getIndentationColumn in Hnn.
    split; [|lia]. split; [lia|].
    intros [?|[?|[? _]]]; [done..|congruence].
  - destruct (getParentColumn_total doc cursor) as (p & Hp & Hp1); [lia|].
    destruct (Z.lt_ge_cases p 0) as [Hneg|Hpos].
    + rewrite (resolveActiveBlock_root doc cursor _ p Hc Hn Hp Hneg) in Hab.
      assert (ab = noActiveBlock) as -> by congruence.
      split; [|done]. split; [|simpl; lia].
      intros _. right. right. split; [done|].
      by assert (p = -1) as -> by lia.
    + destruct (resolveActiveBlock_child doc cursor _ p Hc Hn Hp Hpos)
        as (s & e & He & _).
      assert (ab = mkActiveBlock (p / 2 * 2) s e) as -> by congruence.
      simpl. pose proof (getIndentationColumn_level_nonneg p Hpos) as Hcol.
      unfold getIndentationColumn in Hcol.
      split; [|lia]. split; [lia|].
      intros [?|[?|[_ Hp']]]; [done..|]. assert (p = -1) by congruence. lia.
Qed.

Lemma no_active_block_iff_witness :
  ∃ g, updateDecorations listDoc 3 1 = Some g
       ∧ activeBlock g = noActiveBlock.
Proof.
  destruct (no_active_block_iff listDoc 3 1) as (g & Hg & Hiff & Hnone).
  exists g. split; [exact Hg|]. apply Hnone, Hiff.
  right. right. split; reflexivity.
Defined.

(** X8. For a non-blank line, [getParentColumn] answers -1 or a column
    strictly left of the line's own; an answer that is not -1 is the
    column of an earlier non-blank line, and [hasNestedContent] holds of
    that line. *)
Theorem parent_column_has_parent_line (doc : list (list N)) (i c : Z) :
  contentLine doc i c →
  ∃ p, getParentColumn doc i = Some p ∧ -1 ≤ p < c
       ∧ (0 ≤ p →
          ∃ h, h < i ∧ contentLine doc h p
               ∧ hasNestedContent doc h = Some true).
Proof.
  intros Hi. pose proof Hi as (t & Ht & Hb & Hc).
  destruct (getParentColumn_below_own doc i t Ht) as (p & Hp & Hbound).
  exists p. split_and!; [done|lia|lia|].
  intros Hp0. by eapply parent_line_has_nested_content.
Qed.

Lemma parent_column_has_parent_line_witness :
  ∃ p, getParentColumn listDoc 1 = Some p ∧ -1 ≤ p < 2.
Proof.
  destruct (parent_column_has_parent_line listDoc 1 2) as (p & Hp & Hb & _).
  - by exists (js "  - x").
  - by exists p.
Defined.

(** X9. When [hasNestedContent] holds of a line, the first non-blank line
    after it is strictly deeper and [getParentColumn] of that line is the
    column of the line itself. *)
Theorem nested_content_gives_parent_column (doc : list (list N)) (i : Z) :
  hasNestedContent doc i = Some true →
  ∃ c j d, contentLine doc i c ∧ nextContentLine doc i j
           ∧ contentLine doc j d ∧ c < d
           ∧ getParentColumn doc j = Some c.
Proof.
  intros (c & j & d & Hc & Hnext & Hd & Hlt)%hasNestedContent_true_inv.
  exists c, j, d. split_and!; [done..|].
  by eapply getParentColumn_of_child.
Qed.

Lemma nested_content_gives_parent_column_witness :
  ∃ c j d, contentLine nestedDoc 0 c ∧ nextContentLine nestedDoc 0 j
           ∧ contentLine nestedDoc j d ∧ c < d
           ∧ getParentColumn nestedDoc j = Some c.
Proof. apply (nested_content_gives_parent_column nestedDoc 0). reflexivity. Defined.

(** X10. Mapping a line's indentation level back to a column rounds the
    effective column down to an even number: the result is the column or
    the column minus one, and it is the column exactly when the column is
    even. *)
Theorem level_round_trip (line : list N) :
  getIndentationColumn (getIndentationLevel line)
  ≤ getEffectiveIndentColumn line
  ∧ getEffectiveIndentColumn line
    < getIndentationColumn (getIndentationLevel line) + 2
  ∧ (getIndentationColumn (getIndentationLevel line)
     = getEffectiveIndentColumn line
     ↔ Z.even (getEffectiveIndentColumn line) = true).
Proof.
  unfold getIndentationLevel.
  pose proof (getEffectiveIndentColumn_nonneg line) as Hnn.
  set (c := getEffectiveIndentColumn line) in *.
  pose proof (Z.div_mod c 2) as Hdm. pose proof (Z.mod_pos_bound c 2) as Hm.
  unfold getIndentationColumn.
  split_and!; [lia..|]. split.
  - intros Heq. rewrite <- Heq, Z.even_mul. apply orb_true_r.
  - apply getIndentationColumn_level_exact.
Qed.

(** X11. The effective column is the weight of the leading run of spaces
    and tabs and nothing else: after a prefix made of spaces and tabs the
    column of the rest is added to the column of the prefix, so text after
    the first other character never changes it; and it lies between 0 and
    four times the length of the line. *)
Theorem getEffectiveIndentColumn_leading_run (ws rest : list N) :
  Forall (λ c, c = SPACE ∨ c = TAB) ws →
  getEffectiveIndentColumn (ws ++ rest)
  = getEffectiveIndentColumn ws + getEffectiveIndentColumn rest
  ∧ 0 ≤ getEffectiveIndentColumn (ws ++ rest)
    ≤ 4 * Z.of_nat (length (ws ++ rest)).
Proof.
  intros Hws. rewrite !getEffectiveIndentColumn_spec. split.
  - induction Hws as [|c ws [->| ->] _ IH]; [done|..]; simpl in *; lia.
  - split; [apply effectiveColumnSpec_nonneg|].
    generalize (ws ++ rest). clear. intros l.
    induction l as [|c l IH]; [simpl; lia|].
    change (length (c :: l)) with (S (length l)).
    cbn [effectiveColumnSpec].
    destruct (N.eqb c SPACE); [lia|]. destruct (N.eqb c TAB); [lia|].
    destruct l; [lia|]. destruct (_ && _); lia.
Qed.

Lemma getEffectiveIndentColumn_leading_run_witness :
  getEffectiveIndentColumn ([TAB; SPACE] ++ js "- a") = 5 + 0.
Proof.
  refine (proj1 (getEffectiveIndentColumn_leading_run [TAB; SPACE]
                   (js "- a") _)).
  constructor; [by right|]. constructor; [by left|]. constructor.
Defined.


(** * The decoration stage *)

(** ** Colours *)

Section Colours.

Lemma hexDigit_range (c : N) (v : Z) :
  hexDigit c = Some v → 0 ≤ v ≤ 15 ∧ (48 ≤ c ≤ 102)%N.
Proof.
  unfold hexDigit.
  destruct (N.leb_spec 48 c); destruct (N.leb_spec c 57); simpl;
    [intros [= <-]; lia|..];
    (destruct (N.leb_spec 97 c); destruct (N.leb_spec c 102); simpl;
     [intros [= <-]; lia|..]);
    (destruct (N.leb_spec 65 c); destruct (N.leb_spec c 70); simpl;
     [intros [= <-]; lia|..]); done.
Qed.

Lemma hexDigit_not_whitespace (c : N) (v : Z) :
  hexDigit c = Some v → isWhiteSpace c = false.
Proof.
  intros [_ Hc]%hexDigit_range. unfold isWhiteSpace.
  replace (c <=? 13)%N with false by (symmetry; apply N.leb_gt; lia).
  replace (c =? 32)%N with false by (symmetry; apply N.eqb_neq; lia).
  replace (c =? 160)%N with false by (symmetry; apply N.eqb_neq; lia).
  replace (c =? 5760)%N with false by (symmetry; apply N.eqb_neq; lia).
  replace (8192 <=? c)%N with false by (symmetry; apply N.leb_gt; lia).
  replace (c =? 8232)%N with false by (symmetry; apply N.eqb_neq; lia).
  replace (c =? 8233)%N with false by (symmetry; apply N.eqb_neq; lia).
  replace (c =? 8239)%N with false by (symmetry; apply N.eqb_neq; lia).
  replace (c =? 8287)%N with false by (symmetry; apply N.eqb_neq; lia).
  replace (c =? 12288)%N with false by (symmetry; apply N.eqb_neq; lia).
  replace (c =? 65279)%N with false by (symmetry; apply N.eqb_neq; lia).
  by rewrite andb_false_r.
Qed.

Lemma hexDigit_not_x (c : N) (v : Z) :
  hexDigit c = Some v → N.eqb c 120 || N.eqb c 88 = false.
Proof.
  unfold hexDigit.
  destruct (N.eqb_spec c 120) as [->|]; [done|].
  destruct (N.eqb_spec c 88) as [->|]; done.
Qed.

Lemma hexDigit_not_sign (c : N) (v : Z) :
  hexDigit c = Some v → N.eqb c 45 = false ∧ N.eqb c 43 = false.
Proof.
  intros [_ Hc]%hexDigit_range. split; apply N.eqb_neq; lia.
Qed.

(** [parseInt] of two radix-16 digits. *)
Lemma parseInt16_two_digits (c1 c2 : N) (v1 v2 : Z) :
  hexDigit c1 = Some v1 → hexDigit c2 = Some v2 →
  parseInt16 [c1; c2] = Some (16 * v1 + v2).
Proof.
  intros H1 H2. unfold parseInt16. cbn [trimStart].
  rewrite (hexDigit_not_whitespace c1 v1 H1).
  destruct (hexDigit_not_sign c1 v1 H1) as [-> ->].
  cbn [orb]. rewrite (hexDigit_not_x c2 v2 H2), andb_false_r.
  cbn [hexPrefix]. rewrite H1, H2. simpl. f_equal. lia.
Qed.

Lemma parseInt16_nil : parseInt16 [] = None.
Proof. reflexivity. Qed.

Lemma colorFor_even (colors : list (list N)) (col : Z) :
  0 ≤ col → Z.even col = true → colors ≠ [] →
  colorFor colors col
  = colors !! Z.to_nat ((col / 2) mod Z.of_nat (length colors))
  ∧ is_Some (colorFor colors col).
Proof.
  intros Hcol Heven Hne. unfold colorFor. rewrite Heven.
  assert (0 < Z.of_nat (length colors)) as Hlen
    by (destruct colors; [done|simpl; lia]).
  destruct (Z.ltb_spec 0 (Z.of_nat (length colors))); [|lia]. cbn [andb].
  pose proof (level_nonneg col Hcol) as Hhalf.
  rewrite Z.rem_mod_nonneg by lia.
  pose proof (Z.mod_pos_bound (col / 2) (Z.of_nat (length colors)) Hlen).
  destruct (Z.leb_spec 0 ((col / 2) mod Z.of_nat (length colors))); [|lia].
  split; [done|]. apply lookup_lt_is_Some. lia.
Qed.

Lemma colorFor_odd (colors : list (list N)) (col : Z) :
  Z.even col = false → colorFor colors col = None.
Proof. intros Hodd. unfold colorFor. by rewrite Hodd. Qed.

Lemma colorFor_empty (col : Z) : colorFor [] col = None.
Proof. unfold colorFor. simpl. by rewrite andb_false_r. Qed.

End Colours.

(** ** Maps in insertion order *)

Section JsMap.

Context {V : Type}.

Lemma mapHas_mapGet (m : list (Z * V)) (k : Z) :
  mapHas m k = true ↔ is_Some (mapGet m k).
Proof.
  induction m as [|[k' v] m IH]; simpl.
  - split; [done|]. by intros [? ?].
  - destruct (Z.eqb_spec k' k); simpl; [|done]. split; eauto.
Qed.

Lemma mapHas_false_mapGet (m : list (Z * V)) (k : Z) :
  mapHas m k = false ↔ mapGet m k = None.
Proof.
  rewrite <- not_true_iff_false, mapHas_mapGet, eq_None_not_Some. done.
Qed.

Lemma mapHas_elem (m : list (Z * V)) (k : Z) :
  mapHas m k = true ↔ k ∈ fst <$> m.
Proof.
  induction m as [|[k' v] m IH]; simpl.
  - split; [done|]. by intros ?%elem_of_nil.
  - rewrite elem_of_cons, <- IH. destruct (Z.eqb_spec k' k); simpl.
    + split; [by left|done].
    + split; [by right|]. by intros [?|?].
Qed.

Lemma mapGet_mapSet (m : list (Z * V)) (k k' : Z) (v : V) :
  mapGet (mapSet m k v) k' = if k =? k' then Some v else mapGet m k'.
Proof.
  induction m as [|[k0 v0] m IH]; simpl.
  - by destruct (Z.eqb_spec k k').
  - destruct (Z.eqb_spec k0 k) as [->|Hne]; simpl.
    + by destruct (Z.eqb_spec k k').
    + rewrite IH. destruct (Z.eqb_spec k0 k') as [->|]; [|done].
      by destruct (Z.eqb_spec k k').
Qed.

Lemma mapSet_fresh_keys (m : list (Z * V)) (k : Z) (v : V) :
  mapHas m k = false → fst <$> mapSet m k v = (fst <$> m) ++ [k].
Proof.
  induction m as [|[k0 v0] m IH]; simpl; [done|].
  destruct (Z.eqb_spec k0 k); simpl; [done|]. intros Hm.
  f_equal. by apply IH.
Qed.

Lemma mapSet_fresh_NoDup (m : list (Z * V)) (k : Z) (v : V) :
  mapHas m k = false → NoDup (fst <$> m) → NoDup (fst <$> mapSet m k v).
Proof.
  intros Hk Hnd. rewrite mapSet_fresh_keys by done.
  apply NoDup_app. split_and!; [done| |apply NoDup_singleton].
  intros x Hx ->%list_elem_of_singleton.
  apply mapHas_elem in Hx. congruence.
Qed.

Lemma mapGet_Some_elem (m : list (Z * V)) (k : Z) (v : V) :
  mapGet m k = Some v → (k, v) ∈ m.
Proof.
  induction m as [|[k0 v0] m IH]; simpl; [done|].
  destruct (Z.eqb_spec k0 k) as [->|].
  - intros [= ->]. by left.
  - intros Hm. right. by apply IH.
Qed.

Lemma elem_mapGet (m : list (Z * V)) (k : Z) (v : V) :
  NoDup (fst <$> m) → (k, v) ∈ m → mapGet m k = Some v.
Proof.
  induction m as [|[k0 v0] m IH]; simpl; [by intros _ ?%elem_of_nil|].
  intros [Hnot Hnd]%NoDup_cons [[= -> ->]|Hin]%elem_of_cons.
  - by rewrite Z.eqb_refl.
  - destruct (Z.eqb_spec k0 k) as [->|]; [|by apply IH].
    exfalso. apply Hnot. apply list_elem_of_fmap. by exists (k, v).
Qed.

End JsMap.

(** ** The host *)

Section HostFacts.

Lemma setAll_nextKey (ranges : list Range) (cache : list (Z * Decoration)) :
  ∀ h, nextKey (setAll ranges cache h) = nextKey h.
Proof. induction cache as [|[c d] cache IH]; intros h; simpl; [done|]. by rewrite IH. Qed.

Lemma setAll_hit (ranges : list Range) (cache : list (Z * Decoration)) :
  ∀ h k, (shown h !! k = Some ranges
          ∨ ∃ col d, (col, d) ∈ cache ∧ decorationKey d = k) →
         shown (setAll ranges cache h) !! k = Some ranges.
Proof.
  induction cache as [|[c d] cache IH]; intros h k; simpl.
  - intros [?|(col & d & Hin & _)]; [done|]. by apply elem_of_nil in Hin.
  - intros [Hk|(col & d' & Hin & Hd')]; apply IH.
    + left. simpl. destruct (decide (decorationKey d = k)) as [->|].
      * by rewrite lookup_insert_eq.
      * by rewrite lookup_insert_ne.
    + apply elem_of_cons in Hin as [[= -> ->]|Hin].
      * left. simpl. rewrite Hd'. by rewrite lookup_insert_eq.
      * right. by exists col, d'.
Qed.

Lemma setAll_other (ranges : list Range) (cache : list (Z * Decoration)) :
  ∀ h k, (∀ col d, (col, d) ∈ cache → decorationKey d ≠ k) →
         shown (setAll ranges cache h) !! k = shown h !! k.
Proof.
  induction cache as [|[c d] cache IH]; intros h k Hk; simpl; [done|].
  rewrite IH.
  - simpl. apply lookup_insert_ne. apply (Hk c d). by left.
  - intros col d' Hin. apply (Hk col d'). by right.
Qed.

Lemma disposeAll_nextKey (cache : list (Z * Decoration)) :
  ∀ h, nextKey (disposeAll cache h) = nextKey h.
Proof. induction cache as [|[c d] cache IH]; intros h; simpl; [done|]. by rewrite IH. Qed.

Lemma disposeAll_hit (cache : list (Z * Decoration)) :
  ∀ h k, (shown h !! k = None
          ∨ ∃ col d, (col, d) ∈ cache ∧ decorationKey d = k) →
         shown (disposeAll cache h) !! k = None.
Proof.
  induction cache as [|[c d] cache IH]; intros h k; simpl.
  - intros [?|(col & d & Hin & _)]; [done|]. by apply elem_of_nil in Hin.
  - intros [Hk|(col & d' & Hin & Hd')]; apply IH.
    + left. simpl. destruct (decide (decorationKey d = k)) as [->|].
      * by rewrite lookup_delete_eq.
      * by rewrite lookup_delete_ne.
    + apply elem_of_cons in Hin as [[= -> ->]|Hin].
      * left. simpl. rewrite Hd'. by rewrite lookup_delete_eq.
      * right. by exists col, d'.
Qed.

Lemma disposeAll_other (cache : list (Z * Decoration)) :
  ∀ h k, (∀ col d, (col, d) ∈ cache → decorationKey d ≠ k) →
         shown (disposeAll cache h) !! k = shown h !! k.
Proof.
  induction cache as [|[c d] cache IH]; intros h k Hk; simpl; [done|].
  rewrite IH.
  - simpl. apply lookup_delete_ne. apply (Hk c d). by left.
  - intros col d' Hin. apply (Hk col d'). by right.
Qed.

Lemma clearStale_nextKey (g : Guides) (cache : list (Z * Decoration)) :
  ∀ h, nextKey (clearStale g cache h) = nextKey h.
Proof.
  induction cache as [|[c d] cache IH]; intros h; simpl; [done|].
  destruct (columnRanges g !! c); by rewrite IH.
Qed.

Lemma clearStale_hit (g : Guides) (cache : list (Z * Decoration)) :
  ∀ h k, (shown h !! k = Some []
          ∨ ∃ col d, (col, d) ∈ cache ∧ columnRanges g !! col = None
                     ∧ decorationKey d = k) →
         shown (clearStale g cache h) !! k = Some [].
Proof.
  induction cache as [|[c d] cache IH]; intros h k; simpl.
  - intros [?|(col & d & Hin & _)]; [done|]. by apply elem_of_nil in Hin.
  - intros [Hk|(col & d' & Hin & Hstale & Hd')].
    + destruct (columnRanges g !! c); apply IH; left; [done|]. simpl.
      destruct (decide (decorationKey d = k)) as [->|].
      * by rewrite lookup_insert_eq.
      * by rewrite lookup_insert_ne.
    + apply elem_of_cons in Hin as [[= -> ->]|Hin].
      * rewrite Hstale. apply IH. left. simpl. rewrite Hd'.
        by rewrite lookup_insert_eq.
      * destruct (columnRanges g !! c); apply IH; right; by exists col, d'.
Qed.

Lemma clearStale_other (g : Guides) (cache : list (Z * Decoration)) :
  ∀ h k, (∀ col d, (col, d) ∈ cache → columnRanges g !! col = None →
                   decorationKey d ≠ k) →
         shown (clearStale g cache h) !! k = shown h !! k.
Proof.
  induction cache as [|[c d] cache IH]; intros h k Hk; simpl; [done|].
  destruct (columnRanges g !! c) eqn:Hc.
  - apply IH. intros col d' Hin. apply (Hk col d'). by right.
  - rewrite IH.
    + simpl. apply lookup_insert_ne. apply (Hk c d); [by left|done].
    + intros col d' Hin. apply (Hk col d'). by right.
Qed.

Lemma splitRanges_filter (ab : ActiveBlock) (col : Z) (ranges : list Range) :
  ∀ inactiveRanges activeRanges,
    splitRanges ab col ranges inactiveRanges activeRanges
    = (inactiveRanges
       ++ filter (λ r, isActiveRange ab col r = false) ranges,
       activeRanges ++ filter (λ r, isActiveRange ab col r = true) ranges).
Proof.
  induction ranges as [|r ranges IH]; intros ina act; simpl.
  - by rewrite !app_nil_r.
  - rewrite !filter_cons. destruct (isActiveRange ab col r) eqn:Hr.
    + rewrite IH. destruct (decide (true = false)); [done|].
      destruct (decide (true = true)); [|done]. by rewrite <- app_assoc.
    + rewrite IH. destruct (decide (false = false)); [|done].
      destruct (decide (false = true)); [done|]. by rewrite <- app_assoc.
Qed.

End HostFacts.


(** ** One column of the decoration stage *)

Section Stage.

Variable cfg : Config.
Variable g : Guides.

Lemma grows_refl (ext : Extension) : grows ext ext.
Proof. by split_and!. Qed.

Lemma grows_trans (ext1 ext2 ext3 : Extension) :
  grows ext1 ext2 → grows ext2 ext3 → grows ext1 ext3.
Proof.
  intros (H1 & H2 & H3) (H1' & H2' & H3'). split_and!; [|lia|congruence].
  intros b col d Hd. by apply H1', H1.
Qed.

Lemma cached_withDecoration (ext : Extension) (b b' : bool) (col col' : Z)
    (d : Decoration) (h : Host) :
  cached (withDecoration ext b col d h) b' col'
  = if bool_decide (b = b' ∧ col = col') then Some d else cached ext b' col'.
Proof.
  unfold cached, withDecoration.
  case_bool_decide as Heq.
  - destruct Heq as [<- <-].
    destruct b; cbn [activeDecorationsByCol inactiveDecorationsByCol];
      by rewrite mapGet_mapSet, Z.eqb_refl.
  - destruct b, b'; cbn [activeDecorationsByCol inactiveDecorationsByCol];
      rewrite ?mapGet_mapSet; try done;
      destruct (Z.eqb_spec col col'); naive_solver.
Qed.

Lemma wellFormed_withDecoration (ext : Extension) (b : bool) (col : Z)
    (background : list N) :
  wellFormed ext → cached ext b col = None →
  wellFormed (withDecoration ext b col
                (mkDecoration (nextKey (host ext)) background)
                (mkHost (S (nextKey (host ext))) (shown (host ext))))
  ∧ grows ext (withDecoration ext b col
                 (mkDecoration (nextKey (host ext)) background)
                 (mkHost (S (nextKey (host ext))) (shown (host ext)))).
Proof.
  intros (Hndi & Hnda & Hinj & Hbound) Hfresh.
  set (d := mkDecoration (nextKey (host ext)) background).
  set (h := mkHost (S (nextKey (host ext))) (shown (host ext))).
  split.
  - split_and!.
    + unfold withDecoration. destruct b; simpl; [done|].
      apply mapSet_fresh_NoDup; [|done]. by apply mapHas_false_mapGet.
    + unfold withDecoration. destruct b; simpl; [|done].
      apply mapSet_fresh_NoDup; [|done]. by apply mapHas_false_mapGet.
    + intros b1 b2 c1 c2 d1 d2. rewrite !cached_withDecoration.
      case_bool_decide as Hfst; case_bool_decide as Hsnd.
      * intros _ _ _. destruct Hfst as [<- <-], Hsnd as [<- <-]. done.
      * intros [= <-] Hd2 Hk. apply Hbound in Hd2. simpl in Hk. lia.
      * intros Hd1 [= <-] Hk. apply Hbound in Hd1. simpl in Hk. lia.
      * apply Hinj.
    + intros b1 c1 d1. rewrite cached_withDecoration.
      assert (nextKey (host (withDecoration ext b col d h))
              = S (nextKey (host ext))) as ->
        by (unfold withDecoration; by destruct b).
      case_bool_decide.
      * intros [= <-]. simpl. lia.
      * intros Hd1%Hbound. lia.
  - split_and!.
    + intros b1 c1 d1 Hd1. rewrite cached_withDecoration.
      case_bool_decide as Heq; [|done]. destruct Heq as [<- <-]. congruence.
    + unfold withDecoration. destruct b; simpl; lia.
    + unfold withDecoration. by destruct b.
Qed.

Lemma ensureInactive_fresh (col : Z) (color : list N) (ext : Extension) :
  mapHas (inactiveDecorationsByCol ext) col = false →
  ensureInactive cfg col (Some color) ext
  = Done (withDecoration ext false col
            (mkDecoration (nextKey (host ext)) (backgroundFor cfg false color))
            (mkHost (S (nextKey (host ext))) (shown (host ext)))).
Proof. intros Hm. unfold ensureInactive. by rewrite Hm. Qed.

Lemma ensureActive_fresh (col : Z) (color : list N) (ext : Extension) :
  mapHas (activeDecorationsByCol ext) col = false →
  ensureActive cfg col (Some color) ext
  = Done (withDecoration ext true col
            (mkDecoration (nextKey (host ext)) (backgroundFor cfg true color))
            (mkHost (S (nextKey (host ext))) (shown (host ext)))).
Proof. intros Hm. unfold ensureActive. by rewrite Hm. Qed.

Lemma ensureInactive_cached (col : Z) (color : option (list N))
    (ext : Extension) :
  mapHas (inactiveDecorationsByCol ext) col = true →
  ensureInactive cfg col color ext = Done ext.
Proof. intros Hm. unfold ensureInactive. by rewrite Hm. Qed.

Lemma ensureActive_cached (col : Z) (color : option (list N))
    (ext : Extension) :
  mapHas (activeDecorationsByCol ext) col = true →
  ensureActive cfg col color ext = Done ext.
Proof. intros Hm. unfold ensureActive. by rewrite Hm. Qed.

(** Getting or creating one of the two decorations of a column. *)
Lemma ensure_spec (b : bool) (col : Z) (color : option (list N))
    (ext : Extension) :
  wellFormed ext → is_Some color ∨ is_Some (cached ext b col) →
  ∃ ext' d,
    (if b then ensureActive cfg col color ext
     else ensureInactive cfg col color ext) = Done ext'
    ∧ wellFormed ext' ∧ grows ext ext'
    ∧ cached ext' b col = Some d
    ∧ (∀ b' col', ¬ (b = b' ∧ col = col') →
                  cached ext' b' col' = cached ext b' col')
    ∧ shown (host ext') = shown (host ext)
    ∧ (cached ext b col = None →
       ∃ c, color = Some c
            ∧ d = mkDecoration (nextKey (host ext)) (backgroundFor cfg b c)).
Proof.
  intros Hwf Hcond.
  destruct (cached ext b col) as [d|] eqn:Hc.
  - exists ext, d.
    assert ((if b then mapHas (activeDecorationsByCol ext) col
             else mapHas (inactiveDecorationsByCol ext) col) = true) as Hhas.
    { unfold cached in Hc. destruct b; apply mapHas_mapGet; eauto. }
    split_and!; [|done|apply grows_refl|done..].
    destruct b; [by apply ensureActive_cached|by apply ensureInactive_cached].
  - destruct Hcond as [[c ->]|[? ?]]; [|done].
    assert ((if b then mapHas (activeDecorationsByCol ext) col
             else mapHas (inactiveDecorationsByCol ext) col) = false) as Hhas.
    { unfold cached in Hc. destruct b; by apply mapHas_false_mapGet. }
    destruct (wellFormed_withDecoration ext b col (backgroundFor cfg b c)
                Hwf Hc) as [Hwf' Hgrows].
    eexists _, _. split_and!; [|exact Hwf'|exact Hgrows| | | |].
    + destruct b; [by apply ensureActive_fresh|by apply ensureInactive_fresh].
    + rewrite cached_withDecoration. by rewrite bool_decide_eq_true_2.
    + intros b' col' Hne. rewrite cached_withDecoration.
      by rewrite bool_decide_eq_false_2.
    + unfold withDecoration. by destruct b.
    + intros _. by exists c.
Qed.

(** One column, when it completes. *)
Lemma decorateColumn_spec (col : Z) (ranges : list Range)
    (ext : Extension) :
  wellFormed ext → columnRanges g !! col = Some ranges →
  is_Some (colorFor (cfgColors cfg) col)
  ∨ (is_Some (cached ext false col) ∧ is_Some (cached ext true col)) →
  ∃ ext',
    decorateColumn cfg g col ext = Done ext'
    ∧ wellFormed ext' ∧ grows ext ext'
    ∧ columnShown g ext' col
    ∧ (∀ b col', col' ≠ col → cached ext' b col' = cached ext b col')
    ∧ (∀ k, (∀ b d, cached ext' b col = Some d → decorationKey d ≠ k) →
            shown (host ext') !! k = shown (host ext) !! k)
    ∧ (∀ b d, cached ext b col = None → cached ext' b col = Some d →
              ∃ c, colorFor (cfgColors cfg) col = Some c
                   ∧ backgroundColor d = backgroundFor cfg b c).
Proof.
  intros Hwf Hranges Hcond. unfold decorateColumn.
  destruct (ensure_spec false col (colorFor (cfgColors cfg) col) ext Hwf)
    as (ext1 & di & He1 & Hwf1 & Hg1 & Hdi & Hoth1 & Hsh1 & Hnew1);
    [tauto|].
  simpl in He1. rewrite He1.
  destruct (ensure_spec true col (colorFor (cfgColors cfg) col) ext1 Hwf1)
    as (ext2 & da & He2 & Hwf2 & Hg2 & Hda0 & Hoth2 & Hsh2 & Hnew2).
  { destruct Hcond as [?|[_ [d Hd]]]; [by left|right].
    exists d. by apply Hg1. }
  simpl in He2. rewrite He2.
  assert (cached ext2 false col = Some di) as Hdi0 by by apply Hg2.
  pose proof Hdi0 as Hdi2. pose proof Hda0 as Hda.
  unfold cached in Hdi2, Hda. simpl in Hdi2, Hda. rewrite Hdi2, Hda, Hranges.
  rewrite splitRanges_filter. simpl.
  set (ext' := mkExtension _ _ _ _).
  assert (∀ b c, cached ext' b c = cached ext2 b c) as Hsame by done.
  pose proof Hwf2 as (Hnd1 & Hnd2 & Hinj & Hbound).
  assert (decorationKey di ≠ decorationKey da) as Hkeys.
  { intros Heq.
    destruct (Hinj false true col col di da) as [? _]; done. }
  exists ext'. split_and!; [done| | | | | |].
  6:{ intros b d Hnone. rewrite Hsame. destruct b.
      - rewrite Hda0. intros [= <-].
        destruct Hnew2 as (c & Hc & ->); [|by exists c].
        rewrite Hoth1; [done|]. by intros [? _].
      - rewrite Hdi0. intros [= <-].
        destruct (Hnew1 Hnone) as (c & Hc & ->). by exists c. }
  - split_and!; [done..| |].
    + intros b b' c c' d d'. rewrite !Hsame. apply Hinj.
    + intros b c d. rewrite Hsame. apply Hbound.
  - eapply grows_trans; [exact Hg1|]. eapply grows_trans; [exact Hg2|].
    split_and!; [by intros b c d; rewrite Hsame|done..].
  - exists di, da, ranges. split_and!; [done..| |].
    + subst ext'. simpl. rewrite lookup_insert_ne by done.
      by rewrite lookup_insert_eq.
    + subst ext'. simpl. by rewrite lookup_insert_eq.
  - intros b c Hc.
    rewrite Hsame, Hoth2, Hoth1; [done|by intros [_ ?]..].
  - intros k Hk. subst ext'. simpl.
    rewrite lookup_insert_ne by (apply (Hk true); by rewrite Hsame).
    rewrite lookup_insert_ne by (apply (Hk false); by rewrite Hsame).
    by rewrite Hsh2, Hsh1.
Qed.

End Stage.


(** ** The whole decoration stage *)

Section WholeStage.

Variable cfg : Config.
Variable g : Guides.

Lemma stepsTo_refl (ext : Extension) : wellFormed ext → stepsTo ext ext.
Proof. intros Hwf. split_and!; [done|apply grows_refl|by left|done]. Qed.

Lemma stepsTo_trans (ext1 ext2 ext3 : Extension) :
  stepsTo ext1 ext2 → stepsTo ext2 ext3 → stepsTo ext1 ext3.
Proof.
  intros (_ & Hg1 & Ho1 & Hf1) (Hwf & Hg2 & Ho2 & Hf2).
  split_and!; [done|by eapply grows_trans| |].
  - intros b col d Hd. destruct (Ho2 b col d Hd) as [Hd2|Hk].
    + by apply Ho1.
    + right. destruct Hg1 as (_ & Hn & _). lia.
  - intros k Hk. rewrite Hf2 by done. apply Hf1.
    intros b col d Hd. apply (Hk b col d). destruct Hg2 as (Hc & _).
    by apply Hc.
Qed.

Lemma sameCaches_stepsTo (ext e : Extension) :
  wellFormed ext →
  (∀ b col, cached e b col = cached ext b col) →
  inactiveDecorationsByCol e = inactiveDecorationsByCol ext →
  activeDecorationsByCol e = activeDecorationsByCol ext →
  nextKey (host e) = nextKey (host ext) →
  lastColorsHash e = lastColorsHash ext →
  (∀ k, (∀ b col d, cached e b col = Some d → decorationKey d ≠ k) →
        shown (host e) !! k = shown (host ext) !! k) →
  stepsTo ext e.
Proof.
  intros (Hnd1 & Hnd2 & Hinj & Hbound) Hsame Hi Ha Hn Hl Hframe.
  split_and!; [split_and!| | |done].
  - by rewrite Hi.
  - by rewrite Ha.
  - intros b b' c c' d d'. rewrite !Hsame. apply Hinj.
  - intros b c d. rewrite Hsame, Hn. apply Hbound.
  - split_and!; [|lia|done]. intros b c d. by rewrite Hsame.
  - intros b c d. rewrite Hsame. by left.
Qed.

Lemma ensure_any (b : bool) (col : Z) (color : option (list N))
    (ext : Extension) :
  wellFormed ext →
  stepsTo ext
    (finalState (if b then ensureActive cfg col color ext
                 else ensureInactive cfg col color ext))
  ∧ shown (host (finalState (if b then ensureActive cfg col color ext
                             else ensureInactive cfg col color ext)))
    = shown (host ext).
Proof.
  intros Hwf.
  destruct (cached ext b col) as [d|] eqn:Hc.
  - destruct (ensure_spec cfg b col color ext Hwf) as (e & d' & He & _);
      [right; eauto|].
    assert (e = ext) as ->.
    { assert ((if b then mapHas (activeDecorationsByCol ext) col
               else mapHas (inactiveDecorationsByCol ext) col) = true) as Hhas.
      { unfold cached in Hc. destruct b; apply mapHas_mapGet; eauto. }
      destruct b; [rewrite ensureActive_cached in He by done
                  |rewrite ensureInactive_cached in He by done]; congruence. }
    rewrite He. simpl. split; [by apply stepsTo_refl|done].
  - destruct color as [c|].
    + destruct (ensure_spec cfg b col (Some c) ext Hwf)
        as (e & d & He & Hwf' & Hgrows & Hd & Hoth & Hsh & Hnew);
        [left; eauto|].
      rewrite He. simpl. split; [|done]. split_and!; [done..| |].
      * intros b' c' d'. destruct (decide (b = b' ∧ col = c')) as [[<- <-]|Hne].
        -- destruct (Hnew Hc) as (c0 & _ & ->). rewrite Hd.
           intros [= <-]. right. simpl. lia.
        -- rewrite Hoth by done. by left.
      * intros k _. by rewrite Hsh.
    + assert ((if b then ensureActive cfg col None ext
               else ensureInactive cfg col None ext) = Threw ext) as ->.
      { assert ((if b then mapHas (activeDecorationsByCol ext) col
                 else mapHas (inactiveDecorationsByCol ext) col) = false)
          as Hhas.
        { unfold cached in Hc. destruct b; by apply mapHas_false_mapGet. }
        unfold ensureActive, ensureInactive. destruct b; by rewrite Hhas. }
      simpl. split; [by apply stepsTo_refl|done].
Qed.

Lemma decorateColumn_any (col : Z) (ext : Extension) :
  wellFormed ext → stepsTo ext (finalState (decorateColumn cfg g col ext)).
Proof.
  intros Hwf. unfold decorateColumn.
  destruct (ensure_any false col (colorFor (cfgColors cfg) col) ext Hwf)
    as [Hs1 Hsh1].
  destruct (ensureInactive cfg col (colorFor (cfgColors cfg) col) ext)
    as [ext1|e1]; [|done].
  simpl in Hs1, Hsh1. pose proof Hs1 as (Hwf1 & _).
  destruct (ensure_any true col (colorFor (cfgColors cfg) col) ext1 Hwf1)
    as [Hs2 Hsh2].
  destruct (ensureActive cfg col (colorFor (cfgColors cfg) col) ext1)
    as [ext2|e2]; [|by eapply stepsTo_trans].
  simpl in Hs2, Hsh2. pose proof Hs2 as (Hwf2 & _).
  apply (stepsTo_trans ext ext2); [by eapply stepsTo_trans|].
  destruct (mapGet (inactiveDecorationsByCol ext2) col) as [di|] eqn:Hdi;
    [|by apply stepsTo_refl].
  destruct (mapGet (activeDecorationsByCol ext2) col) as [da|] eqn:Hda;
    [|by apply stepsTo_refl].
  destruct (columnRanges g !! col) as [ranges|]; [|by apply stepsTo_refl].
  rewrite splitRanges_filter. simpl.
  apply sameCaches_stepsTo; [done..|].
  intros k Hk. simpl.
  rewrite lookup_insert_ne by (by apply (Hk true col)).
  rewrite lookup_insert_ne by (by apply (Hk false col)). done.
Qed.

Lemma forEachColumn_any (cols : list Z) :
  ∀ ext, wellFormed ext →
         stepsTo ext (finalState (forEachColumn cfg g cols ext)).
Proof.
  induction cols as [|col cols IH]; intros ext Hwf; simpl;
    [by apply stepsTo_refl|].
  pose proof (decorateColumn_any col ext Hwf) as Hstep.
  destruct (decorateColumn cfg g col ext) as [ext'|e]; [|done].
  simpl in Hstep. eapply stepsTo_trans; [exact Hstep|].
  apply IH. by destruct Hstep.
Qed.

Lemma clearStale_stepsTo (ext : Extension) :
  wellFormed ext →
  stepsTo ext
    (mkExtension (inactiveDecorationsByCol ext) (activeDecorationsByCol ext)
       (lastColorsHash ext)
       (clearStale g (activeDecorationsByCol ext)
          (clearStale g (inactiveDecorationsByCol ext) (host ext)))).
Proof.
  intros Hwf. pose proof Hwf as (Hnd1 & Hnd2 & _).
  apply sameCaches_stepsTo;
    [done|done|done|done|simpl; by rewrite !clearStale_nextKey|done|].
  intros k Hk. simpl. rewrite !clearStale_other; [done|..].
  - intros col d Hin _. apply (Hk false col d). by apply elem_mapGet.
  - intros col d Hin _. apply (Hk true col d). by apply elem_mapGet.
Qed.

Lemma applyDecorations_any (ext : Extension) :
  wellFormed ext → stepsTo ext (finalState (applyDecorations cfg g ext)).
Proof.
  intros Hwf. unfold applyDecorations.
  pose proof (forEachColumn_any (sortedColumns g) ext Hwf) as Hstep.
  destruct (forEachColumn cfg g (sortedColumns g) ext) as [ext1|e]; [|done].
  simpl in Hstep. eapply stepsTo_trans; [exact Hstep|].
  apply clearStale_stepsTo. by destruct Hstep.
Qed.

Lemma elem_of_sortedColumns (col : Z) :
  col ∈ sortedColumns g ↔ is_Some (columnRanges g !! col).
Proof.
  unfold sortedColumns.
  by rewrite merge_sort_Permutation, elem_of_elements, elem_of_dom.
Qed.

Lemma NoDup_sortedColumns : NoDup (sortedColumns g).
Proof.
  unfold sortedColumns. rewrite merge_sort_Permutation. apply NoDup_elements.
Qed.

(** The loop over the columns, when every column can be decorated. *)
Lemma forEachColumn_spec (cols : list Z) :
  ∀ ext,
    NoDup cols → wellFormed ext →
    (∀ col, col ∈ cols →
       is_Some (columnRanges g !! col)
       ∧ (is_Some (colorFor (cfgColors cfg) col)
          ∨ (is_Some (cached ext false col)
             ∧ is_Some (cached ext true col)))) →
    ∃ ext',
      forEachColumn cfg g cols ext = Done ext'
      ∧ wellFormed ext' ∧ grows ext ext'
      ∧ (∀ col, col ∈ cols → columnShown g ext' col)
      ∧ (∀ b col', col' ∉ cols → cached ext' b col' = cached ext b col')
      ∧ (∀ k, (∀ b c d, c ∈ cols → cached ext' b c = Some d →
                        decorationKey d ≠ k) →
              shown (host ext') !! k = shown (host ext) !! k)
      ∧ (∀ b c d, c ∈ cols → cached ext b c = None →
                  cached ext' b c = Some d →
                  ∃ color, colorFor (cfgColors cfg) c = Some color
                           ∧ backgroundColor d = backgroundFor cfg b color).
Proof.
  induction cols as [|col cols IH]; intros ext Hnd Hwf Hcond; simpl.
  - exists ext. split_and!; [done..|apply grows_refl| |done|done|].
    + by intros col ?%elem_of_nil.
    + by intros b c d ?%elem_of_nil.
  - apply NoDup_cons in Hnd as [Hnot Hnd].
    destruct (Hcond col) as [[ranges Hranges] Hcol]; [by left|].
    destruct (decorateColumn_spec cfg g col ranges ext Hwf Hranges Hcol)
      as (ext1 & He1 & Hwf1 & Hg1 & Hshown1 & Hoth1 & Hframe1 & Hnew1).
    rewrite He1.
    destruct (IH ext1 Hnd Hwf1)
      as (ext' & He' & Hwf' & Hg' & Hshown' & Hoth' & Hframe' & Hnew').
    { intros c Hc. destruct (Hcond c) as [Hr Hcc]; [by right|].
      split; [done|]. destruct Hcc as [?|[[d1 H1] [d2 H2]]]; [by left|right].
      destruct Hg1 as (Hkeep & _). split; eexists; by apply Hkeep. }
    pose proof Hg' as (Hkeep' & _).
    pose proof Hwf' as (_ & _ & Hinj & _).
    exists ext'. split_and!; [done..|by eapply grows_trans| | | |].
    4:{ intros b c d [->|Hc]%elem_of_cons Hnone Hd.
        - apply (Hnew1 b d Hnone). by rewrite <- Hoth'.
        - apply (Hnew' b c d Hc); [|done]. rewrite Hoth1; [done|].
          by intros ->. }
    + intros c [->|Hc]%elem_of_cons; [|by apply Hshown'].
      destruct Hshown1 as (di & da & rs & Hdi & Hda & Hrs & Hsi & Hsa).
      assert (cached ext' false col = Some di) as Hdi' by by apply Hkeep'.
      assert (cached ext' true col = Some da) as Hda' by by apply Hkeep'.
      exists di, da, rs. split_and!; [done..| |].
      * rewrite <- Hsi. apply Hframe'. intros b c d Hc Hd Heq.
        destruct (Hinj b false c col d di Hd Hdi' Heq) as [_ ->]. done.
      * rewrite <- Hsa. apply Hframe'. intros b c d Hc Hd Heq.
        destruct (Hinj b true c col d da Hd Hda' Heq) as [_ ->]. done.
    + intros b c [Hne Hc]%not_elem_of_cons.
      rewrite Hoth' by done. by apply Hoth1.
    + intros k Hk. rewrite Hframe'.
      * apply Hframe1. intros b d Hd. apply (Hk b col d); [by left|].
        by apply Hkeep'.
      * intros b c d Hc. apply Hk. by right.
Qed.

(** The stage as a whole, when every key can be decorated: every key is
    shown, and every cached decoration of another column shows nothing. *)
Lemma applyDecorations_spec (ext : Extension) :
  wellFormed ext →
  (∀ col, is_Some (columnRanges g !! col) →
     is_Some (colorFor (cfgColors cfg) col)
     ∨ (is_Some (cached ext false col) ∧ is_Some (cached ext true col))) →
  ∃ ext',
    applyDecorations cfg g ext = Done ext'
    ∧ wellFormed ext' ∧ grows ext ext'
    ∧ (∀ col, is_Some (columnRanges g !! col) → columnShown g ext' col)
    ∧ (∀ b col d, cached ext' b col = Some d →
                  columnRanges g !! col = None →
                  shown (host ext') !! decorationKey d = Some [])
    ∧ (∀ b col, columnRanges g !! col = None →
                cached ext' b col = cached ext b col)
    ∧ (∀ b col d, is_Some (columnRanges g !! col) →
                  cached ext b col = None → cached ext' b col = Some d →
                  ∃ color, colorFor (cfgColors cfg) col = Some color
                           ∧ backgroundColor d = backgroundFor cfg b color).
Proof.
  intros Hwf Hcond. unfold applyDecorations.
  destruct (forEachColumn_spec (sortedColumns g) ext NoDup_sortedColumns Hwf)
    as (ext1 & He1 & Hwf1 & Hg1 & Hshown1 & Hoth1 & _ & Hnew1).
  { intros col Hcol%elem_of_sortedColumns. split; [done|]. by apply Hcond. }
  rewrite He1.
  set (ext' := mkExtension _ _ _ _).
  assert (∀ b c, cached ext' b c = cached ext1 b c) as Hsame by done.
  pose proof (clearStale_stepsTo ext1 Hwf1) as (Hwf' & Hg' & _).
  fold ext' in Hwf', Hg'.
  pose proof Hwf1 as (Hnd1 & Hnd2 & Hinj & _).
  exists ext'. split_and!; [done..|by eapply grows_trans| | | |].
  4:{ intros b col d Hcol Hnone. rewrite Hsame.
      apply Hnew1; [by apply elem_of_sortedColumns|done]. }
  - intros col Hcol.
    destruct (Hshown1 col) as (di & da & rs & Hdi & Hda & Hrs & Hsi & Hsa);
      [by apply elem_of_sortedColumns|].
    exists di, da, rs. rewrite !Hsame. split_and!; [done..| |].
    + rewrite <- Hsi. subst ext'. simpl. rewrite !clearStale_other; [done|..].
      * intros c d Hin Hstale Heq.
        destruct (Hinj false false c col d di) as [_ ->];
          [by apply elem_mapGet|done..|]. by rewrite Hstale in Hcol; destruct Hcol.
      * intros c d Hin Hstale Heq.
        destruct (Hinj true false c col d di) as [? _];
          [by apply elem_mapGet|done..].
    + rewrite <- Hsa. subst ext'. simpl. rewrite !clearStale_other; [done|..].
      * intros c d Hin Hstale Heq.
        destruct (Hinj false true c col d da) as [? _];
          [by apply elem_mapGet|done..].
      * intros c d Hin Hstale Heq.
        destruct (Hinj true true c col d da) as [_ ->];
          [by apply elem_mapGet|done..|]. by rewrite Hstale in Hcol; destruct Hcol.
  - intros b col d. rewrite Hsame. intros Hd Hstale. subst ext'. simpl.
    apply clearStale_hit. destruct b.
    + right. exists col, d. split_and!; [by apply mapGet_Some_elem|done..].
    + left. apply clearStale_hit. right. exists col, d.
      split_and!; [by apply mapGet_Some_elem|done..].
  - intros b col Hstale. rewrite Hsame. apply Hoth1.
    rewrite elem_of_sortedColumns, Hstale. by intros [? ?].
Qed.

End WholeStage.

(** ** When the stage raises, and what it reuses *)

Section StageFailure.

Variable cfg : Config.
Variable g : Guides.

Lemma colorFor_Some_even (colors : list (list N)) (col : Z) :
  is_Some (colorFor colors col) → Z.even col = true.
Proof.
  unfold colorFor. destruct (Z.even col); [done|]. by intros [? ?].
Qed.

Lemma mapHas_mapSet (m : list (Z * Decoration)) (k c : Z) (d : Decoration) :
  mapHas (mapSet m k d) c = true → c = k ∨ mapHas m c = true.
Proof.
  rewrite !mapHas_mapGet, mapGet_mapSet.
  destruct (Z.eqb_spec k c); [by left|by right].
Qed.

(** A column has an inactive decoration after [decorateColumn] only if it
    had one before or it is the column at hand and has a colour. *)
Lemma decorateColumn_inactive_keys (col c : Z) (ext : Extension) :
  mapHas (inactiveDecorationsByCol
            (finalState (decorateColumn cfg g col ext))) c = true →
  mapHas (inactiveDecorationsByCol ext) c = true
  ∨ (c = col ∧ is_Some (colorFor (cfgColors cfg) col)).
Proof.
  unfold decorateColumn, ensureInactive, ensureActive, createDecorationType.
  destruct (mapHas (inactiveDecorationsByCol ext) col) eqn:Hi.
  - destruct (mapHas (activeDecorationsByCol ext) col) eqn:Ha.
    + destruct (mapGet _ col); [|by left].
      destruct (mapGet _ col); [|by left].
      destruct (columnRanges g !! col); [|by left].
      rewrite splitRanges_filter. by left.
    + destruct (colorFor (cfgColors cfg) col) as [color|]; [|by left].
      cbn [createTextEditorDecorationType inactiveDecorationsByCol
           activeDecorationsByCol].
      destruct (mapGet _ col); [|by left].
      destruct (mapGet _ col); [|by left].
      destruct (columnRanges g !! col); [|by left].
      rewrite splitRanges_filter. by left.
  - destruct (colorFor (cfgColors cfg) col) as [color|]; [|by left].
    cbn [createTextEditorDecorationType inactiveDecorationsByCol
         activeDecorationsByCol].
    assert (mapHas (mapSet (inactiveDecorationsByCol ext) col
                      (mkDecoration (nextKey (host ext))
                         (if startsWithHash color
                          then hexToRgba color (cfgInactiveOpacity cfg)
                          else color))) c = true →
            mapHas (inactiveDecorationsByCol ext) c = true
            ∨ c = col ∧ is_Some (Some color)) as Hset.
    { intros [->|?]%mapHas_mapSet; [right; eauto|by left]. }
    destruct (mapHas (activeDecorationsByCol ext) col) eqn:Ha;
      cbn [createTextEditorDecorationType inactiveDecorationsByCol
           activeDecorationsByCol];
      (destruct (mapGet _ col); [|exact Hset]);
      (destruct (mapGet _ col); [|exact Hset]);
      (destruct (columnRanges g !! col); [|exact Hset]);
      rewrite splitRanges_filter; exact Hset.
Qed.

Lemma forEachColumn_inactive_keys (cols : list Z) (c : Z) :
  ∀ ext,
    mapHas (inactiveDecorationsByCol
              (finalState (forEachColumn cfg g cols ext))) c = true →
    mapHas (inactiveDecorationsByCol ext) c = true
    ∨ is_Some (colorFor (cfgColors cfg) c).
Proof.
  induction cols as [|col cols IH]; intros ext; simpl; [by left|].
  pose proof (decorateColumn_inactive_keys col c ext) as Hstep.
  destruct (decorateColumn cfg g col ext) as [ext'|e]; simpl in *.
  - intros [H|H]%IH; [|by right].
    destruct (Hstep H) as [?|[-> ?]]; [by left|by right].
  - intros H. destruct (Hstep H) as [?|[-> ?]]; [by left|by right].
Qed.

Lemma forEachColumn_throws (cols : list Z) (col : Z) :
  ∀ ext,
    col ∈ cols → colorFor (cfgColors cfg) col = None →
    mapHas (inactiveDecorationsByCol ext) col = false →
    ∃ e, forEachColumn cfg g cols ext = Threw e.
Proof.
  induction cols as [|c cols IH]; intros ext Hin Hcolor Hfresh;
    [by apply elem_of_nil in Hin|].
  simpl. destruct (decide (c = col)) as [->|Hne].
  - exists ext. unfold decorateColumn, ensureInactive.
    by rewrite Hfresh, Hcolor.
  - pose proof (decorateColumn_inactive_keys c col ext) as Hstep.
    destruct (decorateColumn cfg g c ext) as [ext'|e]; [|by eexists].
    apply IH; [|done|].
    + apply elem_of_cons in Hin as [?|?]; [congruence|done].
    + apply not_true_iff_false. intros Hhas.
      destruct (Hstep Hhas) as [?|[? _]]; congruence.
Qed.

Lemma applyDecorations_inactive (ext : Extension) :
  inactiveDecorationsByCol (finalState (applyDecorations cfg g ext))
  = inactiveDecorationsByCol
      (finalState (forEachColumn cfg g (sortedColumns g) ext)).
Proof.
  unfold applyDecorations.
  by destruct (forEachColumn cfg g (sortedColumns g) ext).
Qed.

Lemma applyDecorations_evenCache (ext : Extension) :
  evenCache ext → evenCache (finalState (applyDecorations cfg g ext)).
Proof.
  intros Heven col. rewrite applyDecorations_inactive.
  intros [?|?]%forEachColumn_inactive_keys; [by apply Heven|].
  by eapply colorFor_Some_even.
Qed.

(** A column whose two decorations are cached is decorated without the
    host creating anything. *)
Lemma decorateColumn_reuse (col : Z) (ext : Extension) :
  is_Some (columnRanges g !! col) →
  mapHas (inactiveDecorationsByCol ext) col = true →
  mapHas (activeDecorationsByCol ext) col = true →
  ∃ h, decorateColumn cfg g col ext
       = Done (mkExtension (inactiveDecorationsByCol ext)
                 (activeDecorationsByCol ext) (lastColorsHash ext) h)
       ∧ nextKey h = nextKey (host ext).
Proof.
  intros [ranges Hr] Hi Ha.
  unfold decorateColumn, ensureInactive, ensureActive. rewrite Hi, Ha.
  apply mapHas_mapGet in Hi as [di Hdi]. apply mapHas_mapGet in Ha as [da Hda].
  rewrite Hdi, Hda, Hr, splitRanges_filter. simpl. by eexists.
Qed.

Lemma forEachColumn_reuse (cols : list Z) :
  ∀ ext,
    (∀ col, col ∈ cols →
       is_Some (columnRanges g !! col)
       ∧ mapHas (inactiveDecorationsByCol ext) col = true
       ∧ mapHas (activeDecorationsByCol ext) col = true) →
    ∃ h, forEachColumn cfg g cols ext
         = Done (mkExtension (inactiveDecorationsByCol ext)
                   (activeDecorationsByCol ext) (lastColorsHash ext) h)
         ∧ nextKey h = nextKey (host ext).
Proof.
  induction cols as [|col cols IH]; intros ext Hall; simpl.
  - exists (host ext). by destruct ext.
  - destruct (Hall col) as (Hr & Hi & Ha); [by left|].
    destruct (decorateColumn_reuse col ext Hr Hi Ha) as (h & -> & Hh).
    destruct (IH (mkExtension (inactiveDecorationsByCol ext)
                    (activeDecorationsByCol ext) (lastColorsHash ext) h))
      as (h' & -> & Hh').
    { intros c Hc. apply Hall. by right. }
    exists h'. simpl in *. split; [done|congruence].
Qed.

Lemma applyDecorations_reuse (ext : Extension) :
  (∀ col, is_Some (columnRanges g !! col) →
     mapHas (inactiveDecorationsByCol ext) col = true
     ∧ mapHas (activeDecorationsByCol ext) col = true) →
  ∃ h, applyDecorations cfg g ext
       = Done (mkExtension (inactiveDecorationsByCol ext)
                 (activeDecorationsByCol ext) (lastColorsHash ext) h)
       ∧ nextKey h = nextKey (host ext).
Proof.
  intros Hall. unfold applyDecorations.
  destruct (forEachColumn_reuse (sortedColumns g) ext) as (h & -> & Hh).
  { intros col Hcol%elem_of_sortedColumns. split; [done|]. by apply Hall. }
  eexists. split; [done|]. simpl. by rewrite !clearStale_nextKey.
Qed.

End StageFailure.

(** ** The ranges sent to the active decoration *)

Section ActiveRanges.


Lemma split_Permutation (ab : ActiveBlock) (col : Z) (ranges : list Range) :
  inactiveRangesOf ab col ranges ++ activeRangesOf ab col ranges ≡ₚ ranges.
Proof.
  unfold inactiveRangesOf, activeRangesOf.
  induction ranges as [|r ranges IH]; [done|].
  rewrite !filter_cons. destruct (isActiveRange ab col r) eqn:Hr.
  - destruct (decide (true = false)); [done|].
    destruct (decide (true = true)); [|done].
    rewrite <- Permutation_middle. by constructor.
  - destruct (decide (false = false)); [|done].
    destruct (decide (false = true)); [done|]. simpl. by constructor.
Qed.


End ActiveRanges.


(** ** [updateDecorations] in full *)

Section Run.

Variable cfg : Config.

Lemma wellFormed_empty (hash : option (list (list N) * list N * list N * Z))
    (h : Host) :
  wellFormed (mkExtension [] [] hash h).
Proof.
  split_and!; [constructor|constructor| |];
    intros; unfold cached in *; by destruct b.
Qed.

Lemma checkConfig_same (ext : Extension) :
  lastColorsHash ext = Some (configHash cfg) → checkConfig cfg ext = ext.
Proof. intros H. unfold checkConfig. by rewrite bool_decide_eq_true_2. Qed.

Lemma checkConfig_changed (ext : Extension) :
  lastColorsHash ext ≠ Some (configHash cfg) →
  checkConfig cfg ext
  = mkExtension [] [] (Some (configHash cfg))
      (disposeAll (activeDecorationsByCol ext)
         (disposeAll (inactiveDecorationsByCol ext) (host ext))).
Proof. intros H. unfold checkConfig. by rewrite bool_decide_eq_false_2. Qed.

Lemma checkConfig_wellFormed (ext : Extension) :
  wellFormed ext → wellFormed (checkConfig cfg ext).
Proof.
  intros Hwf. unfold checkConfig. case_bool_decide; [done|].
  apply wellFormed_empty.
Qed.

Lemma checkConfig_evenCache (ext : Extension) :
  evenCache ext → evenCache (checkConfig cfg ext).
Proof.
  intros Heven. unfold checkConfig. case_bool_decide; [done|].
  by intros col.
Qed.

Lemma checkConfig_hash (ext : Extension) :
  lastColorsHash (checkConfig cfg ext) = Some (configHash cfg).
Proof. unfold checkConfig. by case_bool_decide. Qed.

Lemma checkConfig_nextKey (ext : Extension) :
  nextKey (host (checkConfig cfg ext)) = nextKey (host ext).
Proof.
  unfold checkConfig. case_bool_decide; [done|]. simpl.
  by rewrite !disposeAll_nextKey.
Qed.

(** With the extension enabled on a YAML document, the call is the
    decoration stage on the structural result. *)
Lemma runUpdateDecorations_yaml (ed : TextEditor) (ext : Extension) :
  cfgEnabled cfg = true → languageId ed = js "yaml" →
  ∃ g, updateDecorations (document ed) (selectionActiveLine ed)
         (cfgSpacesPerIndent cfg) = Some g
       ∧ runUpdateDecorations cfg (Some ed) ext
         = applyDecorations cfg g (checkConfig cfg ext).
Proof.
  intros Hen Hlang.
  destruct (updateDecorations_spec (document ed) (cfgSpacesPerIndent cfg)
              (selectionActiveLine ed)) as (cols & m & ab & _ & _ & Hg & _).
  exists (mkGuides m ab). split; [done|].
  unfold runUpdateDecorations. rewrite Hen, Hg. simpl.
  by rewrite bool_decide_eq_true_2.
Qed.

Lemma runUpdateDecorations_gated (ed : TextEditor) (ext : Extension) :
  cfgEnabled cfg = false ∨ languageId ed ≠ js "yaml" →
  runUpdateDecorations cfg (Some ed) ext
  = Done (clearAllDecorations true ext).
Proof.
  intros Hgate. unfold runUpdateDecorations.
  destruct (cfgEnabled cfg) eqn:Hen; [|done]. simpl.
  destruct Hgate as [?|Hlang]; [done|]. by rewrite bool_decide_eq_false_2.
Qed.

Lemma clearAllDecorations_stepsTo (ext : Extension) :
  wellFormed ext → stepsTo ext (clearAllDecorations true ext).
Proof.
  intros Hwf. pose proof Hwf as (Hnd1 & Hnd2 & _).
  apply sameCaches_stepsTo;
    [done|done|done|done|simpl; by rewrite !setAll_nextKey|done|].
  intros k Hk. simpl. rewrite !setAll_other; [done|..].
  - intros col d Hin. apply (Hk false col d). by apply elem_mapGet.
  - intros col d Hin. apply (Hk true col d). by apply elem_mapGet.
Qed.

(** Every outcome of the call leaves a well-formed state. *)
Lemma runUpdateDecorations_wellFormed (activeEditor : option TextEditor)
    (ext : Extension) :
  wellFormed ext →
  wellFormed (finalState (runUpdateDecorations cfg activeEditor ext)).
Proof.
  intros Hwf. destruct activeEditor as [ed|]; [|done].
  destruct (decide (cfgEnabled cfg = false ∨ languageId ed ≠ js "yaml"))
    as [Hgate|Hopen].
  - rewrite runUpdateDecorations_gated by done. simpl.
    by destruct (clearAllDecorations_stepsTo ext Hwf).
  - destruct (runUpdateDecorations_yaml ed ext) as (g & _ & ->).
    + destruct (cfgEnabled cfg); [done|]. exfalso. apply Hopen. by left.
    + destruct (decide (languageId ed = js "yaml")); [done|].
      exfalso. apply Hopen. by right.
    + by destruct (applyDecorations_any cfg g (checkConfig cfg ext)
                     (checkConfig_wellFormed ext Hwf)).
Qed.

Lemma runUpdateDecorations_evenCache (activeEditor : option TextEditor)
    (ext : Extension) :
  evenCache ext →
  evenCache (finalState (runUpdateDecorations cfg activeEditor ext)).
Proof.
  intros Heven. destruct activeEditor as [ed|]; [|done].
  destruct (decide (cfgEnabled cfg = false ∨ languageId ed ≠ js "yaml"))
    as [Hgate|Hopen].
  - by rewrite runUpdateDecorations_gated by done.
  - destruct (runUpdateDecorations_yaml ed ext) as (g & _ & ->).
    + destruct (cfgEnabled cfg); [done|]. exfalso. apply Hopen. by left.
    + destruct (decide (languageId ed = js "yaml")); [done|].
      exfalso. apply Hopen. by right.
    + by apply applyDecorations_evenCache, checkConfig_evenCache.
Qed.

End Run.

Section ActiveColumnKey.

Variable doc : list (list N).
Variable spacesPerIndent : Z.

(** A parent column is a key of the result. *)
Lemma parent_column_is_key (cursor c : Z) (g : Guides) :
  updateDecorations doc cursor spacesPerIndent = Some g →
  isParentColumn doc c → is_Some (columnRanges g !! c).
Proof.
  intros Hg Hpar. apply (columnRanges_keys doc spacesPerIndent cursor g c Hg).
  split; [by right|].
  destruct Hpar as (Hc0 & l & d & Hl & Hp).
  destruct (parent_block_not_empty doc l d c Hl Hp Hc0)
    as (h & _ & Hh & _ & _ & (_ & _ & Habs)).
  exists h. split; [done|]. apply Habs. lia.
Qed.

(** The column the active column is derived from is a parent column. *)
Lemma unrounded_column_is_parent (cursor : Z) (ab : ActiveBlock) :
  resolveActiveBlock doc cursor = Some ab → 0 ≤ activeIndentColumn ab →
  ∃ c0, unroundedActiveColumn doc cursor = Some c0 ∧ isParentColumn doc c0.
Proof.
  intros Hab Hcol.
  destruct (resolveActiveBlock_cases doc cursor)
    as [Hnone|[(c & Hc & Hn)|(c & p & Hc & Hn & Hp & Hp0)]].
  - rewrite Hnone in Hab. injection Hab as <-. simpl in Hcol. lia.
  - pose proof Hc as (t & Ht & Hb & Hct). exists c. split.
    + unfold unroundedActiveColumn. rewrite Ht, Hn. simpl. by rewrite Hct.
    + apply hasNestedContent_true_inv in Hn
        as (c' & j & d & Hc' & Hnext & Hd & Hlt).
      rewrite <- (contentLine_fun doc cursor _ _ Hc Hc') in Hlt.
      split; [rewrite <- Hct; apply getEffectiveIndentColumn_nonneg|].
      exists j, d. split; [done|]. by eapply getParentColumn_of_child.
  - pose proof Hc as (t & Ht & Hb & Hct). exists p. split.
    + unfold unroundedActiveColumn. by rewrite Ht, Hn.
    + split; [done|]. by exists cursor, c.
Qed.



End ActiveColumnKey.

(** * Further properties of the decoration stage *)

(** X12. On a colour made of any first character followed by six
    radix-16 digits, [hexToRgba] reads the three pairs of digits as the
    red, green and blue values, each between 0 and 255, and prints them
    with the opacity; characters after the sixth digit are ignored. *)
Theorem hexToRgba_six_digits (c0 c1 c2 c3 c4 c5 c6 : N) (rest alpha : list N)
    (v1 v2 v3 v4 v5 v6 : Z) :
  hexDigit c1 = Some v1 → hexDigit c2 = Some v2 → hexDigit c3 = Some v3 →
  hexDigit c4 = Some v4 → hexDigit c5 = Some v5 → hexDigit c6 = Some v6 →
  hexComponents (c0 :: c1 :: c2 :: c3 :: c4 :: c5 :: c6 :: rest)
  = (Some (16 * v1 + v2), Some (16 * v3 + v4), Some (16 * v5 + v6))
  ∧ 0 ≤ 16 * v1 + v2 ≤ 255 ∧ 0 ≤ 16 * v3 + v4 ≤ 255
  ∧ 0 ≤ 16 * v5 + v6 ≤ 255
  ∧ hexToRgba (c0 :: c1 :: c2 :: c3 :: c4 :: c5 :: c6 :: rest) alpha
    = js "rgba(" ++ js (pretty (16 * v1 + v2)) ++ js ", "
      ++ js (pretty (16 * v3 + v4)) ++ js ", "
      ++ js (pretty (16 * v5 + v6)) ++ js ", " ++ alpha ++ js ")".
Proof.
  intros H1 H2 H3 H4 H5 H6.
  assert (hexComponents (c0 :: c1 :: c2 :: c3 :: c4 :: c5 :: c6 :: rest)
          = (Some (16 * v1 + v2), Some (16 * v3 + v4), Some (16 * v5 + v6)))
    as Hcomp.
  { unfold hexComponents.
    change (slice (c0 :: c1 :: c2 :: c3 :: c4 :: c5 :: c6 :: rest) 1 3)
      with [c1; c2].
    change (slice (c0 :: c1 :: c2 :: c3 :: c4 :: c5 :: c6 :: rest) 3 5)
      with [c3; c4].
    change (slice (c0 :: c1 :: c2 :: c3 :: c4 :: c5 :: c6 :: rest) 5 7)
      with [c5; c6].
    by rewrite (parseInt16_two_digits c1 c2 v1 v2),
      (parseInt16_two_digits c3 c4 v3 v4),
      (parseInt16_two_digits c5 c6 v5 v6). }
  apply hexDigit_range in H1 as [? _], H2 as [? _], H3 as [? _],
    H4 as [? _], H5 as [? _], H6 as [? _].
  split_and!; [done|lia..|]. unfold hexToRgba. by rewrite Hcomp.
Qed.

Lemma hexToRgba_six_digits_witness :
  hexToRgba (js "#ff8000") (js "0.4") = js "rgba(255, 128, 0, 0.4)".
Proof.
  destruct (hexToRgba_six_digits 35 102 102 56 48 48 48 [] (js "0.4")
              15 15 8 0 0 0) as (_ & _ & _ & _ & Hrgba); [reflexivity..|].
  exact Hrgba.
Defined.

(** X13. A colour of at most five characters, such as the three-digit
    form [#fff], has no blue value: [hexToRgba] prints [NaN] in its
    place. *)
Theorem hexToRgba_short_colour (hex alpha : list N) :
  (length hex ≤ 5)%nat →
  ∃ r g, hexComponents hex = (r, g, None)
         ∧ hexToRgba hex alpha
           = js "rgba(" ++ toString r ++ js ", " ++ toString g
             ++ js ", NaN, " ++ alpha ++ js ")".
Proof.
  intros Hlen.
  assert (slice hex 5 7 = []) as Hslice.
  { unfold slice. rewrite drop_ge by done. by rewrite take_nil. }
  exists (parseInt16 (slice hex 1 3)), (parseInt16 (slice hex 3 5)).
  assert (hexComponents hex
          = (parseInt16 (slice hex 1 3), parseInt16 (slice hex 3 5), None))
    as Hcomp by (unfold hexComponents; by rewrite Hslice).
  split; [done|]. unfold hexToRgba. rewrite Hcomp. reflexivity.
Qed.

Lemma hexToRgba_short_colour_witness :
  ∃ r g, hexComponents (js "#fff") = (r, g, None)
         ∧ hexToRgba (js "#fff") (js "0.4")
           = js "rgba(" ++ toString r ++ js ", " ++ toString g
             ++ js ", NaN, " ++ js "0.4" ++ js ")".
Proof. apply (hexToRgba_short_colour (js "#fff") (js "0.4")). simpl. lia. Defined.

(** X14. The colour of a column: an odd column has none, whatever the
    colours are, and so has every column when the list of colours is
    empty; an even non-negative column has the colour at index
    [(col / 2) mod length], so the colours repeat every [2 * length]
    columns. *)
Theorem colorFor_cycles (colors : list (list N)) (col : Z) :
  (Z.even col = false → colorFor colors col = None)
  ∧ colorFor [] col = None
  ∧ (0 ≤ col → Z.even col = true → colors ≠ [] →
     is_Some (colorFor colors col)
     ∧ colorFor colors col
       = colors !! Z.to_nat ((col / 2) mod Z.of_nat (length colors))
     ∧ colorFor colors (col + 2 * Z.of_nat (length colors))
       = colorFor colors col).
Proof.
  split_and!; [apply colorFor_odd|apply colorFor_empty|].
  intros Hcol Heven Hne.
  destruct (colorFor_even colors col Hcol Heven Hne) as [Heq Hsome].
  split_and!; [done..|].
  assert (0 < Z.of_nat (length colors)) as Hlen
    by (destruct colors; [done|simpl; lia]).
  destruct (colorFor_even colors (col + 2 * Z.of_nat (length colors)))
    as [Heq' _]; [lia| |done|].
  { rewrite Z.even_add, Heven, Z.even_mul. done. }
  rewrite Heq', Heq. do 2 f_equal.
  replace (col + 2 * Z.of_nat (length colors))
    with (col + Z.of_nat (length colors) * 2) by lia.
  rewrite Z.div_add by lia.
  replace (col / 2 + Z.of_nat (length colors))
    with (col / 2 + 1 * Z.of_nat (length colors)) by lia.
  by rewrite Z.mod_add by lia.
Qed.

Lemma colorFor_cycles_witness :
  colorFor (cfgColors defaultConfig) 3 = None
  ∧ colorFor (cfgColors defaultConfig) (2 + 2 * 6)
    = colorFor (cfgColors defaultConfig) 2.
Proof.
  split.
  - by apply (proj1 (colorFor_cycles (cfgColors defaultConfig) 3)).
  - by apply (proj2 (proj2 (colorFor_cycles (cfgColors defaultConfig) 2))).
Defined.

(** X15. On a YAML document in which some non-blank line has an odd
    parent column, [updateDecorations] raises, from the initial state and
    from every state whose cached columns are all even: the odd column is
    a key of the result, it has no colour, and creating its decoration
    fails.  The cached columns are still all even afterwards, so the next
    call raises again. *)
Theorem odd_parent_column_raises (cfg : Config) (ed : TextEditor)
    (ext : Extension) (c : Z) :
  cfgEnabled cfg = true → languageId ed = js "yaml" → evenCache ext →
  isParentColumn (document ed) c → Z.even c = false →
  ∃ e, runUpdateDecorations cfg (Some ed) ext = Threw e ∧ evenCache e.
Proof.
  intros Hen Hlang Heven Hpar Hodd.
  destruct (runUpdateDecorations_yaml cfg ed ext Hen Hlang) as (g & Hg & Hrun).
  pose proof (parent_column_is_key _ _ _ c g Hg Hpar) as Hkey.
  pose proof (runUpdateDecorations_evenCache cfg (Some ed) ext Heven) as Hafter.
  rewrite Hrun in *. unfold applyDecorations in *.
  destruct (forEachColumn_throws cfg g (sortedColumns g) c
              (checkConfig cfg ext)) as (e & He).
  - by apply elem_of_sortedColumns.
  - by apply colorFor_odd.
  - apply not_true_iff_false. intros Hhas.
    apply (checkConfig_evenCache cfg ext Heven) in Hhas. congruence.
  - rewrite He in *. by exists e.
Qed.

Lemma odd_parent_column_raises_witness :
  ∃ e, runUpdateDecorations defaultConfig
         (Some (mkTextEditor oddDoc (js "yaml") 0)) initialExtension
       = Threw e ∧ evenCache e.
Proof.
  apply (odd_parent_column_raises defaultConfig
           (mkTextEditor oddDoc (js "yaml") 0) initialExtension 1).
  - reflexivity.
  - reflexivity.
  - intros col Hcol. discriminate Hcol.
  - split; [lia|]. exists 1, 3. split; [by exists (js "   b")|reflexivity].
  - reflexivity.
Defined.



(** X17. On a YAML document with the extension enabled, at least one
    colour configured and every key of the structural result even, the
    call completes; afterwards both decorations of every key are cached,
    the editor shows under the inactive one the ranges of the column
    outside the active block and under the active one those inside it,
    and every cached decoration of a column that is not a key shows
    nothing. *)
Theorem runUpdateDecorations_shows_every_key (cfg : Config)
    (ed : TextEditor) (ext : Extension) (g : Guides) :
  cfgEnabled cfg = true → languageId ed = js "yaml" →
  cfgColors cfg ≠ [] → wellFormed ext →
  updateDecorations (document ed) (selectionActiveLine ed)
    (cfgSpacesPerIndent cfg) = Some g →
  (∀ col, is_Some (columnRanges g !! col) → Z.even col = true) →
  ∃ ext',
    runUpdateDecorations cfg (Some ed) ext = Done ext'
    ∧ (∀ col, is_Some (columnRanges g !! col) → columnShown g ext' col)
    ∧ (∀ b col d, cached ext' b col = Some d →
                  columnRanges g !! col = None →
                  shown (host ext') !! decorationKey d = Some []).
Proof.
  intros Hen Hlang Hcolors Hwf Hg Hkeys.
  destruct (runUpdateDecorations_yaml cfg ed ext Hen Hlang) as (g' & Hg' & ->).
  assert (g' = g) as -> by congruence.
  destruct (applyDecorations_spec cfg g (checkConfig cfg ext))
    as (ext' & He & _ & _ & Hshown & Hstale & _).
  - by apply checkConfig_wellFormed.
  - intros col Hcol. left. apply colorFor_even; [|by apply Hkeys|done].
    destruct Hcol as [ranges Hranges].
    destruct ranges as [|r ranges].
    + destruct (updateDecorations_spec (document ed) (cfgSpacesPerIndent cfg)
                  (selectionActiveLine ed))
        as (cols & m & ab & _ & _ & Hres & Hiff).
      assert (g = mkGuides m ab) as Hgm by congruence.
      rewrite Hgm in Hranges. simpl in Hranges.
      by destruct (proj1 (Hiff col []) Hranges) as (_ & _ & ?).
    + destruct (columnRanges_shape _ _ _ g col (r :: ranges) r Hg Hranges)
        as (_ & ? & _); [by left|done].
  - by exists ext'.
Qed.

Lemma runUpdateDecorations_shows_every_key_witness :
  ∃ ext',
    runUpdateDecorations defaultConfig
      (Some (mkTextEditor nestedDoc (js "yaml") 0)) initialExtension
    = Done ext'.
Proof.
  destruct (updateDecorations nestedDoc 0 1) as [g|] eqn:Hg;
    [|by vm_compute in Hg].
  destruct (runUpdateDecorations_shows_every_key defaultConfig
              (mkTextEditor nestedDoc (js "yaml") 0) initialExtension g)
    as (ext' & He & _).
  - reflexivity.
  - reflexivity.
  - discriminate.
  - apply wellFormed_empty.
  - exact Hg.
  - vm_compute in Hg. injection Hg as <-. intros col [rs Hrs].
    apply elem_of_map_to_list in Hrs. vm_compute in Hrs.
    apply list_elem_of_singleton in Hrs. by injection Hrs as -> _.
  - by exists ext'.
Defined.

(** X18. When the configuration is the one of the previous call and both
    decorations of every key are already cached, the call completes
    without asking the host for a decoration type and leaves both caches
    and the configuration hash as they were, whatever the colours are. *)
Theorem runUpdateDecorations_reuses_decorations (cfg : Config)
    (ed : TextEditor) (ext : Extension) (g : Guides) :
  cfgEnabled cfg = true → languageId ed = js "yaml" →
  lastColorsHash ext = Some (configHash cfg) →
  updateDecorations (document ed) (selectionActiveLine ed)
    (cfgSpacesPerIndent cfg) = Some g →
  (∀ col, is_Some (columnRanges g !! col) →
     mapHas (inactiveDecorationsByCol ext) col = true
     ∧ mapHas (activeDecorationsByCol ext) col = true) →
  ∃ h, runUpdateDecorations cfg (Some ed) ext
       = Done (mkExtension (inactiveDecorationsByCol ext)
                 (activeDecorationsByCol ext) (lastColorsHash ext) h)
       ∧ nextKey h = nextKey (host ext).
Proof.
  intros Hen Hlang Hhash Hg Hcached.
  destruct (runUpdateDecorations_yaml cfg ed ext Hen Hlang) as (g' & Hg' & ->).
  assert (g' = g) as -> by congruence.
  rewrite checkConfig_same by done.
  by apply applyDecorations_reuse.
Qed.

Lemma runUpdateDecorations_reuses_decorations_witness :
  ∃ h,
    runUpdateDecorations defaultConfig
      (Some (mkTextEditor nestedDoc (js "yaml") 1))
      (finalState (runUpdateDecorations defaultConfig
                     (Some (mkTextEditor nestedDoc (js "yaml") 0))
                     initialExtension))
    = Done (mkExtension [(0, mkDecoration 0 (js "rgba(255, 0, 0, 0.08)"))]
              [(0, mkDecoration 1 (js "rgba(255, 0, 0, 0.4)"))]
              (Some (configHash defaultConfig)) h)
    ∧ nextKey h = 2%nat.
Proof.
  destruct (updateDecorations nestedDoc 1 1) as [g|] eqn:Hg;
    [|by vm_compute in Hg].
  assert (∀ col, is_Some (columnRanges g !! col) → col = 0) as Hkeys.
  { vm_compute in Hg. injection Hg as <-. intros col [rs Hrs].
    apply elem_of_map_to_list in Hrs. vm_compute in Hrs.
    apply list_elem_of_singleton in Hrs. by injection Hrs as -> _. }
  apply (runUpdateDecorations_reuses_decorations defaultConfig
           (mkTextEditor nestedDoc (js "yaml") 1)
           (finalState (runUpdateDecorations defaultConfig
                          (Some (mkTextEditor nestedDoc (js "yaml") 0))
                          initialExtension)) g).
  - reflexivity.
  - reflexivity.
  - vm_compute. reflexivity.
  - exact Hg.
  - intros col ->%Hkeys. split; vm_compute; reflexivity.
Defined.

(** X19. When the extension is disabled, or the document is not a YAML
    document, the call completes, keeps both caches, the configuration
    hash and the host's decoration types, sets every cached decoration to
    no ranges and changes nothing else in the editor. *)
Theorem runUpdateDecorations_gate_clears (cfg : Config) (ed : TextEditor)
    (ext : Extension) :
  cfgEnabled cfg = false ∨ languageId ed ≠ js "yaml" →
  ∃ h, runUpdateDecorations cfg (Some ed) ext
       = Done (mkExtension (inactiveDecorationsByCol ext)
                 (activeDecorationsByCol ext) (lastColorsHash ext) h)
       ∧ nextKey h = nextKey (host ext)
       ∧ (∀ b col d, cached ext b col = Some d →
                     shown h !! decorationKey d = Some [])
       ∧ (∀ k, (∀ col d, (col, d) ∈ inactiveDecorationsByCol ext
                         ∨ (col, d) ∈ activeDecorationsByCol ext →
                         decorationKey d ≠ k) →
               shown h !! k = shown (host ext) !! k).
Proof.
  intros Hgate. rewrite runUpdateDecorations_gated by done.
  eexists. split; [reflexivity|]. split_and!.
  - by rewrite !setAll_nextKey.
  - intros b col d Hd. apply setAll_hit. destruct b.
    + right. exists col, d. split; [by apply mapGet_Some_elem|done].
    + left. apply setAll_hit. right. exists col, d.
      split; [by apply mapGet_Some_elem|done].
  - intros k Hk. rewrite !setAll_other; [done|..].
    + intros col d Hin. apply (Hk col d). by left.
    + intros col d Hin. apply (Hk col d). by right.
Qed.

Lemma runUpdateDecorations_gate_clears_witness :
  ∃ h, runUpdateDecorations defaultConfig
         (Some (mkTextEditor nestedDoc (js "json") 0)) initialExtension
       = Done (mkExtension [] [] None h).
Proof.
  destruct (runUpdateDecorations_gate_clears defaultConfig
              (mkTextEditor nestedDoc (js "json") 0) initialExtension)
    as (h & Hh & _).
  - right. discriminate.
  - by exists h.
Defined.

(** A changed configuration hash makes the call dispose of every cached
    decoration before it creates new ones. *)
Lemma config_change_disposes (cfg : Config)
    (ed : TextEditor) (ext : Extension) :
  cfgEnabled cfg = true → languageId ed = js "yaml" → wellFormed ext →
  lastColorsHash ext ≠ Some (configHash cfg) →
  lastColorsHash (finalState (runUpdateDecorations cfg (Some ed) ext))
  = Some (configHash cfg)
  ∧ (∀ b col d, cached ext b col = Some d →
       shown (host (finalState (runUpdateDecorations cfg (Some ed) ext)))
       !! decorationKey d = None)
  ∧ (∀ b col d,
       cached (finalState (runUpdateDecorations cfg (Some ed) ext)) b col
       = Some d →
       (nextKey (host ext) ≤ decorationKey d)%nat).
Proof.
  intros Hen Hlang Hwf Hchanged.
  destruct (runUpdateDecorations_yaml cfg ed ext Hen Hlang) as (g & _ & ->).
  pose proof (applyDecorations_any cfg g (checkConfig cfg ext)
                (checkConfig_wellFormed cfg ext Hwf))
    as (_ & (_ & _ & Hhash) & Horigin & Hframe).
  assert (∀ b col d,
            cached (finalState (applyDecorations cfg g (checkConfig cfg ext)))
              b col = Some d →
            (nextKey (host ext) ≤ decorationKey d)%nat) as Hnew.
  { intros b col d Hd. destruct (Horigin b col d Hd) as [Hold|Hk].
    - rewrite checkConfig_changed in Hold by done.
      unfold cached in Hold. by destruct b.
    - by rewrite checkConfig_nextKey in Hk. }
  split_and!; [|  |done].
  - rewrite Hhash. apply checkConfig_hash.
  - intros b col d Hd.
    destruct Hwf as (_ & _ & _ & Hbound). pose proof (Hbound b col d Hd).
    rewrite Hframe.
    + rewrite checkConfig_changed by done. simpl.
      apply mapGet_Some_elem in Hd. destruct b.
      * apply disposeAll_hit. right. by exists col, d.
      * apply disposeAll_hit. left. apply disposeAll_hit. right.
        by exists col, d.
    + intros b' col' d' Hd' Heq. apply Hnew in Hd'. lia.
Qed.







Section CompletedCall.

(** With every key even, the active span lies within the guide ranges of
    the active column. *)
Lemma even_keys_cover_active_span (doc : list (list N))
    (cursor spacesPerIndent : Z) (g : Guides) :
  updateDecorations doc cursor spacesPerIndent = Some g →
  (∀ col, is_Some (columnRanges g !! col) → Z.even col = true) →
  0 ≤ activeIndentColumn (activeBlock g) → activeSpanCovered g.
Proof.
  intros Hg Hkeys Hcol.
  destruct (updateDecorations_spec doc spacesPerIndent cursor)
    as (cols & m & ab & Hcols & Hab & Hres & _).
  assert (g = mkGuides m ab) as Hgm by congruence.
  rewrite Hgm in Hcol. simpl in Hcol.
  destruct (unrounded_column_is_parent doc cursor ab Hab Hcol)
    as (c0 & Hc0 & Hpar).
  pose proof (Hkeys c0 (parent_column_is_key doc spacesPerIndent cursor c0 g
                          Hg Hpar)) as Heven.
  destruct (active_block_head doc cursor c0 ab cols Hcols Hab Hcol Hc0 Heven)
    as (Hsame & Hin & h & l0 & Hcov0 & Hspan).
  destruct (columnRanges_covers doc spacesPerIndent cursor c0 h l0 cols
              Hcols Hin Hcov0) as (g' & ranges & Hg' & Hkey & Hiff).
  assert (g' = g) as -> by congruence.
  exists ranges. rewrite Hgm in *. simpl in *. rewrite Hsame.
  split; [done|]. intros k Hk. apply Hiff. exists h. by apply Hspan.
Qed.

(** A call that completes had only even keys to decorate. *)
Lemma completed_call_even_keys (cfg : Config) (ed : TextEditor)
    (ext ext' : Extension) (g : Guides) :
  cfgEnabled cfg = true → languageId ed = js "yaml" → evenCache ext →
  updateDecorations (document ed) (selectionActiveLine ed)
    (cfgSpacesPerIndent cfg) = Some g →
  runUpdateDecorations cfg (Some ed) ext = Done ext' →
  ∀ col, is_Some (columnRanges g !! col) → Z.even col = true.
Proof.
  intros Hen Hlang Heven Hg Hdone col Hcol.
  destruct (Z.even col) eqn:Hodd; [done|exfalso].
  destruct (runUpdateDecorations_yaml cfg ed ext Hen Hlang)
    as (g' & Hg' & Hrun).
  assert (g' = g) as -> by congruence.
  rewrite Hrun in Hdone. unfold applyDecorations in Hdone.
  destruct (forEachColumn_throws cfg g (sortedColumns g) col
              (checkConfig cfg ext)) as (e & He).
  - by apply elem_of_sortedColumns.
  - by apply colorFor_odd.
  - apply not_true_iff_false. intros Hhas.
    apply (checkConfig_evenCache cfg ext Heven) in Hhas. congruence.
  - by rewrite He in Hdone.
Qed.

End CompletedCall.

(** X23. Whenever a call on a YAML document completes, from the initial
    state or from any state whose cached columns are all even, every key
    of the structural result is even and, if there is an active block,
    the active column is a key and every line of the active span carries
    a guide range of that column. *)
Theorem completed_call_covers_active_span (cfg : Config) (ed : TextEditor)
    (ext ext' : Extension) (g : Guides) :
  cfgEnabled cfg = true → languageId ed = js "yaml" → evenCache ext →
  updateDecorations (document ed) (selectionActiveLine ed)
    (cfgSpacesPerIndent cfg) = Some g →
  runUpdateDecorations cfg (Some ed) ext = Done ext' →
  (∀ col, is_Some (columnRanges g !! col) → Z.even col = true)
  ∧ (0 ≤ activeIndentColumn (activeBlock g) → activeSpanCovered g).
Proof.
  intros Hen Hlang Heven Hg Hdone.
  pose proof (completed_call_even_keys cfg ed ext ext' g Hen Hlang Heven
                Hg Hdone) as Hkeys.
  split; [done|]. by apply (even_keys_cover_active_span (document ed)
                              (selectionActiveLine ed)
                              (cfgSpacesPerIndent cfg)).
Qed.

Lemma completed_call_covers_active_span_witness :
  ∃ g, updateDecorations listDoc 1 1 = Some g ∧ activeSpanCovered g.
Proof.
  destruct (updateDecorations listDoc 1 1) as [g|] eqn:Hg;
    [|by vm_compute in Hg].
  exists g. split; [done|].
  destruct (runUpdateDecorations defaultConfig
              (Some (mkTextEditor listDoc (js "yaml") 1)) initialExtension)
    as [ext'|e] eqn:Hrun; [|by vm_compute in Hrun].
  refine (proj2 (completed_call_covers_active_span defaultConfig
                   (mkTextEditor listDoc (js "yaml") 1) initialExtension
                   ext' g _ _ _ Hg Hrun) _).
  - reflexivity.
  - reflexivity.
  - intros col Hcol. discriminate Hcol.
  - vm_compute in Hg. injection Hg as <-. simpl. lia.
Defined.


(** X24. [disposeAllDecorations], which runs on a changed configuration
    and when the extension is disposed of, empties both caches, removes
    from the editor every decoration that was cached, creates nothing and
    leaves every other decoration of the editor as it was. *)
Theorem disposeAllDecorations_removes_everything (ext : Extension) :
  inactiveDecorationsByCol (disposeAllDecorations ext) = []
  ∧ activeDecorationsByCol (disposeAllDecorations ext) = []
  ∧ lastColorsHash (disposeAllDecorations ext) = lastColorsHash ext
  ∧ nextKey (host (disposeAllDecorations ext)) = nextKey (host ext)
  ∧ (∀ b col d, cached ext b col = Some d →
       shown (host (disposeAllDecorations ext)) !! decorationKey d = None)
  ∧ (∀ k, (∀ col d, (col, d) ∈ inactiveDecorationsByCol ext
                    ∨ (col, d) ∈ activeDecorationsByCol ext →
                    decorationKey d ≠ k) →
          shown (host (disposeAllDecorations ext)) !! k
          = shown (host ext) !! k).
Proof.
  split_and!; [done..| | |].
  - simpl. by rewrite !disposeAll_nextKey.
  - intros b col d Hd%mapGet_Some_elem. simpl. destruct b.
    + apply disposeAll_hit. right. by exists col, d.
    + apply disposeAll_hit. left. apply disposeAll_hit. right.
      by exists col, d.
  - intros k Hk. simpl. rewrite !disposeAll_other; [done|..].
    + intros col d Hin. apply (Hk col d). by left.
    + intros col d Hin. apply (Hk col d). by right.
Qed.

Lemma disposeAllDecorations_removes_everything_witness :
  shown (host (disposeAllDecorations
                 (finalState (runUpdateDecorations defaultConfig
                                (Some (mkTextEditor nestedDoc (js "yaml") 0))
                                initialExtension)))) !! 1%nat
  = None.
Proof.
  refine (proj1 (proj2 (proj2 (proj2 (proj2
            (disposeAllDecorations_removes_everything _))))) true 0
            (mkDecoration 1 (js "rgba(255, 0, 0, 0.4)")) _).
  vm_compute. reflexivity.
Defined.

(** X25. After a configuration event the next call on a YAML document
    disposes of every decoration that was cached, even when the settings
    it reads are the same as before: none of the old decorations is left
    in the editor, and the decorations cached afterwards were all created
    during that call. *)
Theorem configuration_event_forces_recreation (cfg : Config)
    (ed : TextEditor) (ext : Extension) :
  cfgEnabled cfg = true → languageId ed = js "yaml" → wellFormed ext →
  (∀ b col d, cached ext b col = Some d →
     shown (host (finalState
                    (runUpdateDecorations cfg (Some ed)
                       (onDidChangeConfiguration ext))))
     !! decorationKey d = None)
  ∧ (∀ b col d,
       cached (finalState (runUpdateDecorations cfg (Some ed)
                             (onDidChangeConfiguration ext))) b col
       = Some d →
       (nextKey (host ext) ≤ decorationKey d)%nat).
Proof.
  intros Hen Hlang Hwf.
  destruct (config_change_disposes cfg ed (onDidChangeConfiguration ext))
    as (_ & Hgone & Hnew); [done..|].
  by split.
Qed.

Lemma configuration_event_forces_recreation_witness :
  shown (host (finalState
                 (runUpdateDecorations defaultConfig
                    (Some (mkTextEditor nestedDoc (js "yaml") 0))
                    (onDidChangeConfiguration
                       (finalState
                          (runUpdateDecorations defaultConfig
                             (Some (mkTextEditor nestedDoc (js "yaml") 0))
                             initialExtension)))))) !! 1%nat
  = None.
Proof.
  refine (proj1 (configuration_event_forces_recreation defaultConfig
                   (mkTextEditor nestedDoc (js "yaml") 0)
                   (finalState
                      (runUpdateDecorations defaultConfig
                         (Some (mkTextEditor nestedDoc (js "yaml") 0))
                         initialExtension)) _ _ _) true 0
            (mkDecoration 1 (js "rgba(255, 0, 0, 0.4)")) _).
  - reflexivity.
  - reflexivity.
  - apply (runUpdateDecorations_wellFormed defaultConfig
             (Some (mkTextEditor nestedDoc (js "yaml") 0)) initialExtension).
    apply wellFormed_empty.
  - vm_compute. reflexivity.
Defined.
